(** * SOFiSTiK grammar builder: keyword table, pattern optimizer, rule generator

    A shallow embedding of [build/build.py] (and of the table loop and the
    module loop of the older inline [build.py]) with the properties of the
    natural-language specification stated over it.

    Conventions of the embedding:
    - a Python [str] is a [string] of ASCII characters, which is what the
      keyword table of SOFiSTiK holds: [upper] and [lower] act on the
      letters a-z and A-Z as [str.upper] and [str.lower] do on ASCII
      text, and strings compare by code points;
    - a spreadsheet cell read with [values_only=True] is [None], a [str] or
      a number: [option value], an integer standing for the numeric cell;
    - a Python [dict] is an association list in insertion order, re-binding
      a key in place; a [list] object that is shared between a variable and
      a dict entry lives in a store and is named by its address;
    - [sorted] and [list.sort] are a stable sort by the key of the call;
    - code that can raise returns [result], the exception as [Raise];
    - the text of the rules is the text of the f-strings, character by
      character, a backslash of the output being one backslash here. *)

From Stdlib Require Import String Ascii List ZArith Lia Bool Arith.
From Stdlib Require Import Sorting.Sorted Sorting.Permutation.
From Stdlib Require Import DecimalString.
Import ListNotations.

Local Open Scope list_scope.
Local Open Scope string_scope.

(* ================================================================== *)
(** ** Python values, exceptions, dictionaries                          *)
(* ================================================================== *)

(** What a populated cell holds: text or a number. *)
Inductive value : Type :=
| VStr (s : string)
| VInt (n : Z).

Definition value_eqb (a b : value) : bool :=
  match a, b with
  | VStr s, VStr t => String.eqb s t
  | VInt n, VInt m => Z.eqb n m
  | _, _ => false
  end.

(** A cell of a row: [None] is an absent cell. *)
Definition cell : Type := option value.

(** The exceptions the modelled code can raise. *)
Inductive exn : Type :=
| IndexError   (* [keyword[0]] on an empty string *)
| TypeError.   (* [len(x)] or [x[0]] on a number *)

Inductive result (A : Type) : Type :=
| OK (a : A)
| Raise (e : exn).
Arguments OK {A} a.
Arguments Raise {A} e.

Definition bind {A B} (m : result A) (f : A -> result B) : result B :=
  match m with
  | OK a => f a
  | Raise e => Raise e
  end.

Notation "x <- m ;; k" := (bind m (fun x => k))
  (at level 61, m at next level, right associativity).

(** [for x in l: acc = f(acc, x)], stopping at the first exception. *)
Fixpoint foldM {A S} (f : S -> A -> result S) (l : list A) (s : S) : result S :=
  match l with
  | [] => OK s
  | x :: l' => s' <- f s x ;; foldM f l' s'
  end.

Fixpoint mapM {A B} (f : A -> result B) (l : list A) : result (list B) :=
  match l with
  | [] => OK []
  | x :: l' => y <- f x ;; ys <- mapM f l' ;; OK (y :: ys)
  end.

(** An insertion-ordered dictionary. *)
Section Dict.
Variables K V : Type.
Variable keq : K -> K -> bool.

Definition dict : Type := list (K * V).

Fixpoint dict_get (d : dict) (k : K) : option V :=
  match d with
  | [] => None
  | (k', v) :: d' => if keq k' k then Some v else dict_get d' k
  end.

(** [d[k] = v]: a bound key keeps its place, a new key goes last. *)
Fixpoint dict_set (d : dict) (k : K) (v : V) : dict :=
  match d with
  | [] => [(k, v)]
  | (k', v') :: d' =>
      if keq k' k then (k', v) :: d' else (k', v') :: dict_set d' k v
  end.

Definition dict_keys (d : dict) : list K := map fst d.
End Dict.
Arguments dict_get {K V} keq d k.
Arguments dict_set {K V} keq d k v.
Arguments dict_keys {K V} d.

(* ================================================================== *)
(** ** [load_keywords]: the table loop                                  *)
(* ================================================================== *)

(** The workbook as openpyxl hands it over: the sheets in order, each
    with its rows, each row a tuple of cell values. *)
Definition row : Type := list cell.
Definition sheet : Type := list row.
Definition workbook : Type := list (string * sheet).

(** The keyword table: module -> command -> sub-keywords. *)
Definition module_table : Type := dict value (list value).
Definition keyword_table : Type := dict string module_table.

(** The list objects of the loop, by address. *)
Definition addr : Type := nat.
Definition store : Type := list (list value).

Definition deref (h : store) (a : addr) : list value := nth a h [].

(** [[]]: a new list object. *)
Definition alloc (h : store) : store * addr := ((h ++ [[]])%list, List.length h).

Fixpoint store_update (h : store) (a : addr) (f : list value -> list value) : store :=
  match h, a with
  | [], _ => []
  | l :: h', O => f l :: h'
  | l :: h', S a' => l :: store_update h' a' f
  end.

(** [x.append(v)] on the list object at [a]. *)
Definition append_at (h : store) (a : addr) (v : value) : store :=
  store_update h a (fun l => (l ++ [v])%list).

(** The variables of the loop over one sheet: the store, [module_keywords]
    (command -> address of its list) and [current_command_subkeywords]. *)
Record loop_state : Type := mkLoop {
  objects : store;
  module_keywords : dict value addr;
  current_command_subkeywords : addr
}.

(** [cell_value is None or (isinstance(cell_value, str) and len(cell_value) == 0)] *)
Definition skipped (c : cell) : bool :=
  match c with
  | None => true
  | Some (VStr s) => Nat.eqb (String.length s) 0
  | Some (VInt _) => false
  end.

(** The body of the loop over the cells of a row. *)
Definition cell_step (st : loop_state) (column_index : nat) (c : cell) : loop_state :=
  if skipped c then st
  else
    match c with
    | None => st
    | Some cell_value =>
        match column_index with
        | O =>
            let (h, a) := alloc (objects st) in
            mkLoop h (dict_set value_eqb (module_keywords st) cell_value a) a
        | S _ =>
            mkLoop (append_at (objects st) (current_command_subkeywords st) cell_value)
                   (module_keywords st) (current_command_subkeywords st)
        end
    end.

(** [for column_index, cell_value in enumerate(row)] *)
Fixpoint row_loop (st : loop_state) (column_index : nat) (r : row) : loop_state :=
  match r with
  | [] => st
  | c :: r' => row_loop (cell_step st column_index c) (S column_index) r'
  end.

(** [for row in worksheet.iter_rows(values_only=True)] *)
Definition sheet_loop (st : loop_state) (ws : sheet) : loop_state :=
  fold_left (fun st r => row_loop st 0 r) ws st.

(** What [module_keywords] holds once the lists are read back. *)
Definition read_entry (h : store) (ka : value * addr) : value * list value :=
  (fst ka, deref h (snd ka)).

Definition read_module (st : loop_state) : module_table :=
  map (read_entry (objects st)) (module_keywords st).

(** A fresh [module_keywords = {}] and [current_command_subkeywords = []]. *)
Definition sheet_init : loop_state := mkLoop [[]] [] 0.

Definition load_sheet (ws : sheet) : module_table :=
  read_module (sheet_loop sheet_init ws).

(** [load_keywords]: one entry per sheet name, in sheet order. *)
Definition load_keywords (wb : workbook) : keyword_table :=
  fold_left (fun keywords_by_module '(module_name, ws) =>
               dict_set String.eqb keywords_by_module module_name (load_sheet ws))
            wb [].

(** The table loop of the inline [build.py]: the same loop with the two
    skip tests written as two statements. *)
Definition cell_step_inline (st : loop_state) (i : nat) (key : cell) : loop_state :=
  match key with
  | None => st
  | Some key =>
      if (match key with VStr s => Nat.eqb (String.length s) 0 | VInt _ => false end)
      then st
      else
        match i with
        | O =>
            let (h, a) := alloc (objects st) in
            mkLoop h (dict_set value_eqb (module_keywords st) key a) a
        | S _ =>
            mkLoop (append_at (objects st) (current_command_subkeywords st) key)
                   (module_keywords st) (current_command_subkeywords st)
        end
  end.

(* ================================================================== *)
(** ** Strings                                                          *)
(* ================================================================== *)

Definition is_lower (c : ascii) : bool :=
  let n := nat_of_ascii c in Nat.leb 97 n && Nat.leb n 122.

Definition is_upper (c : ascii) : bool :=
  let n := nat_of_ascii c in Nat.leb 65 n && Nat.leb n 90.

(** [c.upper()] and [c.lower()] of one character. *)
Definition upper_char (c : ascii) : ascii :=
  if is_lower c then ascii_of_nat (nat_of_ascii c - 32) else c.

Definition lower_char (c : ascii) : ascii :=
  if is_upper c then ascii_of_nat (nat_of_ascii c + 32) else c.

Fixpoint string_map (f : ascii -> ascii) (s : string) : string :=
  match s with
  | EmptyString => EmptyString
  | String c s' => String (f c) (string_map f s')
  end.

Definition upper (s : string) : string := string_map upper_char s.
Definition lower (s : string) : string := string_map lower_char s.

(** [word[1:]] *)
Definition tail (s : string) : string :=
  match s with
  | EmptyString => EmptyString
  | String _ s' => s'
  end.

(** The double quote, which the fixed rules use twice. *)
Definition dq : string := String (ascii_of_nat 34) EmptyString.

(** [str(x)] of a value inside an f-string. *)
Definition py_str (v : value) : string :=
  match v with
  | VStr s => s
  | VInt n => NilZero.string_of_int (Z.to_int n)
  end.

(* ================================================================== *)
(** ** Sorting                                                          *)
(* ================================================================== *)

Section Sort.
Variable A : Type.
Variable leb : A -> A -> bool.

Fixpoint insert (x : A) (l : list A) : list A :=
  match l with
  | [] => [x]
  | y :: l' => if leb x y then x :: l else y :: insert x l'
  end.

(** A stable sort: an element goes before the later ones it ties with. *)
Definition sort (l : list A) : list A := fold_right insert [] l.
End Sort.
Arguments insert {A} leb x l.
Arguments sort {A} leb l.

(** The order of [key=lambda x: (-len(x), x)] on strings: longer first,
    ties by code points. *)
Definition keyword_leb (x y : string) : bool :=
  if Nat.eqb (String.length x) (String.length y)
  then String.leb x y
  else Nat.ltb (String.length y) (String.length x).

Definition as_str (v : value) : result string :=
  match v with
  | VStr s => OK s
  | VInt _ => Raise TypeError
  end.

(** [sorted(l, key=lambda x: (-len(x), x))]: the keys are computed first,
    and [len] of a number raises. *)
Definition sorted_longest_first (l : list value) : result (list value) :=
  ss <- mapM as_str l ;;
  OK (map VStr (sort keyword_leb ss)).

(* ================================================================== *)
(** ** [optimize_pattern]                                               *)
(* ================================================================== *)

(** [keyword[0].upper()], with the keyword it was taken from. *)
Definition first_character (keyword : value) : result (ascii * string) :=
  match keyword with
  | VInt _ => Raise TypeError
  | VStr EmptyString => Raise IndexError
  | VStr (String c _ as s) => OK (upper_char c, s)
  end.

(** [groups[character].append(keyword)] on a [defaultdict(list)]. *)
Definition group_append (groups : dict ascii (list string)) (character : ascii)
    (keyword : string) : dict ascii (list string) :=
  match dict_get Ascii.eqb groups character with
  | Some word_list => dict_set Ascii.eqb groups character (word_list ++ [keyword])%list
  | None => dict_set Ascii.eqb groups character [keyword]
  end.

Definition group_step (groups : dict ascii (list string)) (keyword : value)
    : result (dict ascii (list string)) :=
  ck <- first_character keyword ;;
  OK (group_append groups (fst ck) (snd ck)).

(** [for character in groups: groups[character].sort(key=...)] *)
Definition sort_groups (groups : dict ascii (list string)) : dict ascii (list string) :=
  map (fun cw => (fst cw, sort keyword_leb (snd cw))) groups.

(** [groups[character]] on a [defaultdict(list)]. *)
Definition group_of (groups : dict ascii (list string)) (character : ascii) : list string :=
  match dict_get Ascii.eqb groups character with
  | Some word_list => word_list
  | None => []
  end.

Definition char_str (c : ascii) : string := String c EmptyString.

(** The body of the loop over the sorted group keys. *)
Definition pattern_part (groups : dict ascii (list string)) (character : ascii) : string :=
  let word_list := group_of groups character in
  match word_list with
  | [w] => w
  | _ =>
      let word_suffixes := String.concat "|" (map tail word_list) in
      "(?:" ++ char_str character ++ "(?:" ++ word_suffixes ++ "))"
  end.

Definition optimize_pattern (keyword_list : list value) : result string :=
  match keyword_list with
  | [] => OK ""
  | _ =>
      grouped <- foldM group_step keyword_list [] ;;
      let keywords_grouped_by_first_char := sort_groups grouped in
      if Nat.eqb (List.length keywords_grouped_by_first_char) 1 then
        match keywords_grouped_by_first_char with
        | (_, word_list) :: _ => OK (String.concat "|" word_list)
        | [] => Raise IndexError
        end
      else
        OK (String.concat "|"
              (map (pattern_part keywords_grouped_by_first_char)
                   (sort Ascii.leb (dict_keys keywords_grouped_by_first_char))))
  end.

(* ================================================================== *)
(** ** [generate_module_patterns]                                       *)
(* ================================================================== *)

(** The region rule of a module, keyed on its PROG statement. *)
Definition module_begin_end_pattern (module_name : string) : string :=
  let module_name_lowercase := lower module_name in
"
  {
  begin: '(?i)^ *([\\$\\+-]?PROG)( +" ++ module_name ++ ")( .*)?$'
  beginCaptures:
    1: name: 'support.class." ++ module_name_lowercase ++ ".sofistik'
    2: name: 'support.class." ++ module_name_lowercase ++ ".sofistik'
    3:
      name: 'comment.line." ++ module_name_lowercase ++ ".sofistik'
      patterns: [{ include: 'text.todo' }]
  end: '(?i)(?=^ *[\\$\\+-]?PROG\\b)'
  name: 'module." ++ module_name_lowercase ++ ".sofistik'
  patterns: [
    {'include': '#" ++ module_name ++ "'}
    ]
  }".

Definition repository_entry_open (module_name : string) : string :=
"
  " ++ module_name ++ ": {
    patterns: [
      { include: '#preprocessorDefine' }".

(** The command token at line start or after a semicolon, followed by a
    semicolon, the end of the line or a space. *)
Definition command_token_pattern (command_name : string) : string :=
  "(?i)(?:^ *|; *)(" ++ command_name ++ ")(?=;|$| )".

(** The lookahead that closes the region of a command. *)
Definition command_end_pattern (commands_regex_pattern : string) : string :=
  "(?i)(?=(?:^ *|; *)(?:" ++ commands_regex_pattern ++ ")|;|^ *[\\$\\+-]?PROG\\b)".

Definition subkeyword_match_pattern (subkeywords_regex_pattern : string) : string :=
  "(?i)(?<!\\w)(" ++ subkeywords_regex_pattern ++ ")(?!\\w)".

(** The rule of a command that has sub-keywords. *)
Definition command_region_rule (command_name commands_regex_pattern
    subkeywords_regex_pattern : string) : string :=
"
      {
        begin: '" ++ command_token_pattern command_name ++ "'
        beginCaptures:
          1: name: 'keyword.control.sofistik'
        end: '" ++ command_end_pattern commands_regex_pattern ++ "'
        patterns: [
          {
            match: '" ++ subkeyword_match_pattern subkeywords_regex_pattern ++ "'
            name: 'entity.name.function.sofistik'
          }
          { include: '#normalText' }
        ]
      }".

(** The rule of a command without sub-keywords. *)
Definition command_match_rule (command_name : string) : string :=
"
      {
        match: '" ++ command_token_pattern command_name ++ "'
        captures:
          1: name: 'keyword.control.sofistik'
      }".

Definition repository_entry_close : string :=
"
      { include: '#normalText' }
    ]
  }".

(** The body of the loop over the commands of a module. *)
Definition command_rule (commands_regex_pattern : string)
    (command : value * list value) : result string :=
  let (command_name, command_subkeywords) := command in
  match command_subkeywords with
  | _ :: _ =>
      sorted_subkeywords <- sorted_longest_first command_subkeywords ;;
      subkeywords_regex_pattern <- optimize_pattern sorted_subkeywords ;;
      OK (command_region_rule (py_str command_name) commands_regex_pattern
            subkeywords_regex_pattern)
  | [] => OK (command_match_rule (py_str command_name))
  end.

(** The repository entry of one module. *)
Definition repository_entry (module_name : string) (module_commands : module_table)
    : result string :=
  let all_module_commands := dict_keys module_commands in
  sorted_commands <- sorted_longest_first all_module_commands ;;
  commands_regex_pattern <- optimize_pattern sorted_commands ;;
  rules <- mapM (command_rule commands_regex_pattern) module_commands ;;
  OK (repository_entry_open module_name ++ String.concat "" rules ++ repository_entry_close).

(** The body of the loop over the modules: the two output lists grow
    together, and the base module is passed over. *)
Definition module_step (acc : list string * list string)
    (m : string * module_table) : result (list string * list string) :=
  let (module_name, module_commands) := m in
  if String.eqb module_name "BASIC" then OK acc
  else
    entry <- repository_entry module_name module_commands ;;
    OK ((fst acc ++ [module_begin_end_pattern module_name])%list,
        (snd acc ++ [entry])%list).

Definition generate_module_patterns (keywords_data : keyword_table)
    : result (list string * list string) :=
  foldM module_step keywords_data ([], []).

(* ================================================================== *)
(** ** [generate_grammar]                                               *)
(* ================================================================== *)

(** [grammar_header]: metadata and the two fixed top-level patterns. *)
Definition grammar_header : string :=
"
# ***** References *****
# https://pulsar-edit.dev/docs/launch-manual/sections/core-hacking/#creating-a-legacy-textmate-grammar
# https://gist.github.com/savetheclocktower/c9607b97477d4817911e4f2f8db89679
# http://manual.macromates.com/en/language_grammars/
# https://github.com/kkos/oniguruma/blob/master/doc/RE
# https://regex101.com/

scopeName: 'source.sofistik'
name: 'SOFiSTiK'
fileTypes: ['dat','gra','grb','results']
patterns: [
  {
    match: '(?i)^@ *SOFiSTiK *(\\d{4})(-\\d\\d?)? *$'
    name: 'meta.version.sofistik'
  }
  {
    match: '(?i)^@ .+'
    name: 'meta.sofistik'
  }
  { include: '#normalText' }
".

(** [repository_base_patterns]: the fixed rule set shared by all modules. *)
Definition repository_base_patterns : string :=
"
]
repository:
  normalText: {
    patterns: [
      { include: '#textCommands' }
      { include: '#preprocessorDefine' }
      { include: '#preprocessorInclude' }
      { include: '#preprocessorApplyAndSys' }
      { include: '#preprocessorConditional' }
      { include: '#dollarVariableReference' }
      { include: '#textBlock' }
      { include: '#comments' }
      { include: '#stringDoubleQuoted' }
      { include: '#stringSingleQuoted' }
      { include: '#variableCommands' }
      { include: '#hashVariableReference' }
      { include: '#loopKeyword' }
      { include: '#controlFlowKeywords' }
      { include: '#expressionWithEquals' }
      { include: '#units' }
    ]
  }
  textCommands: {
    match: '(?i)(^ *)(HEAD|TXB|TXE)( .+?$| *$)'
    captures:
      1: name: 'support.type.sofistik'
      2: name: 'keyword.control.sofistik'
  }
  textBlock: {
    begin: '(?i)^[ ]*(<TEXT>|<TEXT,FILE=\\+?(.+)>)(?= |$)'
    beginCaptures:
      1: name: 'support.function.sofistik'
      2: name: 'string.other.sofistik'
    end: '(?i)^[ ]*(<\\/TEXT>)(?= |$)'
    endCaptures:
      1: name: 'support.function.sofistik'
    patterns: [
      { include: '#dollarVariableReference' }
      { include: '#hashVariableReference' }
      { include: '#editBlock' }
    ]
  }
  editBlock: {
    begin: '(?i)(<EDIT:.+?>)'
    beginCaptures:
      1: name: 'support.function.sofistik'
    end: '(?i)(<\\/EDIT>)'
    endCaptures:
      1: name: 'support.function.sofistik'
    patterns: [
      { include: '#hashVariableReference' }
      { include: '#dollarVariableReference' }
    ]
  }
  preprocessorDefine: {
    match: '(?i)^[ ]*(#DEFINE|#ENDDEF) *(.+?)?(?: *= *(.*))?$'
    captures:
      1: name: 'entity.name.section.sofistik'
      2: name: 'string.other.sofistik'
      3: patterns: [
        { include: '#dollarVariableReference' }
        { include: '#comments' }
        { include: '#stringDoubleQuoted' }
        { include: '#stringSingleQuoted' }
        { include: '#variableCommands' }
        { include: '#hashVariableReference' }
        { include: '#loopKeyword' }
        { include: '#controlFlowKeywords' }
        { include: '#expressionWithEquals' }
        { include: '#units' }
      ]
      4: name: 'entity.name.section.sofistik'
  }
  preprocessorInclude: {
    match: '(?i)^[ ]*(#INCLUDE) +(.+)'
    captures:
      1: name: 'entity.name.section.sofistik'
      2:
        name: 'string.other.sofistik'
        patterns: [{ include: '#dollarVariableReference' }]
  }
  preprocessorApplyAndSys: {
    match: '(?i)^[ ]*([\\$\\+-]?APPLY|[\\+-]?SYS)( +.+)'
    captures:
      1: name: 'support.class.sofistik'
      2:
        name: 'string.other.sofistik'
        patterns: [
          { include: '#dollarVariableReference' }
          { include: '#comments' }
        ]
  }
  preprocessorConditional: {
    match: '(?i)^[ ]*(#IF|#ELSE|#ENDIF)'
    captures:
      1: name: 'entity.name.section.sofistik'
  }
  dollarVariableReference: {
    match: '(;)?[ ]*(\\$\\(\\S+?\\))'
    captures:
      1: name: 'support.type.sofistik'
      2: name: 'variable.other.sofistik'
  }
  comments: {
    match: '(?i)(?:!|\\/\\/|\\$(?!PROG))(.*)'
    name: 'comment.line.sofistik'
    captures:
      1: patterns: [{ include: 'text.todo' }]
  }
  stringDoubleQuoted: {
    match: '\\" ++ dq ++ "(.*?)\\" ++ dq ++ "'
    name: 'string.double.sofistik'
    captures:
      1: patterns: [{ include: '#dollarVariableReference' }]
  }
  stringSingleQuoted: {
    match: " ++ dq ++ "\\'(.*?)\\'" ++ dq ++ "
    name: 'string.single.sofistik'
    captures:
      1: patterns: [{ include: '#dollarVariableReference' }]
  }
  variableCommands: {
    match: '(?i)(^|;)[ ]*(LET|STO|DEL|DBG|PRT)(?!\\w)'
    captures:
      1: name: 'support.type.sofistik'
      2: name: 'keyword.control.sofistik'
  }
  hashVariableReference: {
    match: '(#\\w+|#\\(\\w+(?:,\\d\\.\\d)?\\))'
    name: 'variable.other.sofistik'
  }
  loopKeyword: {
    match: '(?i)(^|;)[ ]*(LOOP)(?!\\w)'
    captures:
      1: name: 'support.type.sofistik'
      2: name: 'keyword.control.sofistik'
  }
  controlFlowKeywords: {
    match: '(?i)(^|;)[ ]*(IF|ELSEIF|ELSE|ENDIF|ENDLOOP|END)(?=\\s|$)'
    captures:
      1: name: 'support.type.sofistik'
      2: name: 'keyword.control.sofistik'
  }
  expressionWithEquals: {
    match: '(?<=\\s|^)(=\\S+)'
    captures:
      1:
        name: 'entity.name.function.sofistik'
        patterns: [{'include': '#hashVariableReference'}]
  }
  units: {
    match: '(?<=\\S)\\[.*?\\]'
    name: 'constant.other.sofistik'
  }
".

Definition generate_grammar (keywords_data : keyword_table) : result string :=
  patterns <- generate_module_patterns keywords_data ;;
  let (module_patterns, repository_patterns) := patterns in
  let grammar_with_modules := grammar_header ++ String.concat "" module_patterns in
  OK (grammar_with_modules ++ repository_base_patterns
        ++ String.concat "" repository_patterns).

(* ================================================================== *)
(** ** The emitted patterns as the matching engine reads them           *)
(* ================================================================== *)

(** The grammar hands every optimized pattern to a backtracking regex
    engine. The fragment of the pattern language that [optimize_pattern]
    writes itself is modelled: literal characters, [|] and the group
    [(?:...)]. *)
Inductive regex : Type :=
| Eps
| Chr (c : ascii)
| Cat (r1 r2 : regex)
| Alt (r1 r2 : regex).

(** The characters the pattern language gives a meaning of their own. *)
Definition is_meta (c : ascii) : bool :=
  existsb (Ascii.eqb c) (list_ascii_of_string "\^$.|?*+()[]{}").

Inductive token : Type :=
| TChar (c : ascii)
| TBar
| TOpen
| TClose.

(** Pattern text to tokens; [None] where the text leaves the fragment. *)
Fixpoint lex (p : string) : option (list token) :=
  match p with
  | EmptyString => Some []
  | String "|" p' => option_map (cons TBar) (lex p')
  | String ")" p' => option_map (cons TClose) (lex p')
  | String "(" (String "?" (String ":" p')) => option_map (cons TOpen) (lex p')
  | String c p' => if is_meta c then None else option_map (cons (TChar c)) (lex p')
  end.

Definition cat_list (rs : list regex) : regex := fold_right Cat Eps rs.

Fixpoint alt_list (r : regex) (rs : list regex) : regex :=
  match rs with
  | [] => r
  | r' :: rs' => Alt r (alt_list r' rs')
  end.

(** An open group while it is read: the alternatives that are complete
    and the atoms of the one being read. *)
Definition frame : Type := (list regex * list regex)%type.

Definition frame_close (f : frame) : regex :=
  match (fst f ++ [cat_list (snd f)])%list with
  | [] => Eps
  | r :: rs => alt_list r rs
  end.

Definition frame_push (f : frame) (r : regex) : frame := (fst f, (snd f ++ [r])%list).

Definition frame_bar (f : frame) : frame := ((fst f ++ [cat_list (snd f)])%list, []).

Fixpoint parse_tokens (ts : list token) (f : frame) (stack : list frame) : option regex :=
  match ts with
  | [] => match stack with [] => Some (frame_close f) | _ :: _ => None end
  | TChar c :: ts' => parse_tokens ts' (frame_push f (Chr c)) stack
  | TBar :: ts' => parse_tokens ts' (frame_bar f) stack
  | TOpen :: ts' => parse_tokens ts' ([], []) (f :: stack)
  | TClose :: ts' =>
      match stack with
      | [] => None
      | parent :: stack' => parse_tokens ts' (frame_push parent (frame_close f)) stack'
      end
  end.

Definition parse (p : string) : option regex :=
  match lex p with
  | Some ts => parse_tokens ts ([], []) []
  | None => None
  end.

(** Letters compare by their upper case under [(?i)]. *)
Definition char_eq (ci : bool) (c x : ascii) : bool :=
  if ci then Ascii.eqb (upper_char c) (upper_char x) else Ascii.eqb c x.

(** The ways the engine can match [r] at the start of the text, each as
    the text that is left, in the order in which backtracking tries
    them: the left alternative first. *)
Fixpoint run (ci : bool) (r : regex) (s : string) : list string :=
  match r with
  | Eps => [s]
  | Chr c =>
      match s with
      | String x s' => if char_eq ci c x then [s'] else []
      | EmptyString => []
      end
  | Cat r1 r2 => flat_map (run ci r2) (run ci r1 s)
  | Alt r1 r2 => (run ci r1 s ++ run ci r2 s)%list
  end.

Definition is_empty (s : string) : bool :=
  match s with EmptyString => true | String _ _ => false end.

(** The pattern matches the token as a whole: some way of matching
    leaves nothing. The outer [None] is a pattern outside the fragment. *)
Definition match_whole (ci : bool) (p s : string) : option bool :=
  option_map (fun r => existsb is_empty (run ci r s)) (parse p).

(** What the engine returns when it matches at the start of the text with
    nothing required after the pattern: the text of its first way. *)
Definition first_match (ci : bool) (p s : string) : option (option string) :=
  option_map
    (fun r => option_map
                (fun rest => substring 0 (String.length s - String.length rest) s)
                (hd_error (run ci r s)))
    (parse p).

(** A keyword that is safe to write into a pattern as it is. *)
Fixpoint no_meta (s : string) : bool :=
  match s with
  | EmptyString => true
  | String c s' => negb (is_meta c) && no_meta s'
  end.

Definition plain_keyword (s : string) : bool := negb (is_empty s) && no_meta s.

(** Equality of texts up to the case of letters. *)
Definition eq_ci (s t : string) : bool := String.eqb (upper s) (upper t).

(** Equality of texts as the matching mode sees it. *)
Definition eq_text (ci : bool) (s t : string) : bool :=
  if ci then eq_ci s t else String.eqb s t.

(** A keyword whose first character [upper] leaves as it is. *)
Definition case_stable (w : string) : bool :=
  match w with
  | String c _ => Ascii.eqb (upper_char c) c
  | EmptyString => true
  end.

(** The matching modes in which the uppercased key of a factored group
    stands for the first character of its keywords: without regard to
    case always, with regard to case when no keyword starts with a
    lowercase letter. *)
Definition mode_fits (ci : bool) (L : list string) : bool :=
  ci || forallb case_stable L.

(* ================================================================== *)
(** ** The optimizer as the specification words it                      *)
(* ================================================================== *)

(** The group key of a keyword: its first character, uppercased. *)
Definition group_key (w : string) : ascii :=
  match w with
  | String c _ => upper_char c
  | EmptyString => zero
  end.

(** The elements of a list, each once, in the order of first occurrence. *)
Fixpoint distinct (l : list ascii) : list ascii :=
  match l with
  | [] => []
  | c :: l' => c :: filter (fun x => negb (Ascii.eqb c x)) (distinct l')
  end.

(** The keys of the partition, in the order in which groups are emitted. *)
Definition group_keys (L : list string) : list ascii :=
  sort Ascii.leb (distinct (map group_key L)).

(** The group of a key: its keywords, longest first. *)
Definition keyword_group (L : list string) (c : ascii) : list string :=
  sort keyword_leb (filter (fun w => Ascii.eqb c (group_key w)) L).

(** The shared leading character, then the alternation of the suffixes. *)
Definition factored (c : ascii) (ws : list string) : string :=
  "(?:" ++ char_str c ++ "(?:" ++ String.concat "|" (map tail ws) ++ "))".

Definition group_alternative (L : list string) (c : ascii) : string :=
  match keyword_group L c with
  | [w] => w
  | ws => factored c ws
  end.

Definition optimize_spec (L : list string) : string :=
  match group_keys L with
  | [] => ""
  | [c] => String.concat "|" (keyword_group L c)
  | cs => String.concat "|" (map (group_alternative L) cs)
  end.

(* ================================================================== *)
(** ** The table loop as a fold over cells                              *)
(* ================================================================== *)

(** The state of the fold: the table so far and the command that the
    accumulator belongs to, if there is one. *)
Definition fold_state : Type := (module_table * option value)%type.

(** [d[k].append(v)] read on the table. *)
Fixpoint table_append (t : module_table) (k v : value) : module_table :=
  match t with
  | [] => []
  | (k', l) :: t' =>
      if value_eqb k' k then (k', (l ++ [v])%list) :: t'
      else (k', l) :: table_append t' k v
  end.

Definition fold_cell (s : fold_state) (column_index : nat) (c : cell) : fold_state :=
  if skipped c then s
  else
    match c with
    | None => s
    | Some v =>
        match column_index with
        | O => (dict_set value_eqb (fst s) v [], Some v)
        | S _ =>
            match snd s with
            | Some k => (table_append (fst s) k v, Some k)
            | None => s
            end
        end
    end.

Fixpoint fold_row (s : fold_state) (column_index : nat) (r : row) : fold_state :=
  match r with
  | [] => s
  | c :: r' => fold_row (fold_cell s column_index c) (S column_index) r'
  end.

Definition fold_sheet (s : fold_state) (ws : sheet) : fold_state :=
  fold_left (fun s r => fold_row s 0 r) ws s.

(** The reading of the specification, in which the first populated cell
    of a row, whatever its column, opens the command of that row. *)
Definition populated (r : row) : list value :=
  flat_map (fun c => if skipped c then [] else
                       match c with Some v => [v] | None => [] end) r.

Definition row_first_cell_opens (t : module_table) (r : row) : module_table :=
  match populated r with
  | [] => t
  | command :: subkeywords => dict_set value_eqb t command subkeywords
  end.

Definition table_first_cell_opens (ws : sheet) : module_table :=
  fold_left row_first_cell_opens ws [].

(** A populated cell in a later column with no populated cell in the
    first column before it. *)
Definition row_has_command (r : row) : bool :=
  match r with
  | c :: _ => negb (skipped c)
  | [] => false
  end.

Definition row_has_subkeyword (r : row) : bool :=
  match r with
  | _ :: r' => existsb (fun c => negb (skipped c)) r'
  | [] => false
  end.

Fixpoint subkeyword_before_command (ws : sheet) : bool :=
  match ws with
  | [] => false
  | r :: ws' =>
      if row_has_command r then false
      else row_has_subkeyword r || subkeyword_before_command ws'
  end.

(* ================================================================== *)
(** ** The module loop of the inline [build.py]                         *)
(* ================================================================== *)

Module Inline.

(** A [set] of values read out in the order the elements came in; the
    sort below fixes the order that is used. *)
Fixpoint set_add_all (seen : list value) (l : list value) : list value :=
  match l with
  | [] => seen
  | v :: l' =>
      if existsb (value_eqb v) seen then set_add_all seen l'
      else set_add_all (seen ++ [v])%list l'
  end.

Definition text1_rule (mname : string) : string :=
"
  {
  begin: '(?i)^ *([\\$\\+-]?PROG)( +" ++ mname ++ ")( .*)?$'
  beginCaptures:
    1: name: 'support.class." ++ lower mname ++ ".sofistik'
    2: name: 'support.class." ++ lower mname ++ ".sofistik'
    3:
      name: 'comment.line." ++ lower mname ++ ".sofistik'
      patterns: [{ include: 'text.todo' }]
  end: '(?i)(?=^ *([\\$\\+-]?PROG))'
  name: 'module." ++ lower mname ++ ".sofistik'
  patterns: [
    {'include': '#" ++ mname ++ "'}
    ]
  }".

Definition text2_rule (mname cmds_pattern subcmds_pattern : string) : string :=
"
  " ++ mname ++ ": {
    patterns: [
      { include: '#defA' }
      {
        match: '(?i)(?:^ *|; *)(" ++ cmds_pattern ++ ")(?=;|$| )'
        captures:
          1: name: 'keyword.control.sofistik'
      }
      {
        match: '(?i)(?<!\\w)(" ++ subcmds_pattern ++ ")(?!\\w)'
        name: 'entity.name.function.sofistik'
      }
      { include: '#normalText' }
    ]
  }".

Definition module_step (acc : list string * list (list string))
    (m : string * module_table) : result (list string * list (list string)) :=
  let (mname, module) := m in
  if String.eqb mname "BASIC" then OK acc
  else
    let all_commands := set_add_all [] (dict_keys module) in
    let all_subkeywords := set_add_all [] (flat_map snd module) in
    sorted_commands <- mapM as_str all_commands ;;
    sorted_subkeywords <- mapM as_str all_subkeywords ;;
    let cmds_pattern := String.concat "|" (sort keyword_leb sorted_commands) in
    let subcmds_pattern := String.concat "|" (sort keyword_leb sorted_subkeywords) in
    OK ((fst acc ++ [text1_rule mname])%list,
        (snd acc ++ [[text2_rule mname cmds_pattern subcmds_pattern]])%list).

Definition module_rules (data : keyword_table)
    : result (list string * list (list string)) :=
  foldM module_step data ([], []).

End Inline.

(* ================================================================== *)
(** ** The grouping loop on strings                                     *)
(* ================================================================== *)

(** Membership among the keys of the groups. *)
Definition key_in (c : ascii) (l : list ascii) : bool := existsb (Ascii.eqb c) l.

(** The grouping loop on keywords that are all text and not empty. *)
Definition grouped (L : list string) (g : dict ascii (list string))
    : dict ascii (list string) :=
  fold_left (fun g w => group_append g (group_key w) w) L g.

(* ================================================================== *)
(** ** The shape of an optimized pattern                                *)
(* ================================================================== *)

(** One alternative of the pattern: a keyword as it is, or a leading
    character with the alternation of the suffixes. *)
Inductive part : Type :=
| PWord (w : string)
| PGroup (c : ascii) (suffixes : list string).

Definition render_part (p : part) : string :=
  match p with
  | PWord w => w
  | PGroup c suffixes =>
      "(?:" ++ char_str c ++ "(?:" ++ String.concat "|" suffixes ++ "))"
  end.

Definition group_part (L : list string) (c : ascii) : part :=
  match keyword_group L c with
  | [w] => PWord w
  | ws => PGroup c (map tail ws)
  end.

Definition parts_of (L : list string) : list part :=
  match group_keys L with
  | [c] => map PWord (keyword_group L c)
  | cs => map (group_part L) cs
  end.

Definition word_tokens (w : string) : list token :=
  map TChar (list_ascii_of_string w).

Fixpoint alt_tokens {A} (tokens_of : A -> list token) (l : list A) : list token :=
  match l with
  | [] => []
  | [x] => tokens_of x
  | x :: l' => (tokens_of x ++ TBar :: alt_tokens tokens_of l')%list
  end.

Definition part_tokens (p : part) : list token :=
  match p with
  | PWord w => word_tokens w
  | PGroup c suffixes =>
      (TOpen :: TChar c :: TOpen :: alt_tokens word_tokens suffixes ++ [TClose; TClose])%list
  end.

Definition word_atoms (w : string) : list regex := map Chr (list_ascii_of_string w).

Definition word_regex (w : string) : regex := cat_list (word_atoms w).

Definition alts_regex (rs : list regex) : regex :=
  match rs with
  | [] => Eps
  | r :: rs' => alt_list r rs'
  end.

Definition part_atoms (p : part) : list regex :=
  match p with
  | PWord w => word_atoms w
  | PGroup c suffixes =>
      [alts_regex [cat_list [Chr c; alts_regex (map word_regex suffixes)]]]
  end.

Definition part_regex (p : part) : regex := cat_list (part_atoms p).

Definition part_plain (p : part) : bool :=
  match p with
  | PWord w => no_meta w
  | PGroup c suffixes => negb (is_meta c) && forallb no_meta suffixes
  end.

(** The text left when [w] is taken off the front of [s]. *)
Fixpoint strip (ci : bool) (w s : string) : option string :=
  match w, s with
  | EmptyString, _ => Some s
  | String c w', String x s' => if char_eq ci c x then strip ci w' s' else None
  | String _ _, EmptyString => None
  end.

(** [lexes s ts]: wherever the text [s] stands in a pattern, the lexer
    reads it as the tokens [ts]. *)
Definition lexes (s : string) (ts : list token) : Prop :=
  forall p, lex (s ++ p) = option_map (app ts) (lex p).

(** [pushes ts rs]: wherever the tokens [ts] stand, the parser adds the
    atoms [rs] to the sequence it is reading. *)
Definition pushes (ts : list token) (rs : list regex) : Prop :=
  forall rest f stack,
    parse_tokens (ts ++ rest) f stack
    = parse_tokens rest (fst f, (snd f ++ rs)%list) stack.

(* ================================================================== *)
(** ** The matches of a part                                            *)
(* ================================================================== *)

Definition option_list {A} (o : option A) : list A :=
  match o with
  | Some x => [x]
  | None => []
  end.

(** The ways a part matches at the start of a text. *)
Definition run_part (ci : bool) (p : part) (s : string) : list string :=
  match p with
  | PWord w => option_list (strip ci w s)
  | PGroup c suffixes =>
      match s with
      | String x s' =>
          if char_eq ci c x
          then flat_map (fun w => option_list (strip ci w s')) suffixes
          else []
      | EmptyString => []
      end
  end.

(* ================================================================== *)
(** ** The statements about the optimized pattern, as the
       specification words them                                         *)
(* ================================================================== *)

(** The tokens the pattern of [L] matches as a whole are the strings of
    [L], neither more nor fewer. *)
Definition matches_exactly (ci : bool) (L : list string) : Prop :=
  exists p, optimize_pattern (map VStr L) = OK p
            /\ forall s, match_whole ci p s = Some true <-> In s L.

(** On the text [K'] the pattern of [L] returns [K'] in full. *)
Definition matched_in_full (ci : bool) (L : list string) (K' : string) : Prop :=
  exists p, optimize_pattern (map VStr L) = OK p
            /\ first_match ci p K' = Some (Some K').

(* ================================================================== *)
(** ** The store of the table loop read as a fold state                 *)
(* ================================================================== *)

(** The command whose list [current_command_subkeywords] is, if the
    list is bound in the table at all. *)
Definition current_command (st : loop_state) : option value :=
  option_map fst
    (find (fun ka => Nat.eqb (snd ka) (current_command_subkeywords st))
          (module_keywords st)).

Definition fold_view (st : loop_state) : fold_state :=
  (read_module st, current_command st).

(** What the loop keeps true of its store: the addresses in use are
    allocated, and no two commands share a key or a list. *)
Record store_ok (st : loop_state) : Prop := mkStoreOk {
  ok_current : current_command_subkeywords st < List.length (objects st);
  ok_bound : forall a, In a (map snd (module_keywords st)) ->
                       a < List.length (objects st);
  ok_lists : NoDup (map snd (module_keywords st));
  ok_keys : NoDup (map fst (module_keywords st))
}.

(** The rows from the first one that has a command cell. *)
Fixpoint from_first_command (ws : sheet) : sheet :=
  match ws with
  | [] => []
  | r :: ws' => if row_has_command r then ws else from_first_command ws'
  end.

(* ================================================================== *)
(** ** The rules of a well-formed table, written out                    *)
(* ================================================================== *)

(** A keyword of the data model: text that is not empty. *)
Definition is_keyword (v : value) : bool :=
  match v with
  | VStr s => negb (is_empty s)
  | VInt _ => false
  end.

Definition wf_module (m : module_table) : bool :=
  forallb (fun cmd => is_keyword (fst cmd) && forallb is_keyword (snd cmd)) m.

(** The modules that get rules: all but the base module. *)
Definition scoped_modules (t : keyword_table) : keyword_table :=
  filter (fun m => negb (String.eqb (fst m) "BASIC")) t.

(** A table whose modules, the base module apart, hold keywords only. *)
Definition wf_table (t : keyword_table) : bool :=
  forallb (fun m => wf_module (snd m)) (scoped_modules t).

(** The optimized pattern of a list of keywords, longest first. *)
Definition keywords_pattern (vs : list value) : string :=
  optimize_spec (sort keyword_leb (map py_str vs)).

(** The rule of one command: a region when it has sub-keywords, a
    single-line match when it has none. *)
Definition command_rule_text (commands_regex_pattern : string)
    (command : value * list value) : string :=
  match snd command with
  | [] => command_match_rule (py_str (fst command))
  | _ :: _ =>
      command_region_rule (py_str (fst command)) commands_regex_pattern
        (keywords_pattern (snd command))
  end.

Definition repository_entry_text (m : string * module_table) : string :=
  repository_entry_open (fst m)
  ++ String.concat ""
       (map (command_rule_text (keywords_pattern (dict_keys (snd m)))) (snd m))
  ++ repository_entry_close.

(* ================================================================== *)
(** ** The inline entry and the grammar file                            *)
(* ================================================================== *)

(** The entry of a module in the inline [build.py]: one rule for all its
    commands and one for all its sub-keywords. *)
Definition inline_entry (m : string * module_table) : list string :=
  [Inline.text2_rule (fst m)
     (String.concat "|"
        (sort keyword_leb (map py_str (Inline.set_add_all [] (dict_keys (snd m))))))
     (String.concat "|"
        (sort keyword_leb (map py_str (Inline.set_add_all [] (flat_map snd (snd m))))))].

(** What [main] writes to the grammar file: [complete_grammar[1:] + '\n']. *)
Definition newline : string := String (ascii_of_nat 10) EmptyString.

Definition grammar_file_text (keywords_data : keyword_table) : result string :=
  complete_grammar <- generate_grammar keywords_data ;;
  OK (tail complete_grammar ++ newline).

(* ================================================================== *)
(** ** Where the entries of a table come from                           *)
(* ================================================================== *)

(** What the fold keeps true of the table: the commands are the
    populated cells met in the first column, and a sub-keyword is a
    populated cell met in a later column. *)
Definition table_from (A B : list value) (s : fold_state) : Prop :=
  (forall k, In k (dict_keys (fst s)) <-> In k A)
  /\ (forall k subs v, In (k, subs) (fst s) -> In v subs -> In v B).


(* ================================================================== *)
(** ** What raises, and what the loader never stores                    *)
(* ================================================================== *)

(** The exception of a value that is not a keyword. *)
Definition exception_of (keyword : value) : exn :=
  match keyword with
  | VInt _ => TypeError
  | VStr _ => IndexError
  end.

(** A table without empty text, as the loader leaves it. *)
Definition populated_module (m : module_table) : Prop :=
  forall k subs, In (k, subs) m ->
    skipped (Some k) = false /\ forall v, In v subs -> skipped (Some v) = false.


(* ================================================================== *)
(** ** The inline rule for a given reading order of its sets            *)
(* ================================================================== *)

(** The second rule of a module in the inline [build.py] when iterating
    [all_commands] and [all_subkeywords] yields the elements in the
    order of the two lists: [sorted(list(s), key=...)] and the join. *)
Definition rule_in_order (mname : string) (all_commands all_subkeywords : list value)
    : result string :=
  sorted_commands <- mapM as_str all_commands ;;
  sorted_subkeywords <- mapM as_str all_subkeywords ;;
  OK (Inline.text2_rule mname
        (String.concat "|" (sort keyword_leb sorted_commands))
        (String.concat "|" (sort keyword_leb sorted_subkeywords))).

(** A value that is text. *)
Definition is_text (v : value) : bool :=
  match v with
  | VStr _ => true
  | VInt _ => false
  end.


(* ================================================================== *)
(** ** [main]                                                           *)
(* ================================================================== *)

(** What [main] acts on: the two files it writes, [None] while a file is
    as it was before the run, and the lines printed so far. *)
Record world : Type := mkWorld {
  keywords_json : option string;
  grammar_cson : option string;
  printed : list string
}.

Definition print_line (line : string) (w : world) : world :=
  mkWorld (keywords_json w) (grammar_cson w) (printed w ++ [line])%list.

(** [f.write(text)] on the grammar file opened with ['w']. *)
Definition write_grammar (text : string) (w : world) : world :=
  mkWorld (keywords_json w) (Some text) (printed w).

(** [str(n)] of a count inside an f-string. *)
Definition str_of_nat (n : nat) : string := NilZero.string_of_uint (Nat.to_uint n).

Section Main.
(** The text that [json.dump(keywords_data, json_file, indent=2)]
    writes. *)
Variable json_dump : keyword_table -> string.

Definition save_keywords_json (keywords_data : keyword_table) (w : world) : world :=
  mkWorld (Some (json_dump keywords_data)) (grammar_cson w) (printed w).

(** [main], on the workbook that [load_keywords] opens: the world it
    leaves and whether it returns or raises. *)
Definition main (wb : workbook) (w : world) : world * result unit :=
  let w := print_line "Loading keywords from Excel..." w in
  let keywords_data := load_keywords wb in
  let w := print_line "Saving keywords.json..." w in
  let w := save_keywords_json keywords_data w in
  let w := print_line "Generating optimized grammar with properly scoped subkeywords..." w in
  match generate_grammar keywords_data with
  | Raise e => (w, Raise e)
  | OK complete_grammar =>
      let w := print_line "Writing grammar file..." w in
      let w := write_grammar (tail complete_grammar ++ newline) w in
      let w := print_line "Build complete!" w in
      let w := print_line ("- Generated grammar for "
                      ++ str_of_nat (List.length keywords_data) ++ " modules") w in
      let total_command_count :=
        list_sum (map (fun module => List.length (snd module)) keywords_data) in
      let w := print_line ("- Total commands: " ++ str_of_nat total_command_count) w in
      (w, OK tt)
  end.
End Main.


(* ================================================================== *)
(** ** The table of the inline [build.py]                               *)
(* ================================================================== *)

(** [for i, key in enumerate(row)] *)
Fixpoint row_loop_inline (st : loop_state) (i : nat) (r : row) : loop_state :=
  match r with
  | [] => st
  | key :: r' => row_loop_inline (cell_step_inline st i key) (S i) r'
  end.

(** [module = data[mname] = {}], [command = []] and the loop over the
    rows of the sheet. *)
Definition load_sheet_inline (ws : sheet) : module_table :=
  read_module (fold_left (fun st r => row_loop_inline st 0 r) ws sheet_init).

(** [data] after the loop over [wb.sheetnames]. *)
Definition load_inline (wb : workbook) : keyword_table :=
  fold_left (fun data '(mname, ws) =>
               dict_set String.eqb data mname (load_sheet_inline ws))
            wb [].

(** A table whose modules, the base module apart, hold text only, empty
    or not. *)
Definition text_module (m : module_table) : bool :=
  forallb (fun cmd => is_text (fst cmd) && forallb is_text (snd cmd)) m.

Definition text_table (t : keyword_table) : bool :=
  forallb (fun m => text_module (snd m)) (scoped_modules t).


(* ================================================================== *)
(** * Properties                                                        *)
(* ================================================================== *)

Lemma value_eqb_spec a b : reflect (a = b) (value_eqb a b).
Proof.
  destruct a as [s|n], b as [t|m]; simpl; try (constructor; discriminate).
  - destruct (String.eqb_spec s t); constructor; congruence.
  - destruct (Z.eqb_spec n m); constructor; congruence.
Qed.

Lemma value_eqb_refl a : value_eqb a a = true.
Proof. destruct (value_eqb_spec a a); congruence. Qed.

Example load_sheet_example :
  load_sheet [[Some (VStr "CMD"); Some (VStr "X"); None; Some (VStr "Y")];
              [Some (VStr "END"); Some (VStr "")];
              [None; Some (VStr "Z")]]
  = [(VStr "CMD", [VStr "X"; VStr "Y"]); (VStr "END", [VStr "Z"])].
Proof. reflexivity. Qed.

(* ------------------------------------------------------------------ *)
(** ** Sorting and grouping                                             *)
(* ------------------------------------------------------------------ *)

Section SortFacts.
Variable A : Type.
Variable leb : A -> A -> bool.

Lemma insert_perm x l : Permutation (x :: l) (insert leb x l).
Proof.
  induction l as [|y l IH]; simpl; [apply Permutation_refl|].
  destruct (leb x y); [apply Permutation_refl|].
  eapply perm_trans; [apply perm_swap|]. now apply perm_skip.
Qed.

Lemma sort_perm l : Permutation l (sort leb l).
Proof.
  induction l as [|x l IH]; simpl; [constructor|].
  eapply perm_trans; [apply perm_skip, IH|]. apply insert_perm.
Qed.

Lemma sort_In x l : In x (sort leb l) <-> In x l.
Proof.
  split; intros H.
  - eapply Permutation_in; [apply Permutation_sym, sort_perm | exact H].
  - eapply Permutation_in; [apply sort_perm | exact H].
Qed.

Lemma sort_length l : List.length (sort leb l) = List.length l.
Proof. symmetry. apply Permutation_length, sort_perm. Qed.

Hypothesis leb_total : forall x y, leb x y = true \/ leb y x = true.

Lemma insert_sorted x l :
  Sorted (fun a b => leb a b = true) l ->
  Sorted (fun a b => leb a b = true) (insert leb x l).
Proof.
  induction 1 as [|y l Hs IH Hhd]; simpl.
  - repeat constructor.
  - destruct (leb x y) eqn:E.
    + constructor; [constructor; assumption | constructor; exact E].
    + constructor; [exact IH|].
      destruct l as [|z l]; simpl.
      * constructor. destruct (leb_total x y); congruence.
      * destruct (leb x z); constructor.
        -- destruct (leb_total x y); congruence.
        -- now inversion Hhd.
Qed.

Lemma sort_sorted l : Sorted (fun a b => leb a b = true) (sort leb l).
Proof.
  induction l as [|x l IH]; simpl; [constructor | now apply insert_sorted].
Qed.
End SortFacts.

Lemma keyword_leb_total x y : keyword_leb x y = true \/ keyword_leb y x = true.
Proof.
  unfold keyword_leb.
  rewrite (Nat.eqb_sym (String.length y)).
  destruct (Nat.eqb_spec (String.length x) (String.length y)) as [E|E].
  - apply String.leb_total.
  - destruct (Nat.ltb_spec (String.length y) (String.length x));
      destruct (Nat.ltb_spec (String.length x) (String.length y)); auto; lia.
Qed.

Lemma keyword_leb_length x y :
  keyword_leb x y = true -> String.length y <= String.length x.
Proof.
  unfold keyword_leb.
  destruct (Nat.eqb_spec (String.length x) (String.length y)) as [E|E]; [lia|].
  intros H. apply Nat.ltb_lt in H. lia.
Qed.

(** A sorted group lists its keywords by descending length. *)
Lemma sort_keywords_by_length l :
  StronglySorted (fun a b => String.length b <= String.length a) (sort keyword_leb l).
Proof.
  apply Sorted_StronglySorted.
  - intros a b c Hab Hbc. lia.
  - pose proof (sort_sorted _ keyword_leb keyword_leb_total l) as Hs.
    induction Hs as [|x l' Hs IH Hhd]; constructor; [exact IH|].
    destruct Hhd; constructor. now apply keyword_leb_length.
Qed.

(* ------------------------------------------------------------------ *)
(** ** The sorted list is unique                                        *)
(* ------------------------------------------------------------------ *)

(** Whatever algorithm sorts, and in whatever order a [set] hands over
    its elements, the sorted list is the same: the order of the key is
    total and antisymmetric. *)
Section SortUnique.
Variable A : Type.
Variable leb : A -> A -> bool.
Hypothesis leb_total : forall x y, leb x y = true \/ leb y x = true.
Hypothesis leb_trans : forall x y z, leb x y = true -> leb y z = true -> leb x z = true.
Hypothesis leb_antisym : forall x y, leb x y = true -> leb y x = true -> x = y.

Lemma leb_refl x : leb x x = true.
Proof. destruct (leb_total x x); assumption. Qed.

Lemma sorted_unique l l' :
  StronglySorted (fun a b => leb a b = true) l ->
  StronglySorted (fun a b => leb a b = true) l' ->
  Permutation l l' -> l = l'.
Proof.
  revert l'. induction l as [|x l IH]; intros l' Hs Hs' Hp.
  - now apply Permutation_nil in Hp.
  - destruct l' as [|y l']; [apply Permutation_sym, Permutation_nil in Hp; discriminate|].
    apply StronglySorted_inv in Hs as [Hs Hx], Hs' as [Hs' Hy].
    rewrite Forall_forall in Hx, Hy.
    assert (Hxy : x = y).
    { apply leb_antisym.
      - assert (Hin : In y (x :: l)).
        { eapply Permutation_in; [apply Permutation_sym, Hp | now left]. }
        destruct Hin as [->|Hin]; [apply leb_refl | now apply Hx].
      - assert (Hin : In x (y :: l')).
        { eapply Permutation_in; [apply Hp | now left]. }
        destruct Hin as [->|Hin]; [apply leb_refl | now apply Hy]. }
    subst y. f_equal. apply IH; auto. now apply Permutation_cons_inv in Hp.
Qed.

Lemma sort_strongly_sorted l : StronglySorted (fun a b => leb a b = true) (sort leb l).
Proof.
  apply Sorted_StronglySorted.
  - intros x y z. apply leb_trans.
  - now apply sort_sorted.
Qed.

Lemma sort_permutation_invariant l l' :
  Permutation l l' -> sort leb l = sort leb l'.
Proof.
  intros Hp. apply sorted_unique; try apply sort_strongly_sorted.
  eapply perm_trans; [apply Permutation_sym, sort_perm|].
  eapply perm_trans; [exact Hp | apply sort_perm].
Qed.
End SortUnique.

Lemma ascii_compare_cases a b :
  CompareSpec (a = b) (N_of_ascii a < N_of_ascii b)%N (N_of_ascii b < N_of_ascii a)%N
    (Ascii.compare a b).
Proof.
  unfold Ascii.compare.
  destruct (N.compare_spec (N_of_ascii a) (N_of_ascii b)) as [H|H|H]; constructor; auto.
  apply (f_equal ascii_of_N) in H. now rewrite !ascii_N_embedding in H.
Qed.

Lemma string_leb_trans a b c :
  String.leb a b = true -> String.leb b c = true -> String.leb a c = true.
Proof.
  unfold String.leb. revert b c.
  induction a as [|x a IH]; intros [|y b] [|z c]; simpl; auto; try discriminate.
  destruct (ascii_compare_cases x y), (ascii_compare_cases y z),
    (ascii_compare_cases x z); subst; auto; try discriminate; try lia.
  apply IH.
Qed.

Lemma keyword_leb_trans x y z :
  keyword_leb x y = true -> keyword_leb y z = true -> keyword_leb x z = true.
Proof.
  unfold keyword_leb.
  destruct (Nat.eqb_spec (String.length x) (String.length y)) as [E1|E1];
    destruct (Nat.eqb_spec (String.length y) (String.length z)) as [E2|E2];
    destruct (Nat.eqb_spec (String.length x) (String.length z)) as [E3|E3];
    rewrite ?Nat.ltb_lt; try lia; try apply string_leb_trans.
  all: intros; try lia.
Qed.

Lemma keyword_leb_antisym x y :
  keyword_leb x y = true -> keyword_leb y x = true -> x = y.
Proof.
  unfold keyword_leb. rewrite (Nat.eqb_sym (String.length y)).
  destruct (Nat.eqb_spec (String.length x) (String.length y)) as [E|E].
  - apply String.leb_antisym.
  - rewrite !Nat.ltb_lt. lia.
Qed.

(** Any list that holds the keywords of [l] longest first, ties by code
    points, is the list [sort keyword_leb l]. *)
Lemma sorted_keywords_unique l l' :
  Permutation l l' ->
  StronglySorted (fun a b => keyword_leb a b = true) l' ->
  l' = sort keyword_leb l.
Proof.
  intros Hp Hs. apply (sorted_unique _ keyword_leb keyword_leb_total keyword_leb_antisym).
  - exact Hs.
  - apply sort_strongly_sorted; [apply keyword_leb_total | apply keyword_leb_trans].
  - eapply perm_trans; [apply Permutation_sym, Hp | apply sort_perm].
Qed.

(** The order in which a [set] is read does not show in the sorted list. *)
Lemma sort_keywords_any_order l l' :
  Permutation l l' -> sort keyword_leb l = sort keyword_leb l'.
Proof.
  apply sort_permutation_invariant;
    [apply keyword_leb_total | apply keyword_leb_trans | apply keyword_leb_antisym].
Qed.

(* ------------------------------------------------------------------ *)
(** ** The grouping loop of [optimize_pattern]                          *)
(* ------------------------------------------------------------------ *)

Lemma ascii_eqb_sym a b : Ascii.eqb a b = Ascii.eqb b a.
Proof.
  destruct (Ascii.eqb_spec a b), (Ascii.eqb_spec b a); congruence.
Qed.

Lemma groups_get_set (g : dict ascii (list string)) k v c :
  dict_get Ascii.eqb (dict_set Ascii.eqb g k v) c
  = if Ascii.eqb k c then Some v else dict_get Ascii.eqb g c.
Proof.
  induction g as [|[k' v'] g IH]; simpl.
  - reflexivity.
  - destruct (Ascii.eqb_spec k' k) as [->|Hk]; simpl.
    + destruct (Ascii.eqb k c); reflexivity.
    + rewrite IH. destruct (Ascii.eqb_spec k' c) as [->|Hc]; [|reflexivity].
      destruct (Ascii.eqb_spec k c); congruence.
Qed.

Lemma groups_keys_set (g : dict ascii (list string)) k v :
  dict_keys (dict_set Ascii.eqb g k v)
  = if key_in k (dict_keys g) then dict_keys g else (dict_keys g ++ [k])%list.
Proof.
  induction g as [|[k' v'] g IH]; simpl; [reflexivity|].
  rewrite (ascii_eqb_sym k k').
  destruct (Ascii.eqb k' k); simpl; [reflexivity|].
  unfold dict_keys in *. rewrite IH. unfold key_in.
  destruct (existsb (Ascii.eqb k) (map fst g)); reflexivity.
Qed.

Lemma group_of_append g k w c :
  group_of (group_append g k w) c
  = (group_of g c ++ (if Ascii.eqb k c then [w] else []))%list.
Proof.
  unfold group_of, group_append.
  destruct (dict_get Ascii.eqb g k) as [wl|] eqn:Hk; rewrite groups_get_set;
    destruct (Ascii.eqb_spec k c) as [->|Hc].
  - now rewrite Hk.
  - now rewrite app_nil_r.
  - now rewrite Hk.
  - now rewrite app_nil_r.
Qed.

Lemma group_append_keys g k w :
  dict_keys (group_append g k w)
  = if key_in k (dict_keys g) then dict_keys g else (dict_keys g ++ [k])%list.
Proof.
  unfold group_append.
  destruct (dict_get Ascii.eqb g k); apply groups_keys_set.
Qed.

Lemma group_loop_strings L g :
  forallb (fun w => negb (is_empty w)) L = true ->
  foldM group_step (map VStr L) g = OK (grouped L g).
Proof.
  revert g. induction L as [|w L IH]; intros g H; simpl in *; [reflexivity|].
  apply andb_true_iff in H as [Hw HL].
  destruct w as [|c w]; [discriminate|]. simpl.
  now apply IH.
Qed.

Lemma grouped_group_of L g c :
  group_of (grouped L g) c
  = (group_of g c ++ filter (fun w => Ascii.eqb c (group_key w)) L)%list.
Proof.
  revert g. induction L as [|w L IH]; intros g; simpl.
  - now rewrite app_nil_r.
  - unfold grouped in *. simpl. rewrite IH, group_of_append, <- app_assoc.
    rewrite (ascii_eqb_sym c). destruct (Ascii.eqb (group_key w) c); reflexivity.
Qed.

Lemma filter_filter {A} (f h : A -> bool) l :
  filter f (filter h l) = filter (fun x => h x && f x) l.
Proof.
  induction l as [|x l IH]; simpl; [reflexivity|].
  destruct (h x); simpl; [destruct (f x)|]; now rewrite IH.
Qed.

Lemma grouped_keys L g :
  dict_keys (grouped L g)
  = (dict_keys g
     ++ filter (fun x => negb (key_in x (dict_keys g))) (distinct (map group_key L)))%list.
Proof.
  revert g. induction L as [|w L IH]; intros g; simpl.
  - now rewrite app_nil_r.
  - unfold grouped in *. simpl. rewrite IH, group_append_keys.
    set (k := group_key w). set (D := distinct (map group_key L)).
    destruct (key_in k (dict_keys g)) eqn:Hk; simpl.
    + f_equal. rewrite filter_filter. apply filter_ext. intros x.
      destruct (Ascii.eqb_spec k x) as [<-|Hx]; simpl; [now rewrite Hk|reflexivity].
    + rewrite <- app_assoc. simpl. do 2 f_equal.
      rewrite filter_filter. apply filter_ext. intros x.
      unfold key_in. rewrite existsb_app. simpl. rewrite orb_false_r.
      rewrite (ascii_eqb_sym x k), negb_orb. apply andb_comm.
Qed.

Lemma filter_all {A} (f : A -> bool) l :
  (forall x, In x l -> f x = true) -> filter f l = l.
Proof.
  induction l as [|x l IH]; intros H; simpl; [reflexivity|].
  rewrite (H x (or_introl eq_refl)). f_equal. apply IH. intros y Hy. apply H. now right.
Qed.

Lemma grouped_keys_nil L : dict_keys (grouped L []) = distinct (map group_key L).
Proof. rewrite grouped_keys. simpl. now apply filter_all. Qed.

Lemma sort_groups_keys g : dict_keys (sort_groups g) = dict_keys g.
Proof.
  unfold sort_groups, dict_keys. rewrite map_map. reflexivity.
Qed.

Lemma sort_groups_group_of g c :
  group_of (sort_groups g) c = sort keyword_leb (group_of g c).
Proof.
  unfold group_of. induction g as [|[k ws] g IH]; simpl; [reflexivity|].
  destruct (Ascii.eqb k c); [reflexivity | exact IH].
Qed.

Lemma grouped_sorted_group L c :
  group_of (sort_groups (grouped L [])) c = keyword_group L c.
Proof.
  rewrite sort_groups_group_of, grouped_group_of. reflexivity.
Qed.

Lemma pattern_part_alternative L c :
  pattern_part (sort_groups (grouped L [])) c = group_alternative L c.
Proof.
  unfold pattern_part, group_alternative. rewrite grouped_sorted_group.
  destruct (keyword_group L c) as [|w [|w' ws]]; reflexivity.
Qed.

(** The code and the wording agree on every list of non-empty keywords. *)
Lemma optimize_pattern_strings L :
  forallb (fun w => negb (is_empty w)) L = true ->
  optimize_pattern (map VStr L) = OK (optimize_spec L).
Proof.
  intros H. destruct L as [|w0 L0]; [reflexivity|].
  set (L := w0 :: L0) in *.
  unfold optimize_pattern. change (map VStr L) with (VStr w0 :: map VStr L0).
  cbv iota. change (VStr w0 :: map VStr L0) with (map VStr L).
  rewrite (group_loop_strings L [] H). cbn [bind].
  unfold optimize_spec, group_keys.
  rewrite <- grouped_keys_nil, <- (sort_groups_keys (grouped L [])).
  pose proof (grouped_sorted_group L) as Hgrp.
  pose proof (pattern_part_alternative L) as Hpart.
  pose proof (sort_length _ Ascii.leb (dict_keys (sort_groups (grouped L [])))) as Hlen.
  destruct (sort_groups (grouped L [])) as [|[c ws] [|b g]] eqn:Eg.
  - reflexivity.
  - simpl. f_equal. f_equal. rewrite <- Hgrp. unfold group_of. simpl.
    now rewrite Ascii.eqb_refl.
  - cbn [List.length Nat.eqb].
    destruct (sort Ascii.leb (dict_keys ((c, ws) :: b :: g))) as [|c1 [|c2 cs]] eqn:Es;
      try (simpl in Hlen; discriminate).
    f_equal. f_equal. apply map_ext. exact Hpart.
Qed.

(* ------------------------------------------------------------------ *)
(** ** Reading an optimized pattern                                     *)
(* ------------------------------------------------------------------ *)

Lemma string_app_assoc (a b c : string) : (a ++ b) ++ c = a ++ (b ++ c).
Proof. induction a as [|x a IH]; simpl; [reflexivity | now rewrite IH]. Qed.

Lemma string_app_nil_r (a : string) : a ++ "" = a.
Proof. induction a as [|x a IH]; simpl; [reflexivity | now rewrite IH]. Qed.

Lemma optimize_spec_parts L :
  optimize_spec L = String.concat "|" (map render_part (parts_of L)).
Proof.
  unfold optimize_spec, parts_of.
  assert (Hp : forall c, group_alternative L c = render_part (group_part L c)).
  { intros c. unfold group_alternative, group_part, factored.
    destruct (keyword_group L c) as [|w [|w' ws]]; reflexivity. }
  destruct (group_keys L) as [|c [|c' cs]].
  - reflexivity.
  - rewrite map_map. simpl. now rewrite map_id.
  - rewrite map_map. f_equal. apply map_ext. exact Hp.
Qed.

Lemma lexes_nil : lexes "" [].
Proof. intros p. simpl. now destruct (lex p). Qed.

Lemma lexes_app s1 t1 s2 t2 :
  lexes s1 t1 -> lexes s2 t2 -> lexes (s1 ++ s2) (t1 ++ t2).
Proof.
  intros H1 H2 p. rewrite string_app_assoc, H1, H2.
  destruct (lex p); simpl; [now rewrite app_assoc | reflexivity].
Qed.

Lemma lexes_bar : lexes "|" [TBar].
Proof. intros p. reflexivity. Qed.

Lemma lexes_open : lexes "(?:" [TOpen].
Proof. intros p. reflexivity. Qed.

Lemma lexes_close : lexes ")" [TClose].
Proof. intros p. reflexivity. Qed.

Lemma lex_plain_char c p :
  is_meta c = false -> lex (String c p) = option_map (cons (TChar c)) (lex p).
Proof.
  intros H.
  destruct c as [[] [] [] [] [] [] [] []]; try discriminate H; reflexivity.
Qed.

Lemma lexes_char c : is_meta c = false -> lexes (char_str c) [TChar c].
Proof. intros H p. simpl. now apply lex_plain_char. Qed.

Lemma lexes_word w : no_meta w = true -> lexes w (word_tokens w).
Proof.
  induction w as [|c w IH]; intros H; simpl in *.
  - apply lexes_nil.
  - apply andb_true_iff in H as [Hc Hw]. apply negb_true_iff in Hc.
    apply (lexes_app _ _ _ _ (lexes_char _ Hc) (IH Hw)).
Qed.

Lemma lexes_concat {A} (render : A -> string) (toks : A -> list token) l :
  (forall x, In x l -> lexes (render x) (toks x)) ->
  lexes (String.concat "|" (map render l)) (alt_tokens toks l).
Proof.
  induction l as [|x l IH]; intros H.
  - apply lexes_nil.
  - destruct l as [|y l].
    + apply H. now left.
    + change (lexes (render x ++ "|" ++ String.concat "|" (map render (y :: l)))
                    (toks x ++ [TBar] ++ alt_tokens toks (y :: l))).
      apply lexes_app; [apply H; now left|].
      apply lexes_app; [apply lexes_bar|].
      apply IH. intros z Hz. apply H. now right.
Qed.

Lemma lexes_part p : part_plain p = true -> lexes (render_part p) (part_tokens p).
Proof.
  destruct p as [w|c ws]; simpl; intros H.
  - now apply lexes_word.
  - apply andb_true_iff in H as [Hc Hws]. apply negb_true_iff in Hc.
    change (lexes ("(?:" ++ char_str c ++ "(?:" ++ String.concat "|" ws ++ "))")
              ([TOpen] ++ [TChar c] ++ [TOpen] ++ alt_tokens word_tokens ws
                 ++ [TClose] ++ [TClose])).
    apply lexes_app; [apply lexes_open|].
    apply lexes_app; [now apply lexes_char|].
    apply lexes_app; [apply lexes_open|].
    apply lexes_app.
    + rewrite <- (map_id ws) at 1. apply lexes_concat.
      intros w Hw. apply lexes_word.
      rewrite forallb_forall in Hws. now apply Hws.
    + apply (lexes_app _ _ _ _ lexes_close lexes_close).
Qed.

Lemma lex_parts ps :
  forallb part_plain ps = true ->
  lex (String.concat "|" (map render_part ps)) = Some (alt_tokens part_tokens ps).
Proof.
  intros H.
  assert (Hl : lexes (String.concat "|" (map render_part ps)) (alt_tokens part_tokens ps)).
  { apply lexes_concat. intros p Hp. apply lexes_part.
    rewrite forallb_forall in H. now apply H. }
  specialize (Hl ""). rewrite string_app_nil_r in Hl. rewrite Hl. simpl.
  now rewrite app_nil_r.
Qed.

Lemma pushes_app t1 r1 t2 r2 :
  pushes t1 r1 -> pushes t2 r2 -> pushes (t1 ++ t2)%list (r1 ++ r2)%list.
Proof.
  intros H1 H2 rest f stack.
  rewrite <- app_assoc, H1, H2. simpl. now rewrite <- app_assoc.
Qed.

Lemma pushes_word w : pushes (word_tokens w) (word_atoms w).
Proof.
  unfold word_tokens, word_atoms.
  induction (list_ascii_of_string w) as [|c l IH]; intros rest f stack; simpl.
  - rewrite app_nil_r. now destruct f.
  - rewrite IH. unfold frame_push. simpl. now rewrite <- app_assoc.
Qed.

Lemma last_cons {A} (l : list A) x y : last (y :: l) x = last l y.
Proof.
  revert x y. induction l as [|a l IH]; intros x y; [reflexivity|].
  change (last (y :: a :: l) x) with (last (a :: l) x).
  now rewrite (IH x a), (IH y a).
Qed.

(** An alternation read into a frame that has no atom yet: all items but
    the last are complete alternatives, the last is being read. *)
Lemma parse_alternation {A} (toks : A -> list token) (atoms : A -> list regex)
    (x : A) (l : list A) :
  (forall y, In y (x :: l) -> pushes (toks y) (atoms y)) ->
  forall rest alts stack,
    parse_tokens (alt_tokens toks (x :: l) ++ rest)%list (alts, []) stack
    = parse_tokens rest
        ((alts ++ map (fun y => cat_list (atoms y)) (removelast (x :: l)))%list,
         atoms (last l x)) stack.
Proof.
  revert x. induction l as [|y l IH]; intros x H rest alts stack.
  - simpl. rewrite (H x (or_introl eq_refl)). simpl. now rewrite app_nil_r.
  - change (alt_tokens toks (x :: y :: l))
      with (toks x ++ TBar :: alt_tokens toks (y :: l))%list.
    rewrite <- app_assoc, (H x (or_introl eq_refl)).
    cbn [app fst snd parse_tokens]. unfold frame_bar. cbn [app fst snd].
    rewrite IH by (intros z Hz; apply H; now right).
    change (removelast (x :: y :: l)) with (x :: removelast (y :: l)).
    rewrite (last_cons l x y).
    cbn [map]. now rewrite <- app_assoc.
Qed.

Lemma frame_close_alternation {A} (atoms : A -> list regex) (x : A) (l : list A) alts :
  frame_close ((alts ++ map (fun y => cat_list (atoms y)) (removelast (x :: l)))%list,
               atoms (last l x))
  = alts_regex (alts ++ map (fun y => cat_list (atoms y)) (x :: l))%list.
Proof.
  unfold frame_close, alts_regex. cbn [fst snd].
  rewrite <- app_assoc.
  replace (map (fun y => cat_list (atoms y)) (removelast (x :: l))
             ++ [cat_list (atoms (last l x))])%list
    with (map (fun y => cat_list (atoms y)) (x :: l)); [reflexivity|].
  assert (Hne : x :: l <> []) by discriminate.
  rewrite (app_removelast_last x Hne) at 1.
  rewrite map_app. simpl. do 3 f_equal.
  clear. destruct l as [|y l]; [reflexivity|]. now rewrite last_cons.
Qed.

Lemma frame_close_alternation_nil {A} (atoms : A -> list regex) (x : A) (l : list A) :
  frame_close (map (fun y => cat_list (atoms y)) (removelast (x :: l)),
               atoms (last l x))
  = alts_regex (map (fun y => cat_list (atoms y)) (x :: l)).
Proof. exact (frame_close_alternation atoms x l []). Qed.

(** The group [(?:c(?:s1|s2|...))] is read as one atom. *)
Lemma pushes_part p : pushes (part_tokens p) (part_atoms p).
Proof.
  destruct p as [w|c ws]; [apply pushes_word|].
  intros rest f stack. simpl part_tokens. simpl part_atoms.
  cbn [app parse_tokens]. unfold frame_push at 1. cbn [fst snd app].
  destruct ws as [|w ws].
  - reflexivity.
  - rewrite <- app_assoc.
    rewrite (parse_alternation word_tokens word_atoms w ws)
      by (intros; apply pushes_word).
    cbn [app parse_tokens].
    rewrite (frame_close_alternation_nil word_atoms w ws).
    unfold frame_push. cbn [fst snd app]. reflexivity.
Qed.

Lemma parse_parts ps :
  forallb part_plain ps = true ->
  parse (String.concat "|" (map render_part ps))
  = Some (alts_regex (map part_regex ps)).
Proof.
  intros H. unfold parse. rewrite (lex_parts _ H).
  destruct ps as [|p ps]; [reflexivity|].
  rewrite <- (app_nil_r (alt_tokens part_tokens (p :: ps))).
  rewrite (parse_alternation part_tokens part_atoms p ps)
    by (intros; apply pushes_part).
  cbn [parse_tokens].
  now rewrite (frame_close_alternation part_atoms p ps []).
Qed.

(* ------------------------------------------------------------------ *)
(** ** Matching an optimized pattern                                    *)
(* ------------------------------------------------------------------ *)

Lemma run_word ci w s : run ci (word_regex w) s = option_list (strip ci w s).
Proof.
  revert s. induction w as [|c w IH]; intros s; [reflexivity|].
  change (word_regex (String c w)) with (Cat (Chr c) (word_regex w)).
  destruct s as [|x s]; simpl; [reflexivity|].
  destruct (char_eq ci c x); simpl; [|reflexivity].
  now rewrite app_nil_r, IH.
Qed.

Lemma run_alt_list ci r rs s :
  run ci (alt_list r rs) s = flat_map (fun r' => run ci r' s) (r :: rs).
Proof.
  revert r. induction rs as [|r' rs IH]; intros r; simpl.
  - now rewrite app_nil_r.
  - now rewrite IH.
Qed.

Lemma flat_map_eps ci l : flat_map (run ci Eps) l = l.
Proof. induction l as [|x l IH]; simpl; [reflexivity | f_equal; exact IH]. Qed.

Lemma run_cat_eps ci r s : run ci (Cat r Eps) s = run ci r s.
Proof. change (run ci (Cat r Eps) s) with (flat_map (run ci Eps) (run ci r s)).
  apply flat_map_eps. Qed.

Lemma run_cat_chr ci c r s :
  run ci (Cat (Chr c) r) s
  = match s with
    | String x s' => if char_eq ci c x then run ci r s' else []
    | EmptyString => []
    end.
Proof.
  destruct s as [|x s]; simpl; [reflexivity|].
  destruct (char_eq ci c x); simpl; [apply app_nil_r | reflexivity].
Qed.

Lemma run_part_regex ci p s :
  (forall c, p <> PGroup c []) ->
  run ci (part_regex p) s = run_part ci p s.
Proof.
  intros Hne. destruct p as [w|c ws].
  - apply run_word.
  - destruct ws as [|w ws]; [now elim (Hne c)|].
    change (part_regex (PGroup c (w :: ws)))
      with (Cat (Cat (Chr c)
                  (Cat (alt_list (word_regex w) (map word_regex ws)) Eps)) Eps).
    rewrite run_cat_eps, run_cat_chr.
    destruct s as [|x s]; [reflexivity|]. cbn [run_part].
    destruct (char_eq ci c x); [|reflexivity].
    rewrite run_cat_eps, run_alt_list, <- map_cons, flat_map_concat_map, map_map,
      <- flat_map_concat_map.
    apply flat_map_ext. intros a. apply run_word.
Qed.

Lemma flat_map_ext_on {A B} (f g : A -> list B) l :
  (forall x, In x l -> f x = g x) -> flat_map f l = flat_map g l.
Proof.
  induction l as [|x l IH]; intros H; simpl; [reflexivity|].
  rewrite (H x (or_introl eq_refl)), IH; [reflexivity|].
  intros y Hy. apply H. now right.
Qed.

Lemma run_parts ci p ps s :
  (forall q c, In q (p :: ps) -> q <> PGroup c []) ->
  run ci (alts_regex (map part_regex (p :: ps))) s
  = flat_map (fun q => run_part ci q s) (p :: ps).
Proof.
  intros Hne. cbn [map alts_regex]. rewrite run_alt_list, <- map_cons.
  rewrite flat_map_concat_map, map_map, <- flat_map_concat_map.
  apply flat_map_ext_on. intros q Hq. apply run_part_regex.
  intros c. now apply Hne.
Qed.

(* ------------------------------------------------------------------ *)
(** ** Keys and groups                                                  *)
(* ------------------------------------------------------------------ *)

Lemma distinct_In c l : In c (distinct l) <-> In c l.
Proof.
  induction l as [|x l IH]; simpl; [tauto|].
  rewrite filter_In, IH.
  destruct (Ascii.eqb_spec x c) as [->|Hx]; simpl; [tauto|].
  split; [tauto|]. intros [H|H]; [congruence | now right].
Qed.

Lemma group_keys_In L c :
  In c (group_keys L) <-> exists w, In w L /\ group_key w = c.
Proof.
  unfold group_keys. rewrite sort_In, distinct_In, in_map_iff.
  split; intros (w & H1 & H2); exists w; tauto.
Qed.

Lemma keyword_group_In L c w :
  In w (keyword_group L c) <-> In w L /\ group_key w = c.
Proof.
  unfold keyword_group. rewrite sort_In, filter_In.
  destruct (Ascii.eqb_spec c (group_key w)); intuition congruence.
Qed.

Lemma upper_char_idem c : upper_char (upper_char c) = upper_char c.
Proof. destruct c as [[] [] [] [] [] [] [] []]; reflexivity. Qed.

Lemma upper_char_plain c : is_meta c = false -> is_meta (upper_char c) = false.
Proof. destruct c as [[] [] [] [] [] [] [] []]; intros H; try discriminate H; reflexivity. Qed.

Lemma plain_keyword_inv w :
  plain_keyword w = true ->
  exists c t, w = String c t /\ is_meta c = false /\ no_meta t = true.
Proof.
  unfold plain_keyword. destruct w as [|c t]; simpl; [discriminate|].
  intros H. apply andb_true_iff in H as [Hc Ht]. apply negb_true_iff in Hc.
  now exists c, t.
Qed.

Lemma plain_keyword_nonempty L :
  forallb plain_keyword L = true ->
  forallb (fun w => negb (is_empty w)) L = true.
Proof.
  rewrite !forallb_forall. intros H w Hw. specialize (H w Hw).
  unfold plain_keyword in H. now apply andb_true_iff in H as [H _].
Qed.

(** The parts of a list of plain keywords are inside the fragment. *)
Lemma parts_of_plain L :
  forallb plain_keyword L = true -> forallb part_plain (parts_of L) = true.
Proof.
  intros HL. rewrite forallb_forall in HL. apply forallb_forall. intros p Hp.
  assert (Hgrp : forall c w, In w (keyword_group L c) -> no_meta w = true).
  { intros c w Hw. apply keyword_group_In in Hw as [Hw _].
    destruct (plain_keyword_inv _ (HL w Hw)) as (a & t & -> & Ha & Ht).
    simpl. now rewrite Ha, Ht. }
  assert (Hpart : forall c, In c (group_keys L) -> part_plain (group_part L c) = true).
  { intros c Hc. unfold group_part.
    assert (Hk : is_meta c = false).
    { apply group_keys_In in Hc as (w & Hw & <-).
      destruct (plain_keyword_inv _ (HL w Hw)) as (a & t & -> & Ha & Ht).
      now apply upper_char_plain. }
    assert (Hs : forallb no_meta (map tail (keyword_group L c)) = true).
    { apply forallb_forall. intros t Ht. apply in_map_iff in Ht as (w & <- & Hw).
      specialize (Hgrp c w Hw). destruct w as [|a t]; [reflexivity|].
      simpl in Hgrp. now apply andb_true_iff in Hgrp as [_ Hgrp]. }
    destruct (keyword_group L c) as [|w [|w' ws]] eqn:E; cbn [part_plain].
    - now rewrite Hk.
    - apply (Hgrp c). rewrite E. now left.
    - now rewrite Hk, Hs. }
  unfold parts_of in Hp.
  destruct (group_keys L) as [|c [|c' cs]] eqn:E.
  - destruct Hp.
  - apply in_map_iff in Hp as (w & <- & Hw). now apply (Hgrp c).
  - apply in_map_iff in Hp as (k & <- & Hk). now apply Hpart.
Qed.

(** No part is a group without alternatives. *)
Lemma parts_of_groups L q c : In q (parts_of L) -> q <> PGroup c [].
Proof.
  unfold parts_of. intros Hq.
  assert (Hpart : forall k, In k (group_keys L) -> group_part L k <> PGroup c []).
  { intros k Hk. unfold group_part.
    apply group_keys_In in Hk as (w & Hw & Hkw).
    assert (Hin : In w (keyword_group L k)) by now apply keyword_group_In.
    destruct (keyword_group L k) as [|w1 [|w2 ws]]; [destruct Hin | discriminate | discriminate]. }
  destruct (group_keys L) as [|c1 [|c2 cs]].
  - destruct Hq.
  - apply in_map_iff in Hq as (w & <- & _). discriminate.
  - apply in_map_iff in Hq as (k & <- & Hk). now apply Hpart.
Qed.

Lemma parts_of_nil L : L <> [] -> parts_of L <> [].
Proof.
  intros HL. destruct L as [|w L]; [congruence|]. clear HL.
  assert (Hk : In (group_key w) (group_keys (w :: L))).
  { apply group_keys_In. exists w. split; [now left | reflexivity]. }
  assert (Hg : In w (keyword_group (w :: L) (group_key w))).
  { apply keyword_group_In. split; [now left | reflexivity]. }
  unfold parts_of.
  destruct (group_keys (w :: L)) as [|c1 [|c2 cs]]; [destruct Hk| |discriminate].
  destruct Hk as [->|[]].
  destruct (keyword_group (w :: L) (group_key w)); [destruct Hg | discriminate].
Qed.

(** What the engine is given for a list of plain keywords. *)
Lemma parse_optimized L :
  forallb plain_keyword L = true ->
  optimize_pattern (map VStr L) = OK (optimize_spec L)
  /\ parse (optimize_spec L) = Some (alts_regex (map part_regex (parts_of L))).
Proof.
  intros HL. split.
  - apply optimize_pattern_strings. now apply plain_keyword_nonempty.
  - rewrite optimize_spec_parts. apply parse_parts. now apply parts_of_plain.
Qed.

Lemma run_optimized ci L s :
  L <> [] ->
  run ci (alts_regex (map part_regex (parts_of L))) s
  = flat_map (fun q => run_part ci q s) (parts_of L).
Proof.
  intros HL. pose proof (parts_of_nil L HL) as Hne.
  pose proof (parts_of_groups L) as Hg.
  destruct (parts_of L) as [|p ps]; [congruence|].
  apply run_parts. intros q c Hq. now apply Hg.
Qed.

(* ------------------------------------------------------------------ *)
(** ** The pattern does not depend on the order of the keywords        *)
(* ------------------------------------------------------------------ *)

Lemma ascii_leb_trans x y z :
  Ascii.leb x y = true -> Ascii.leb y z = true -> Ascii.leb x z = true.
Proof.
  unfold Ascii.leb.
  destruct (ascii_compare_cases x y), (ascii_compare_cases y z),
    (ascii_compare_cases x z); subst; auto; try discriminate; lia.
Qed.

Lemma distinct_NoDup l : NoDup (distinct l).
Proof.
  induction l as [|c l IH]; simpl; constructor.
  - rewrite filter_In, Ascii.eqb_refl. simpl. intros [_ H]. discriminate.
  - now apply NoDup_filter.
Qed.

Lemma filter_permutation {A} (f : A -> bool) l l' :
  Permutation l l' -> Permutation (filter f l) (filter f l').
Proof.
  induction 1 as [|x l l' Hp IH|x y l|l1 l2 l3 H1 IH1 H2 IH2]; simpl.
  - constructor.
  - destruct (f x); [now constructor | exact IH].
  - destruct (f x), (f y); try apply Permutation_refl. apply perm_swap.
  - eapply perm_trans; eassumption.
Qed.

Lemma group_keys_any_order L L' : Permutation L L' -> group_keys L = group_keys L'.
Proof.
  intros Hp. unfold group_keys.
  apply sort_permutation_invariant;
    [apply Ascii.leb_total | apply ascii_leb_trans | apply Ascii.leb_antisym |].
  apply NoDup_Permutation; try apply distinct_NoDup.
  intros c. rewrite !distinct_In. split; apply Permutation_in.
  - now apply Permutation_map.
  - now apply Permutation_map, Permutation_sym.
Qed.

Lemma keyword_group_any_order L L' c :
  Permutation L L' -> keyword_group L c = keyword_group L' c.
Proof.
  intros Hp. unfold keyword_group.
  now apply sort_keywords_any_order, filter_permutation.
Qed.

(** The pattern does not depend on the order of the keywords: sorting
    the list before the call, as the generator does, changes nothing. *)
Lemma optimize_spec_any_order L L' :
  Permutation L L' -> optimize_spec L = optimize_spec L'.
Proof.
  intros Hp. unfold optimize_spec, group_alternative.
  rewrite (group_keys_any_order L L' Hp).
  destruct (group_keys L') as [|c [|c' cs]].
  - reflexivity.
  - now rewrite (keyword_group_any_order L L' c Hp).
  - f_equal. apply map_ext. intros k.
    now rewrite (keyword_group_any_order L L' k Hp).
Qed.

Lemma keywords_pattern_unsorted vs :
  keywords_pattern vs = optimize_spec (map py_str vs).
Proof.
  unfold keywords_pattern. apply optimize_spec_any_order.
  apply Permutation_sym, sort_perm.
Qed.

(** The patterns of the inline [build.py] do not depend on the order in
    which its sets are read. *)
Lemma inline_pattern_any_set_order (elements elements' : list value) :
  Permutation elements elements' ->
  String.concat "|" (sort keyword_leb (map py_str elements))
  = String.concat "|" (sort keyword_leb (map py_str elements')).
Proof.
  intros Hp. f_equal. now apply sort_keywords_any_order, Permutation_map.
Qed.

(* ------------------------------------------------------------------ *)
(** ** Whole-token matches                                              *)
(* ------------------------------------------------------------------ *)

Lemma strip_whole ci w s :
  existsb is_empty (option_list (strip ci w s)) = eq_text ci w s.
Proof.
  unfold eq_text, eq_ci, char_eq. revert s.
  induction w as [|c w IH]; intros [|x s]; destruct ci; simpl; try reflexivity.
  - destruct (Ascii.eqb (upper_char c) (upper_char x)); simpl; [|reflexivity].
    specialize (IH s). simpl in IH. exact IH.
  - destruct (Ascii.eqb c x); simpl; [|reflexivity].
    specialize (IH s). simpl in IH. exact IH.
Qed.

Lemma existsb_flat_map {A B} (P : B -> bool) (f : A -> list B) l :
  existsb P (flat_map f l) = existsb (fun x => existsb P (f x)) l.
Proof.
  induction l as [|x l IH]; simpl; [reflexivity|].
  now rewrite existsb_app, IH.
Qed.

Lemma existsb_over_map {A B} (P : B -> bool) (f : A -> B) l :
  existsb P (map f l) = existsb (fun x => P (f x)) l.
Proof.
  induction l as [|x l IH]; simpl; [reflexivity | now rewrite IH].
Qed.

Lemma existsb_ext_on {A} (P Q : A -> bool) l :
  (forall x, In x l -> P x = Q x) -> existsb P l = existsb Q l.
Proof.
  induction l as [|x l IH]; intros H; simpl; [reflexivity|].
  rewrite (H x (or_introl eq_refl)), IH; [reflexivity|].
  intros y Hy. apply H. now right.
Qed.

Lemma existsb_never {A} (l : list A) : existsb (fun _ => false) l = false.
Proof. induction l; simpl; auto. Qed.

(** The key of a group stands for the first character of a keyword of
    the group in a mode that fits. *)
Lemma key_char_eq ci c a x :
  upper_char a = c -> (ci = false -> upper_char a = a) ->
  char_eq ci c x = char_eq ci a x.
Proof.
  intros Hc Hs. unfold char_eq. destruct ci.
  - subst c. now rewrite upper_char_idem.
  - rewrite <- Hc, Hs; reflexivity.
Qed.

Lemma eq_text_cons ci a t x s :
  eq_text ci (String a t) (String x s) = char_eq ci a x && eq_text ci t s.
Proof. unfold eq_text, eq_ci, char_eq. destruct ci; reflexivity. Qed.

Lemma eq_text_nil_r ci a t : eq_text ci (String a t) "" = false.
Proof. unfold eq_text, eq_ci. destruct ci; reflexivity. Qed.

(** A factored group matches the tokens its keywords match. *)
Lemma group_whole ci c ws s :
  (forall k, In k ws -> exists a t, k = String a t /\ upper_char a = c
                                     /\ (ci = false -> upper_char a = a)) ->
  existsb is_empty (run_part ci (PGroup c (map tail ws)) s)
  = existsb (fun k => eq_text ci k s) ws.
Proof.
  intros H. cbn [run_part]. destruct s as [|x s].
  - symmetry. transitivity (existsb (fun _ : string => false) ws);
      [|apply existsb_never].
    apply existsb_ext_on.
    intros k Hk. destruct (H k Hk) as (a & t & -> & _). apply eq_text_nil_r.
  - rewrite <- (existsb_ext_on
       (fun k => char_eq ci c x && eq_text ci (tail k) s)
       (fun k => eq_text ci k (String x s))).
    + destruct (char_eq ci c x); simpl.
      * rewrite existsb_flat_map, existsb_over_map.
        apply existsb_ext_on. intros k _. apply strip_whole.
      * symmetry. apply existsb_never.
    + intros k Hk. destruct (H k Hk) as (a & t & -> & Hc & Hs).
      rewrite eq_text_cons. cbn [tail]. f_equal. now apply key_char_eq.
Qed.

Lemma mode_fits_In ci L k :
  mode_fits ci L = true -> In k L -> ci = false -> case_stable k = true.
Proof.
  unfold mode_fits. intros H Hk ->. simpl in H.
  rewrite forallb_forall in H. now apply H.
Qed.

Lemma group_members ci L c :
  forallb (fun w => negb (is_empty w)) L = true ->
  mode_fits ci L = true ->
  forall k, In k (keyword_group L c) ->
    exists a t, k = String a t /\ upper_char a = c /\ (ci = false -> upper_char a = a).
Proof.
  intros HL Hm k Hk. rewrite forallb_forall in HL.
  apply keyword_group_In in Hk as [Hk Hc]. specialize (HL k Hk).
  pose proof (mode_fits_In ci L k Hm Hk) as Hs.
  destruct k as [|a t]; [discriminate|]. exists a, t. repeat split; [exact Hc|].
  intros Hci. specialize (Hs Hci). simpl in Hs. now apply Ascii.eqb_eq in Hs.
Qed.

Lemma group_part_whole ci L c s :
  forallb (fun w => negb (is_empty w)) L = true ->
  mode_fits ci L = true ->
  existsb is_empty (run_part ci (group_part L c) s)
  = existsb (fun k => eq_text ci k s) (keyword_group L c).
Proof.
  intros HL Hm. unfold group_part.
  pose proof (group_whole ci c (keyword_group L c) s (group_members ci L c HL Hm)) as Hg.
  destruct (keyword_group L c) as [|w [|w' ws]]; try exact Hg.
  cbn [run_part existsb]. rewrite orb_false_r. apply strip_whole.
Qed.

Lemma existsb_groups (P : string -> bool) L :
  existsb (fun c => existsb P (keyword_group L c)) (group_keys L) = existsb P L.
Proof.
  apply eq_iff_eq_true. rewrite !existsb_exists. split.
  - intros (c & Hc & H). apply existsb_exists in H as (k & Hk & HP).
    exists k. split; [|exact HP]. now apply keyword_group_In in Hk.
  - intros (k & Hk & HP). exists (group_key k). split.
    + apply group_keys_In. now exists k.
    + apply existsb_exists. exists k. split; [|exact HP]. now apply keyword_group_In.
Qed.

Lemma parts_whole ci L s :
  forallb (fun w => negb (is_empty w)) L = true ->
  mode_fits ci L = true ->
  existsb is_empty (flat_map (fun q => run_part ci q s) (parts_of L))
  = existsb (fun k => eq_text ci k s) L.
Proof.
  intros HL Hm. rewrite <- (existsb_groups (fun k => eq_text ci k s) L).
  rewrite existsb_flat_map. unfold parts_of.
  destruct (group_keys L) as [|c [|c' cs]] eqn:E.
  - reflexivity.
  - rewrite existsb_over_map. cbn [existsb]. rewrite orb_false_r.
    apply existsb_ext_on. intros k _. cbn [run_part]. apply strip_whole.
  - rewrite existsb_over_map. apply existsb_ext_on. intros k _.
    now apply group_part_whole.
Qed.

(** The optimized pattern of plain keywords, in a mode that fits,
    accepts a token exactly when it is one of the keywords as the mode
    compares texts. *)
Lemma match_whole_optimized ci L s :
  forallb plain_keyword L = true ->
  mode_fits ci L = true ->
  is_empty s = false ->
  match_whole ci (optimize_spec L) s = Some (existsb (fun k => eq_text ci k s) L).
Proof.
  intros HL Hm Hs. unfold match_whole.
  destruct (parse_optimized L HL) as [_ ->]. cbn [option_map]. f_equal.
  destruct L as [|w L].
  - simpl. now rewrite Hs.
  - rewrite run_optimized by discriminate.
    apply parts_whole; [now apply plain_keyword_nonempty | exact Hm].
Qed.

(* ------------------------------------------------------------------ *)
(** ** The first match                                                  *)
(* ------------------------------------------------------------------ *)

Lemma char_eq_refl ci c : char_eq ci c c = true.
Proof. unfold char_eq. destruct ci; apply Ascii.eqb_refl. Qed.

Lemma strip_self ci w : strip ci w w = Some "".
Proof.
  induction w as [|c w IH]; simpl; [reflexivity|].
  now rewrite char_eq_refl.
Qed.

Lemma strip_length ci w s r :
  strip ci w s = Some r -> String.length s = String.length w + String.length r.
Proof.
  revert s. induction w as [|c w IH]; intros [|x s] H; simpl in *;
    try (injection H as <-; reflexivity); try discriminate.
  destruct (char_eq ci c x); [|discriminate]. now rewrite (IH s H).
Qed.

Lemma length_zero_empty (s : string) : String.length s = 0 -> s = "".
Proof. destruct s; [reflexivity | discriminate]. Qed.

Lemma substring_whole (s : string) : substring 0 (String.length s) s = s.
Proof. induction s as [|c s IH]; simpl; [reflexivity | now rewrite IH]. Qed.

(** In a list that has the longer texts first, the first text that
    matches at the start of a member matches all of it. *)
Lemma first_of_longest_first ci ws s :
  In s ws ->
  StronglySorted (fun a b => String.length b <= String.length a) ws ->
  hd_error (flat_map (fun w => option_list (strip ci w s)) ws) = Some "".
Proof.
  induction ws as [|w ws IH]; intros Hin Hs; [destruct Hin|].
  apply StronglySorted_inv in Hs as [Hs Hw]. rewrite Forall_forall in Hw.
  cbn [flat_map]. destruct (strip ci w s) as [r|] eqn:E.
  - apply strip_length in E.
    assert (Hlen : String.length s <= String.length w).
    { destruct Hin as [->|Hin]; [lia | now apply Hw]. }
    assert (Hr : r = "") by (apply length_zero_empty; lia).
    now subst r.
  - simpl. apply IH; [|exact Hs].
    destruct Hin as [->|Hin]; [|exact Hin]. now rewrite strip_self in E.
Qed.

Lemma tails_longest_first ws :
  StronglySorted (fun a b => String.length b <= String.length a) ws ->
  StronglySorted (fun a b => String.length b <= String.length a) (map tail ws).
Proof.
  induction 1 as [|w ws Hs IH Hw]; simpl; constructor; [exact IH|].
  rewrite Forall_forall in *. intros t Ht.
  apply in_map_iff in Ht as (y & <- & Hy). specialize (Hw y Hy).
  destruct w, y; simpl in *; lia.
Qed.

Lemma hd_flat_map_first {A B} (f : A -> list B) (v : B) l :
  (forall x, In x l -> f x = [] \/ hd_error (f x) = Some v) ->
  (exists x, In x l /\ hd_error (f x) = Some v) ->
  hd_error (flat_map f l) = Some v.
Proof.
  induction l as [|x l IH]; intros Hall (y & Hy & Hv); [destruct Hy|].
  cbn [flat_map]. destruct (Hall x (or_introl eq_refl)) as [E|E].
  - rewrite E. simpl. apply IH.
    + intros z Hz. apply Hall. now right.
    + destruct Hy as [->|Hy]; [rewrite E in Hv; discriminate|]. now exists y.
  - destruct (f x); [discriminate | exact E].
Qed.

(** Characters with different upper case differ in either mode. *)
Lemma char_eq_other_key ci a x :
  upper_char a <> upper_char x -> char_eq ci a x = false.
Proof.
  intros H. unfold char_eq. destruct ci.
  - now apply Ascii.eqb_neq.
  - apply Ascii.eqb_neq. intros ->. now apply H.
Qed.

(** A part of another group matches nothing at the start of a keyword;
    the part of its own group matches all of it first. *)
Lemma group_part_first ci L c k :
  forallb (fun w => negb (is_empty w)) L = true ->
  mode_fits ci L = true ->
  In k L -> In c (group_keys L) ->
  (c <> group_key k -> run_part ci (group_part L c) k = [])
  /\ (c = group_key k -> hd_error (run_part ci (group_part L c) k) = Some "").
Proof.
  intros HL Hm Hk Hc.
  pose proof (group_members ci L c HL Hm) as Hne.
  pose proof (mode_fits_In ci L k Hm Hk) as Hstable.
  rewrite forallb_forall in HL.
  assert (Hcc : upper_char c = c).
  { apply group_keys_In in Hc as (w & Hw & Hkey).
    specialize (HL w Hw). destruct w as [|a t]; [discriminate|].
    simpl in Hkey. subst c. apply upper_char_idem. }
  pose proof (sort_keywords_by_length
                (filter (fun w => Ascii.eqb c (group_key w)) L)) as Hsorted.
  fold (keyword_group L c) in Hsorted.
  specialize (HL k Hk). destruct k as [|k0 kt]; [discriminate|]. simpl group_key.
  split; intros Hkey; unfold group_part.
  - destruct (keyword_group L c) as [|w [|w' ws]] eqn:E; cbn [run_part].
    + rewrite char_eq_other_key; [reflexivity | now rewrite Hcc].
    + destruct (Hne w (or_introl eq_refl)) as (a & t & -> & Ha & _).
      simpl. rewrite char_eq_other_key; [reflexivity | now rewrite Ha].
    + rewrite char_eq_other_key; [reflexivity | now rewrite Hcc].
  - assert (Hin : In (String k0 kt) (keyword_group L c)).
    { apply keyword_group_In. split; [exact Hk | now rewrite Hkey]. }
    destruct (keyword_group L c) as [|w [|w' ws]] eqn:E; cbn [run_part].
    + destruct Hin.
    + destruct Hin as [->|[]]. now rewrite strip_self.
    + rewrite (key_char_eq ci c k0 k0), char_eq_refl.
      * apply first_of_longest_first.
        -- change kt with (tail (String k0 kt)). now apply in_map.
        -- now apply tails_longest_first.
      * now symmetry.
      * intros Hci. specialize (Hstable Hci). simpl in Hstable.
        now apply Ascii.eqb_eq in Hstable.
Qed.

Lemma parts_first ci L k :
  forallb (fun w => negb (is_empty w)) L = true ->
  mode_fits ci L = true ->
  In k L ->
  hd_error (flat_map (fun q => run_part ci q k) (parts_of L)) = Some "".
Proof.
  intros HL Hm Hk.
  assert (Hkey : In (group_key k) (group_keys L)).
  { apply group_keys_In. now exists k. }
  unfold parts_of. destruct (group_keys L) as [|c [|c' cs]] eqn:E.
  - destruct Hkey.
  - destruct Hkey as [->|[]].
    rewrite flat_map_concat_map, map_map, <- flat_map_concat_map. cbn [run_part].
    apply first_of_longest_first.
    + now apply keyword_group_In.
    + apply sort_keywords_by_length.
  - rewrite flat_map_concat_map, map_map, <- flat_map_concat_map.
    rewrite <- E in *. apply hd_flat_map_first.
    + intros c0 Hc0. destruct (group_part_first ci L c0 k HL Hm Hk Hc0) as [H1 H2].
      destruct (Ascii.eqb_spec c0 (group_key k)) as [Heq|Hneq]; [right | left]; auto.
    + exists (group_key k). split; [exact Hkey|].
      now apply (group_part_first ci L (group_key k) k HL Hm Hk Hkey).
Qed.

(** In a mode that fits, the optimized pattern of plain keywords returns
    a keyword in full when the text is that keyword. *)
Lemma first_match_optimized ci L k :
  forallb plain_keyword L = true ->
  mode_fits ci L = true ->
  In k L ->
  first_match ci (optimize_spec L) k = Some (Some k).
Proof.
  intros HL Hm Hk. unfold first_match.
  destruct (parse_optimized L HL) as [_ ->]. cbn [option_map].
  rewrite run_optimized by (intros ->; destruct Hk).
  rewrite (parts_first ci L k (plain_keyword_nonempty L HL) Hm Hk). cbn [option_map].
  simpl String.length. now rewrite Nat.sub_0_r, substring_whole.
Qed.

(* ------------------------------------------------------------------ *)
(** ** Prefixes and the order inside a group                            *)
(* ------------------------------------------------------------------ *)

Lemma prefix_length K K' :
  String.prefix K K' = true -> String.length K <= String.length K'.
Proof.
  revert K'. induction K as [|a K IH]; intros [|b K'] H; simpl in *;
    try discriminate; try lia.
  destruct (ascii_dec a b); [|discriminate]. specialize (IH K' H). lia.
Qed.

Lemma prefix_same_length K K' :
  String.prefix K K' = true -> String.length K = String.length K' -> K = K'.
Proof.
  revert K'. induction K as [|a K IH]; intros [|b K'] H Hl; simpl in *;
    try reflexivity; try discriminate.
  destruct (ascii_dec a b) as [->|]; [|discriminate].
  f_equal. apply IH; [exact H | lia].
Qed.

Lemma prefix_group_key K K' :
  String.prefix K K' = true -> is_empty K = false -> group_key K = group_key K'.
Proof.
  destruct K as [|a K]; [discriminate|]. destruct K' as [|b K']; [discriminate|].
  simpl. destruct (ascii_dec a b) as [->|]; [reflexivity | discriminate].
Qed.

Lemma sorted_before {A} (R : A -> A -> Prop) l1 x l2 :
  StronglySorted R (l1 ++ x :: l2) -> forall y, In y l1 -> R y x.
Proof.
  induction l1 as [|z l1 IH]; intros Hs y Hy; [destruct Hy|].
  simpl in Hs. apply StronglySorted_inv in Hs as [Hs Hz].
  destruct Hy as [->|Hy]; [|now apply IH].
  rewrite Forall_forall in Hz. apply Hz, in_elt.
Qed.

(** In its group the longer keyword stands before its proper prefix. *)
Lemma longer_keyword_precedes L K K' :
  In K L -> In K' L -> is_empty K = false ->
  String.prefix K K' = true -> K <> K' ->
  exists l1 l2, keyword_group L (group_key K') = (l1 ++ K' :: l2)%list
                /\ In K l2 /\ ~ In K l1.
Proof.
  intros HK HK' Hne Hpre Hneq.
  assert (Hlen : String.length K < String.length K').
  { pose proof (prefix_length K K' Hpre).
    destruct (Nat.eq_dec (String.length K) (String.length K')) as [E|E]; [|lia].
    elim Hneq. now apply prefix_same_length. }
  assert (HgK' : In K' (keyword_group L (group_key K'))) by now apply keyword_group_In.
  assert (HgK : In K (keyword_group L (group_key K'))).
  { apply keyword_group_In. split; [exact HK | now apply prefix_group_key]. }
  destruct (in_split _ _ HgK') as (l1 & l2 & E).
  pose proof (sort_keywords_by_length
                (filter (fun w => Ascii.eqb (group_key K') (group_key w)) L)) as Hs.
  fold (keyword_group L (group_key K')) in Hs. rewrite E in Hs, HgK.
  assert (Hl1 : ~ In K l1).
  { intros Hin. pose proof (sorted_before _ l1 K' l2 Hs K Hin). simpl in *. lia. }
  exists l1, l2. repeat split; [exact E | | exact Hl1].
  apply in_app_or in HgK as [H|[H|H]]; [contradiction | congruence | exact H].
Qed.

(* ------------------------------------------------------------------ *)
(** ** The pattern optimizer: the claims                                *)
(* ------------------------------------------------------------------ *)

(** C6. [optimize_pattern] partitions the keywords by uppercased first
    character: on every list of non-empty keywords it returns what the
    specification words as [optimize_spec] -- the empty string on empty
    input, the plain alternation of the sorted group when there is one
    group, and otherwise one alternative per group, a single keyword as
    it is and several keywords as the group key followed by the
    alternation of their suffixes. *)
Theorem optimize_pattern_refines_spec (L : list string) :
  forallb (fun w => negb (is_empty w)) L = true ->
  optimize_pattern (map VStr L) = OK (optimize_spec L)
  /\ (L = [] -> optimize_spec L = "")
  /\ (forall c, group_keys L = [c] ->
        optimize_spec L = String.concat "|" (sort keyword_leb L))
  /\ (forall c c' cs, group_keys L = c :: c' :: cs ->
        optimize_spec L
        = String.concat "|" (map (group_alternative L) (c :: c' :: cs)))
  /\ (forall c w, keyword_group L c = [w] -> group_alternative L c = w)
  /\ (forall c w w' ws, keyword_group L c = w :: w' :: ws ->
        group_alternative L c
        = "(?:" ++ char_str c ++ "(?:"
          ++ String.concat "|" (map tail (w :: w' :: ws)) ++ "))")
  /\ (forall c w, In w (keyword_group L c) <-> In w L /\ group_key w = c)
  /\ (forall w, In w L -> String.length w = S (String.length (tail w))).
Proof.
  intros HL. split; [now apply optimize_pattern_strings|].
  split; [now intros ->|]. split; [|split; [|split; [|split; [|split]]]].
  - intros c Hc. unfold optimize_spec. rewrite Hc. f_equal.
    unfold keyword_group. f_equal. apply filter_all. intros w Hw.
    assert (Hk : In (group_key w) (group_keys L)) by (apply group_keys_In; now exists w).
    rewrite Hc in Hk. destruct Hk as [->|[]]. apply Ascii.eqb_refl.
  - intros c c' cs Hc. unfold optimize_spec. now rewrite Hc.
  - intros c w Hg. unfold group_alternative. now rewrite Hg.
  - intros c w w' ws Hg. unfold group_alternative. now rewrite Hg.
  - apply keyword_group_In.
  - intros w Hw. rewrite forallb_forall in HL. specialize (HL w Hw).
    now destruct w.
Qed.

Lemma optimize_pattern_refines_spec_witness :
  optimize_pattern (map VStr ["ab"; "ac"; "b"; "Abc"])
  = OK (optimize_spec ["ab"; "ac"; "b"; "Abc"])
  /\ optimize_spec ["ab"; "ac"; "b"; "Abc"] = "(?:A(?:bc|b|c))|b".
Proof.
  split; [|reflexivity].
  apply (optimize_pattern_refines_spec ["ab"; "ac"; "b"; "Abc"]). reflexivity.
Defined.

(** C1, the claim as it is worded, fails. A keyword with a character of
    the pattern language is written into the pattern as it is: for
    ["A|B"] the pattern is [A|B], which does not match the token [A|B]
    and matches [A]. And the key of a factored group is uppercased: for
    ["ab"; "ac"; "b"] the pattern is [(?:A(?:b|c))|b], which read with
    regard to case loses [ab], and read without regard to case, as the
    grammar reads it, matches [AB]. *)
Lemma matches_exactly_counterexample :
  (forall ci, ~ matches_exactly ci ["A|B"])
  /\ ~ matches_exactly false ["ab"; "ac"; "b"]
  /\ ~ matches_exactly true ["ab"; "ac"; "b"].
Proof.
  split; [|split].
  - intros ci (p & Hp & H). injection Hp as <-.
    assert (Hin : In "A|B" ["A|B"]) by now left.
    apply H in Hin. destruct ci; discriminate Hin.
  - intros (p & Hp & H). injection Hp as <-.
    assert (Hin : In "ab" ["ab"; "ac"; "b"]) by now left.
    apply H in Hin. discriminate Hin.
  - intros (p & Hp & H). injection Hp as <-.
    assert (Hm : match_whole true "(?:A(?:b|c))|b" "AB" = Some true) by reflexivity.
    apply H in Hm. simpl in Hm. intuition discriminate.
Qed.

(** C1, amended. For every list of non-empty keywords without
    characters of the pattern language, the pattern that
    [optimize_pattern] returns accepts a non-empty token as a whole
    exactly when the token is a keyword of the list: up to the case of
    letters when it is matched without regard to case, as the grammar
    matches it; and letter for letter when it is matched with regard to
    case and no keyword starts with a lowercase letter. *)
Theorem optimized_pattern_matches_keywords (ci : bool) (L : list string) (s : string) :
  forallb plain_keyword L = true ->
  mode_fits ci L = true ->
  is_empty s = false ->
  exists p, optimize_pattern (map VStr L) = OK p
            /\ match_whole ci p s = Some (existsb (fun k => eq_text ci k s) L)
            /\ (ci = true ->
                (match_whole ci p s = Some true
                 <-> exists k, In k L /\ upper k = upper s))
            /\ (ci = false -> (match_whole ci p s = Some true <-> In s L)).
Proof.
  intros HL Hm Hs. exists (optimize_spec L).
  destruct (parse_optimized L HL) as [Hopt _].
  pose proof (match_whole_optimized ci L s HL Hm Hs) as Hw.
  split; [exact Hopt|]. split; [exact Hw|]. rewrite Hw. split; intros ->; cbn [eq_text].
  - split.
    + intros [= H]. apply existsb_exists in H as (k & Hk & H).
      exists k. split; [exact Hk | now apply String.eqb_eq].
    + intros (k & Hk & H). f_equal. apply existsb_exists.
      exists k. split; [exact Hk | now apply String.eqb_eq].
  - split.
    + intros [= H]. apply existsb_exists in H as (k & Hk & H).
      apply String.eqb_eq in H. now subst k.
    + intros Hin. f_equal. apply existsb_exists.
      exists s. split; [exact Hin | apply String.eqb_refl].
Qed.

Lemma optimized_pattern_matches_keywords_witness :
  (exists p, optimize_pattern (map VStr ["GRP"; "GRPX"; "ga"; "END"]) = OK p
             /\ match_whole true p "grpx" = Some true)
  /\ (exists p, optimize_pattern (map VStr ["GRP"; "GRPX"; "GA"; "END"]) = OK p
                /\ match_whole false p "grpx" = Some false).
Proof.
  split.
  - destruct (optimized_pattern_matches_keywords true
                ["GRP"; "GRPX"; "ga"; "END"] "grpx")
      as (p & Hp & Hw & _); [reflexivity | reflexivity | reflexivity |].
    exists p. split; [exact Hp | exact Hw].
  - destruct (optimized_pattern_matches_keywords false
                ["GRP"; "GRPX"; "GA"; "END"] "grpx")
      as (p & Hp & Hw & _); [reflexivity | reflexivity | reflexivity |].
    exists p. split; [exact Hp | exact Hw].
Defined.

(** C2, the claim as it is worded, fails. With the keywords ["A"] and
    ["A|B"] the pattern is [A|B|A], and on the text [A|B] the engine
    returns [A]. And read with regard to case, the pattern of
    ["ab"; "abc"; "c"], [(?:A(?:bc|b))|c], matches nothing at [abc]. *)
Lemma matched_in_full_counterexample :
  (forall ci, ~ matched_in_full ci ["A"; "A|B"] "A|B")
  /\ ~ matched_in_full false ["ab"; "abc"; "c"] "abc".
Proof.
  split.
  - intros ci (p & Hp & H). injection Hp as <-. destruct ci; discriminate H.
  - intros (p & Hp & H). injection Hp as <-. discriminate H.
Qed.

(** C2, amended. For every list of non-empty keywords without
    characters of the pattern language that holds a keyword [K] and a
    keyword [K'] of which [K] is a proper prefix: in the sorted group of
    [K'] the keyword [K'] stands before [K], and the pattern that
    [optimize_pattern] returns yields [K'] in full on the text [K'],
    matched without regard to case as the grammar matches it, and also
    matched with regard to case when no keyword starts with a lowercase
    letter. *)
Theorem longer_keyword_matched_in_full (ci : bool) (L : list string) (K K' : string) :
  forallb plain_keyword L = true ->
  mode_fits ci L = true ->
  In K L -> In K' L ->
  String.prefix K K' = true -> K <> K' ->
  matched_in_full ci L K'
  /\ exists l1 l2, keyword_group L (group_key K') = (l1 ++ K' :: l2)%list
                   /\ In K l2 /\ ~ In K l1.
Proof.
  intros HL Hm HK HK' Hpre Hneq. split.
  - exists (optimize_spec L). destruct (parse_optimized L HL) as [Hopt _].
    split; [exact Hopt | now apply first_match_optimized].
  - apply longer_keyword_precedes; try assumption.
    pose proof (plain_keyword_nonempty L HL) as Hne.
    rewrite forallb_forall in Hne. apply negb_true_iff. now apply Hne.
Qed.

Lemma longer_keyword_matched_in_full_witness :
  matched_in_full true ["GRP"; "GRPX"; "ga"; "END"] "GRPX"
  /\ matched_in_full false ["GRP"; "GRPX"; "GA"; "END"] "GRPX".
Proof.
  split.
  - apply (longer_keyword_matched_in_full true ["GRP"; "GRPX"; "ga"; "END"] "GRP" "GRPX");
      [reflexivity | reflexivity | simpl; tauto | simpl; tauto | reflexivity | discriminate].
  - apply (longer_keyword_matched_in_full false ["GRP"; "GRPX"; "GA"; "END"] "GRP" "GRPX");
      [reflexivity | reflexivity | simpl; tauto | simpl; tauto | reflexivity | discriminate].
Defined.

(* ------------------------------------------------------------------ *)
(** ** The table loop                                                   *)
(* ------------------------------------------------------------------ *)

Section DictFacts.
Variable V : Type.

Lemma dict_set_keys_In (d : dict value V) k v x :
  In x (dict_keys (dict_set value_eqb d k v)) <-> In x (dict_keys d) \/ x = k.
Proof.
  induction d as [|[k' v'] d IH]; simpl.
  - intuition congruence.
  - destruct (value_eqb_spec k' k) as [->|Hk]; simpl.
    + intuition congruence.
    + unfold dict_keys in IH. rewrite IH. tauto.
Qed.

Lemma dict_set_keys_NoDup (d : dict value V) k v :
  NoDup (dict_keys d) -> NoDup (dict_keys (dict_set value_eqb d k v)).
Proof.
  induction d as [|[k' v'] d IH]; simpl; intros H.
  - constructor; [intros [] | constructor].
  - destruct (value_eqb_spec k' k) as [->|Hk]; simpl; [exact H|].
    inversion H as [|? ? Hn Hd]; subst. constructor; [|now apply IH].
    intros Hin. apply dict_set_keys_In in Hin. destruct Hin; [contradiction | congruence].
Qed.

Lemma dict_get_set_same (d : dict value V) k v :
  dict_get value_eqb (dict_set value_eqb d k v) k = Some v.
Proof.
  induction d as [|[k' v'] d IH]; simpl.
  - now rewrite value_eqb_refl.
  - destruct (value_eqb k' k) eqn:E; simpl; rewrite E; [reflexivity | exact IH].
Qed.
End DictFacts.

Lemma dict_set_values_In (d : dict value addr) k a x :
  In x (map snd (dict_set value_eqb d k a)) -> In x (map snd d) \/ x = a.
Proof.
  induction d as [|[k' a'] d IH]; simpl.
  - intuition congruence.
  - destruct (value_eqb k' k); simpl; intuition congruence.
Qed.

Lemma dict_set_values_NoDup (d : dict value addr) k a :
  NoDup (map snd d) -> ~ In a (map snd d) -> NoDup (map snd (dict_set value_eqb d k a)).
Proof.
  induction d as [|[k' a'] d IH]; simpl; intros H Ha.
  - constructor; [intros [] | constructor].
  - inversion H as [|? ? Hn Hd]; subst.
    destruct (value_eqb k' k); simpl.
    + constructor; [tauto | exact Hd].
    + constructor; [|apply IH; tauto].
      intros Hin. apply dict_set_values_In in Hin. destruct Hin; [contradiction | subst; tauto].
Qed.

Lemma store_update_length h a f : List.length (store_update h a f) = List.length h.
Proof.
  revert a. induction h as [|l h IH]; intros [|a]; simpl; auto.
Qed.

Lemma deref_update h a f b :
  a < List.length h ->
  deref (store_update h a f) b = if Nat.eqb a b then f (deref h a) else deref h b.
Proof.
  unfold deref. revert a b. induction h as [|l h IH]; intros a b Ha; simpl in Ha; [lia|].
  destruct a as [|a], b as [|b]; simpl; try reflexivity.
  apply IH. lia.
Qed.

Lemma deref_alloc_old h a : a < List.length h -> deref (h ++ [[]])%list a = deref h a.
Proof. intros H. unfold deref. now apply app_nth1. Qed.

Lemma deref_alloc_new h : deref (h ++ [[]])%list (List.length h) = [].
Proof. unfold deref. now rewrite nth_middle. Qed.

(** Binding a command to a new list, read on the table. *)
Lemma read_bind_new h (d : dict value addr) k :
  (forall a, In a (map snd d) -> a < List.length h) ->
  map (read_entry (h ++ [[]])%list) (dict_set value_eqb d k (List.length h))
  = dict_set value_eqb (map (read_entry h) d) k [].
Proof.
  unfold read_entry.
  induction d as [|[k' a'] d IH]; intros H; simpl.
  - now rewrite deref_alloc_new.
  - destruct (value_eqb k' k); simpl.
    + rewrite deref_alloc_new. f_equal.
      apply map_ext_in. intros [k0 a0] Hin. simpl.
      rewrite deref_alloc_old; [reflexivity|].
      apply H. right. apply in_map_iff. now exists (k0, a0).
    + rewrite deref_alloc_old by (apply H; now left). f_equal.
      apply IH. intros a Ha. apply H. now right.
Qed.

Lemma find_bind_new (d : dict value addr) k a :
  ~ In a (map snd d) ->
  find (fun ka => Nat.eqb (snd ka) a) (dict_set value_eqb d k a) = Some (k, a)
  \/ exists k', value_eqb k' k = true
       /\ find (fun ka => Nat.eqb (snd ka) a) (dict_set value_eqb d k a) = Some (k', a).
Proof.
  induction d as [|[k' a'] d IH]; simpl; intros H.
  - left. now rewrite Nat.eqb_refl.
  - destruct (value_eqb k' k) eqn:E; simpl.
    + right. exists k'. now rewrite Nat.eqb_refl.
    + destruct (Nat.eqb_spec a' a) as [->|Ha]; [tauto|]. apply IH. tauto.
Qed.

(** Appending to the list of the current command, read on the table. *)
Lemma read_append h (d : dict value addr) c k v :
  c < List.length h ->
  NoDup (map snd d) -> NoDup (map fst d) -> In (k, c) d ->
  map (read_entry (append_at h c v)) d
  = table_append (map (read_entry h) d) k v.
Proof.
  intros Hc. unfold append_at, read_entry.
  induction d as [|[k' a'] d IH]; intros Hl Hk Hin; [destruct Hin|].
  simpl in *. inversion Hl as [|? ? Hnl Hdl]; inversion Hk as [|? ? Hnk Hdk]; subst.
  rewrite (deref_update h c _ a' Hc).
  destruct Hin as [[= -> ->]|Hin].
  - rewrite Nat.eqb_refl, value_eqb_refl. f_equal.
    apply map_ext_in. intros [k0 a0] H0. simpl.
    rewrite (deref_update h c _ a0 Hc).
    destruct (Nat.eqb_spec c a0) as [->|]; [|reflexivity].
    elim Hnl. apply in_map_iff. now exists (k0, a0).
  - assert (Hk' : value_eqb k' k = false).
    { destruct (value_eqb_spec k' k) as [->|]; [|reflexivity].
      elim Hnk. apply in_map_iff. now exists (k, c). }
    assert (Ha' : Nat.eqb c a' = false).
    { destruct (Nat.eqb_spec c a') as [->|]; [|reflexivity].
      elim Hnl. apply in_map_iff. now exists (k, a'). }
    rewrite Hk', Ha'. f_equal. now apply IH.
Qed.

Lemma read_append_unbound h (d : dict value addr) c v :
  c < List.length h -> ~ In c (map snd d) ->
  map (read_entry (append_at h c v)) d
  = map (read_entry h) d.
Proof.
  intros Hc Hn. apply map_ext_in. intros [k a] Hin. unfold append_at, read_entry.
  simpl. rewrite (deref_update h c _ a Hc).
  destruct (Nat.eqb_spec c a) as [->|]; [|reflexivity].
  elim Hn. apply in_map_iff. now exists (k, a).
Qed.

(** One cell: the store does what the fold does, and stays in order. *)
Lemma cell_step_fold st i c :
  store_ok st ->
  store_ok (cell_step st i c) /\ fold_view (cell_step st i c) = fold_cell (fold_view st) i c.
Proof.
  intros [Hcur Hbound Hlists Hkeys]. unfold cell_step, fold_cell.
  destruct (skipped c) eqn:Hskip; [split; [now constructor | reflexivity]|].
  destruct c as [v|]; [|split; [now constructor | reflexivity]].
  destruct st as [h d cur]. simpl in *.
  assert (Hfresh : ~ In (List.length h) (map snd d)).
  { intros Hin. specialize (Hbound _ Hin). lia. }
  destruct i as [|i]; simpl.
  - split.
    + constructor; simpl.
      * rewrite length_app. simpl. lia.
      * intros a Ha. rewrite length_app. simpl.
        apply dict_set_values_In in Ha as [Ha| ->]; [specialize (Hbound a Ha)|]; lia.
      * now apply dict_set_values_NoDup.
      * now apply dict_set_keys_NoDup.
    + unfold fold_view, read_module, current_command. simpl.
      rewrite (read_bind_new h d v Hbound). f_equal.
      destruct (find_bind_new d v (List.length h) Hfresh) as [->|(k' & Hk' & ->)]; simpl.
      * reflexivity.
      * destruct (value_eqb_spec k' v); congruence.
  - split.
    + constructor; simpl; unfold append_at; rewrite ?store_update_length; auto.
    + unfold fold_view, read_module, current_command. simpl.
      destruct (find (fun ka => Nat.eqb (snd ka) cur) d) as [[k a]|] eqn:Hfind; simpl.
      * apply find_some in Hfind as [Hin Ha]. simpl in Ha.
        apply Nat.eqb_eq in Ha. subst a.
        now rewrite (read_append h d cur k v Hcur Hlists Hkeys Hin).
      * rewrite read_append_unbound; [reflexivity | exact Hcur|].
        intros Hin. apply in_map_iff in Hin as ([k a] & Ha & Hin). simpl in Ha. subst a.
        pose proof (find_none _ _ Hfind _ Hin) as Hf. simpl in Hf.
        now rewrite Nat.eqb_refl in Hf.
Qed.

Lemma row_loop_fold r st i :
  store_ok st ->
  store_ok (row_loop st i r) /\ fold_view (row_loop st i r) = fold_row (fold_view st) i r.
Proof.
  revert st i. induction r as [|c r IH]; intros st i Hok; simpl; [now split|].
  destruct (cell_step_fold st i c Hok) as [Hok' Hview].
  destruct (IH _ (S i) Hok') as [Hok'' Hview'']. split; [exact Hok''|].
  now rewrite Hview'', Hview.
Qed.

Lemma sheet_loop_fold ws st :
  store_ok st ->
  store_ok (sheet_loop st ws)
  /\ fold_view (sheet_loop st ws) = fold_sheet (fold_view st) ws.
Proof.
  revert st. unfold sheet_loop, fold_sheet.
  induction ws as [|r ws IH]; intros st Hok; simpl; [now split|].
  destruct (row_loop_fold r st 0 Hok) as [Hok' Hview].
  destruct (IH _ Hok') as [Hok'' Hview'']. split; [exact Hok''|].
  now rewrite Hview'', Hview.
Qed.

Lemma sheet_init_ok : store_ok sheet_init.
Proof. constructor; simpl; [lia | intros a [] | constructor | constructor]. Qed.

(** The table of a sheet is the table of the fold. *)
Lemma load_sheet_fold ws : load_sheet ws = fst (fold_sheet ([], None) ws).
Proof.
  unfold load_sheet.
  destruct (sheet_loop_fold ws sheet_init sheet_init_ok) as [_ H].
  change ([], None) with (fold_view sheet_init). now rewrite <- H.
Qed.

Lemma fold_row_unbound t i r : fold_row (t, None) (S i) r = (t, None).
Proof.
  revert i. induction r as [|c r IH]; intros i; simpl; [reflexivity|].
  unfold fold_cell. destruct (skipped c); [apply IH|].
  destruct c; apply IH.
Qed.

Lemma fold_row_no_command r : row_has_command r = false -> fold_row ([], None) 0 r = ([], None).
Proof.
  destruct r as [|c r]; simpl; [reflexivity|]. intros H.
  apply negb_false_iff in H. unfold fold_cell. rewrite H. apply fold_row_unbound.
Qed.

Lemma fold_sheet_from_first_command ws :
  fold_sheet ([], None) ws = fold_sheet ([], None) (from_first_command ws).
Proof.
  induction ws as [|r ws IH]; simpl; [reflexivity|].
  destruct (row_has_command r) eqn:E; [reflexivity|].
  unfold fold_sheet in *. simpl. now rewrite (fold_row_no_command r E).
Qed.

Lemma table_append_set t k l v :
  table_append (dict_set value_eqb t k l) k v = dict_set value_eqb t k (l ++ [v])%list.
Proof.
  induction t as [|[k' l'] t IH]; simpl.
  - now rewrite value_eqb_refl.
  - destruct (value_eqb k' k) eqn:E; simpl; rewrite E; [reflexivity | now rewrite IH].
Qed.

(** The later columns of a command row extend the list of its command. *)
Lemma fold_row_bound t k l i r :
  fold_row (dict_set value_eqb t k l, Some k) (S i) r
  = (dict_set value_eqb t k (l ++ populated r)%list, Some k).
Proof.
  revert l i. induction r as [|c r IH]; intros l i.
  - simpl. now rewrite app_nil_r.
  - cbn [fold_row populated flat_map]. unfold fold_cell.
    destruct (skipped c) eqn:E; [apply IH|].
    destruct c as [v|]; [|discriminate]. cbn [fst snd].
    rewrite table_append_set, IH, <- app_assoc. reflexivity.
Qed.

Lemma load_sheet_keys_NoDup ws : NoDup (dict_keys (load_sheet ws)).
Proof.
  unfold load_sheet, read_module, dict_keys.
  destruct (sheet_loop_fold ws sheet_init sheet_init_ok) as [[_ _ _ Hk] _].
  rewrite map_map. exact Hk.
Qed.

Lemma load_sheet_command_row ws k r :
  skipped (Some k) = false ->
  load_sheet (ws ++ [Some k :: r])%list
  = dict_set value_eqb (load_sheet ws) k (populated r).
Proof.
  intros Hk. rewrite !load_sheet_fold. unfold fold_sheet.
  rewrite fold_left_app.
  set (st := fold_left _ ws _). change (fold_left _ ws _) with st.
  destruct st as [t cur].
  cbn [fold_left fold_row]. unfold fold_cell. rewrite Hk. cbn [fst snd].
  now rewrite (fold_row_bound t k [] 0 r).
Qed.

Lemma read_bound_new h (d : dict value addr) k a :
  dict_get value_eqb (map (read_entry h) (dict_set value_eqb d k a)) k
  = Some (deref h a).
Proof.
  induction d as [|[k' a'] d IH]; simpl.
  - now rewrite value_eqb_refl.
  - destruct (value_eqb k' k) eqn:E; simpl; rewrite E; [reflexivity | exact IH].
Qed.

Lemma subkeywords_dropped_sheet ws :
  load_sheet ws = load_sheet (from_first_command ws).
Proof.
  rewrite !load_sheet_fold. now rewrite fold_sheet_from_first_command.
Qed.

Lemma load_keywords_from_first_command wb :
  load_keywords wb
  = load_keywords (map (fun m => (fst m, from_first_command (snd m))) wb).
Proof.
  unfold load_keywords. generalize (@nil (string * module_table)).
  induction wb as [|[name ws] wb IH]; intros acc; simpl; [reflexivity|].
  rewrite <- subkeywords_dropped_sheet. apply IH.
Qed.

(** With sheet names that differ, as openpyxl has them, the table has
    the sheets in order, each with the table of its rows. *)
Lemma load_keywords_sheets wb :
  NoDup (map fst wb) ->
  load_keywords wb = map (fun m => (fst m, load_sheet (snd m))) wb.
Proof.
  unfold load_keywords.
  assert (H : forall acc : keyword_table,
             NoDup (map fst acc ++ map fst wb) ->
             fold_left (fun k '(name, ws) => dict_set String.eqb k name (load_sheet ws)) wb acc
             = (acc ++ map (fun m => (fst m, load_sheet (snd m))) wb)%list).
  { induction wb as [|[name ws] wb IH]; intros acc Hnd; simpl.
    - now rewrite app_nil_r.
    - assert (Hset : dict_set String.eqb acc name (load_sheet ws)
                     = (acc ++ [(name, load_sheet ws)])%list).
      { simpl in Hnd. apply NoDup_remove_2 in Hnd.
        assert (Hn : ~ In name (map fst acc)) by (intros Hin; apply Hnd, in_or_app; now left).
        clear -Hn. induction acc as [|[k v] acc IHa]; simpl; [reflexivity|].
        destruct (String.eqb_spec k name) as [->|Hk]; [elim Hn; now left|].
        f_equal. apply IHa. intros Hin. apply Hn. now right. }
      rewrite Hset, IH, <- app_assoc; [reflexivity|].
      rewrite map_app. simpl. rewrite <- app_assoc. exact Hnd. }
  intros Hnd. now rewrite H.
Qed.

(* ------------------------------------------------------------------ *)
(** ** The keyword table: the claims                                    *)
(* ------------------------------------------------------------------ *)

(** C4, the claim as it is worded, fails. The loop has no error of its
    own: a sub-keyword cell that comes before any command cell of its
    module is appended to the list the loop starts with, which no key of
    the table names, and the table is returned. *)
Lemma subkeyword_before_command_counterexample :
  subkeyword_before_command
    [[None; Some (VStr "X")]; [Some (VStr "CMD"); Some (VStr "Y")]] = true
  /\ load_keywords
       [("MOD", [[None; Some (VStr "X")]; [Some (VStr "CMD"); Some (VStr "Y")]])]
     = [("MOD", [(VStr "CMD", [VStr "Y"])])].
Proof. split; reflexivity. Qed.

(** C4, amended. Building the keyword table does not fail on a
    sub-keyword cell that comes before any command cell of its module:
    the rows before the first command cell of a sheet are dropped, and
    the table that is returned is the table of the rows from the first
    command cell of each sheet on. *)
Theorem subkeywords_before_first_command_dropped (wb : workbook) :
  load_keywords wb
  = load_keywords (map (fun m => (fst m, from_first_command (snd m))) wb)
  /\ (forall ws, load_sheet ws = load_sheet (from_first_command ws))
  /\ (forall r ws, row_has_command r = false -> load_sheet (r :: ws) = load_sheet ws).
Proof.
  split; [apply load_keywords_from_first_command|].
  split; [apply subkeywords_dropped_sheet|].
  intros r ws Hr.
  rewrite (subkeywords_dropped_sheet (r :: ws)), (subkeywords_dropped_sheet ws).
  simpl. now rewrite Hr.
Qed.

(** C5, the claim as it is worded, fails. A command is opened by a
    populated cell of the first column, not by the first populated cell
    of a row: a row whose first column is empty continues the command of
    the rows above. *)
Lemma first_populated_cell_counterexample :
  load_sheet [[Some (VStr "CMD"); Some (VStr "X")]; [None; Some (VStr "Y")]]
    = [(VStr "CMD", [VStr "X"; VStr "Y"])]
  /\ table_first_cell_opens
       [[Some (VStr "CMD"); Some (VStr "X")]; [None; Some (VStr "Y")]]
     = [(VStr "CMD", [VStr "X"]); (VStr "Y", [])].
Proof. split; reflexivity. Qed.

(** C5, amended. For every sequence of rows of a module, table
    construction is the fold in which a populated cell of the first
    column starts a new command entry and resets the current-command
    accumulator, a populated cell of a later column is appended to the
    sub-keyword list of the current command, on the same row or on a
    later one, and cells that are empty or absent leave the fold state as
    it is. *)
Theorem table_loop_is_fold (ws : sheet) :
  load_sheet ws = fst (fold_sheet ([], None) ws)
  /\ (forall s i c, skipped c = true -> fold_cell s i c = s)
  /\ (forall t cur v, skipped (Some v) = false ->
        fold_cell (t, cur) 0 (Some v) = (dict_set value_eqb t v [], Some v))
  /\ (forall t k i v, skipped (Some v) = false ->
        fold_cell (t, Some k) (S i) (Some v) = (table_append t k v, Some k)).
Proof.
  split; [apply load_sheet_fold|]. repeat split.
  - intros s i c H. unfold fold_cell. now rewrite H.
  - intros t cur v H. unfold fold_cell. now rewrite H.
  - intros t k i v H. unfold fold_cell. now rewrite H.
Qed.

(** C9. The command names of a module are unique keys of its table, and
    this is kept by replacement: a row with the command [k] in the first
    column binds [k] to the sub-keywords of this row alone, in the place
    [k] had if it was bound before, whatever sub-keywords an earlier
    occurrence had collected. *)
Theorem command_names_unique_by_replacement (ws : sheet) :
  NoDup (dict_keys (load_sheet ws))
  /\ forall k r, skipped (Some k) = false ->
       load_sheet (ws ++ [Some k :: r])%list
       = dict_set value_eqb (load_sheet ws) k (populated r)
       /\ dict_get value_eqb (load_sheet (ws ++ [[Some k]])%list) k = Some [].
Proof.
  split; [apply load_sheet_keys_NoDup|].
  intros k r Hk. split; [now apply load_sheet_command_row|].
  pose proof (load_sheet_command_row ws k [] Hk) as H.
  transitivity (dict_get value_eqb (dict_set value_eqb (load_sheet ws) k (populated [])) k);
    [f_equal; exact H | apply dict_get_set_same].
Qed.

Example command_rebound :
  load_sheet [[Some (VStr "CMD"); Some (VStr "X")]; [Some (VStr "END")];
              [Some (VStr "CMD"); Some (VStr "Y")]]
  = [(VStr "CMD", [VStr "Y"]); (VStr "END", [])].
Proof. reflexivity. Qed.

(** C10, the claim as it is worded, fails. The test of the loop passes
    over [None] and the empty string only, but a cell that passes the
    test is not always in the table: a number in a later column, before
    any command cell of the sheet, goes to the list the loop starts with
    and is lost. *)
Lemma populated_cell_counterexample :
  skipped (Some (VInt 5)) = false
  /\ load_sheet [[None; Some (VInt 5)]; [Some (VStr "CMD"); Some (VInt 7)]]
     = [(VStr "CMD", [VInt 7])].
Proof. split; reflexivity. Qed.

(** C10, amended. The loop passes over a cell only when it is [None] or
    the empty string. Every other cell, a number as well, is taken as it
    is: in the first column it becomes a command name of the table, bound
    to a new empty list that is the current one; in a later column it
    becomes the last sub-keyword of the current command when a command
    cell came before it in the sheet, and otherwise it goes to the list
    the loop starts with, which is not part of the table. The inline
    loop of [build.py] does the same. *)
Theorem populated_cells_taken_verbatim (st : loop_state) (i : nat) (v : value) :
  store_ok st ->
  skipped (Some v) = false ->
  (forall c, skipped c = true <-> c = None \/ c = Some (VStr ""))
  /\ (forall c, skipped c = true -> cell_step st i c = st)
  /\ (forall n, skipped (Some (VInt n)) = false)
  /\ read_module (cell_step st 0 (Some v)) = dict_set value_eqb (read_module st) v []
  /\ current_command (cell_step st 0 (Some v)) = Some v
  /\ (forall k, current_command st = Some k ->
        read_module (cell_step st (S i) (Some v)) = table_append (read_module st) k v
        /\ current_command (cell_step st (S i) (Some v)) = Some k)
  /\ (current_command st = None ->
        read_module (cell_step st (S i) (Some v)) = read_module st
        /\ current_command (cell_step st (S i) (Some v)) = None)
  /\ (forall c, cell_step_inline st i c = cell_step st i c)
  /\ (forall c, store_ok (cell_step st i c)).
Proof.
  intros Hok Hv.
  destruct (cell_step_fold st 0 (Some v) Hok) as [_ H0].
  destruct (cell_step_fold st (S i) (Some v) Hok) as [_ HS].
  unfold fold_view, fold_cell in H0, HS. rewrite Hv in H0, HS. cbn [fst snd] in H0, HS.
  split; [|split; [|split; [|split; [|split; [|split; [|split; [|split]]]]]]];
    [| | | | | | | | intros c; now apply cell_step_fold].
  - intros [[s|n]|]; simpl.
    + destruct s; simpl; split; intros H; auto; try discriminate.
      destruct H as [H|H]; discriminate.
    + split; [discriminate | intros [H|H]; discriminate].
    + tauto.
  - intros c H. unfold cell_step. now rewrite H.
  - reflexivity.
  - now injection H0.
  - now injection H0.
  - intros k Hk. rewrite Hk in HS. injection HS as H1 H2. now split.
  - intros Hk. rewrite Hk in HS. injection HS as H1 H2. now split.
  - intros c. unfold cell_step_inline, cell_step. destruct c as [[s|n]|]; reflexivity.
Qed.

Lemma populated_cells_taken_verbatim_witness :
  read_module (cell_step sheet_init 0 (Some (VInt 5))) = [(VInt 5, [])]
  /\ read_module (cell_step sheet_init 1 (Some (VInt 5))) = [].
Proof.
  assert (Hok : store_ok sheet_init).
  { constructor; simpl; [lia | intros a [] | constructor | constructor]. }
  destruct (populated_cells_taken_verbatim sheet_init 0 (VInt 5) Hok eq_refl)
    as (_ & _ & _ & H0 & _ & _ & HS & _).
  split; [exact H0 | now apply HS].
Defined.

(* ------------------------------------------------------------------ *)
(** ** The rule generator                                               *)
(* ------------------------------------------------------------------ *)

Lemma mapM_as_str vs :
  forallb is_keyword vs = true -> mapM as_str vs = OK (map py_str vs).
Proof.
  induction vs as [|v vs IH]; simpl; intros H; [reflexivity|].
  apply andb_true_iff in H as [Hv Hvs]. destruct v; [|discriminate].
  simpl. now rewrite (IH Hvs).
Qed.

Lemma keywords_nonempty vs :
  forallb is_keyword vs = true ->
  forallb (fun w => negb (is_empty w)) (sort keyword_leb (map py_str vs)) = true.
Proof.
  intros H. rewrite forallb_forall in *. intros w Hw.
  apply sort_In in Hw. apply in_map_iff in Hw as (v & <- & Hv).
  specialize (H v Hv). now destruct v.
Qed.

(** Sorting and optimizing a list of keywords does not raise. *)
Lemma sorted_then_optimized vs :
  forallb is_keyword vs = true ->
  (sorted <- sorted_longest_first vs ;; optimize_pattern sorted)
  = OK (keywords_pattern vs).
Proof.
  intros H. unfold sorted_longest_first. rewrite (mapM_as_str vs H). cbn [bind].
  apply optimize_pattern_strings. now apply keywords_nonempty.
Qed.

Lemma command_rule_wf cmds command :
  is_keyword (fst command) && forallb is_keyword (snd command) = true ->
  command_rule cmds command = OK (command_rule_text cmds command).
Proof.
  destruct command as [k subs]. cbn [fst snd]. intros H.
  apply andb_true_iff in H as [_ Hsubs].
  unfold command_rule, command_rule_text. cbn [fst snd].
  destruct subs as [|v subs]; [reflexivity|].
  pose proof (sorted_then_optimized (v :: subs) Hsubs) as Hp.
  destruct (sorted_longest_first (v :: subs)) as [sorted|e]; cbn [bind] in *;
    [|discriminate].
  now rewrite Hp.
Qed.

Lemma mapM_wf {A B} (f : A -> result B) (g : A -> B) l :
  (forall x, In x l -> f x = OK (g x)) -> mapM f l = OK (map g l).
Proof.
  induction l as [|x l IH]; intros H; simpl; [reflexivity|].
  rewrite (H x (or_introl eq_refl)). cbn [bind].
  rewrite IH by (intros y Hy; apply H; now right). reflexivity.
Qed.

Lemma repository_entry_wf name m :
  wf_module m = true ->
  repository_entry name m = OK (repository_entry_text (name, m)).
Proof.
  intros H. unfold repository_entry, repository_entry_text. cbn [fst snd].
  assert (Hkeys : forallb is_keyword (dict_keys m) = true).
  { unfold wf_module in H. rewrite forallb_forall in *. intros k Hk.
    apply in_map_iff in Hk as (cmd & <- & Hcmd).
    specialize (H cmd Hcmd). now apply andb_true_iff in H as [H _]. }
  pose proof (sorted_then_optimized (dict_keys m) Hkeys) as Hp.
  destruct (sorted_longest_first (dict_keys m)) as [sorted|e]; cbn [bind] in *;
    [|discriminate].
  rewrite Hp. cbn [bind].
  rewrite (mapM_wf (command_rule (keywords_pattern (dict_keys m)))
                   (command_rule_text (keywords_pattern (dict_keys m)))).
  - reflexivity.
  - intros cmd Hcmd. apply command_rule_wf.
    unfold wf_module in H. rewrite forallb_forall in H. now apply H.
Qed.

Lemma module_loop_wf t acc :
  wf_table t = true ->
  foldM module_step t acc
  = OK ((fst acc ++ map (fun m => module_begin_end_pattern (fst m)) (scoped_modules t))%list,
        (snd acc ++ map repository_entry_text (scoped_modules t))%list).
Proof.
  revert acc. unfold wf_table.
  induction t as [|[name m] t IH]; intros acc H; simpl.
  - rewrite !app_nil_r. now destruct acc.
  - simpl in H. destruct (String.eqb name "BASIC"); simpl in *.
    + now apply IH.
    + apply andb_true_iff in H as [Hm Ht].
      rewrite (repository_entry_wf name m Hm). cbn [bind].
      rewrite (IH _ Ht). cbn [fst snd]. now rewrite <- !app_assoc.
Qed.

Lemma generate_module_patterns_wf t :
  wf_table t = true ->
  generate_module_patterns t
  = OK (map (fun m => module_begin_end_pattern (fst m)) (scoped_modules t),
        map repository_entry_text (scoped_modules t)).
Proof. intros H. unfold generate_module_patterns. now rewrite module_loop_wf. Qed.

(** Whatever the table holds, a run that returns has made one rule of
    each kind per module other than the base module, in table order. *)
Lemma module_loop_returns t acc ms rs :
  foldM module_step t acc = OK (ms, rs) ->
  ms = (fst acc ++ map (fun m => module_begin_end_pattern (fst m)) (scoped_modules t))%list
  /\ List.length rs = List.length (snd acc) + List.length (scoped_modules t).
Proof.
  revert acc. induction t as [|[name m] t IH]; intros acc H; simpl in *.
  - injection H as H. subst acc. simpl.
    now rewrite app_nil_r, Nat.add_0_r.
  - destruct (String.eqb name "BASIC"); simpl in *.
    + now apply IH.
    + destruct (repository_entry name m) as [entry|e]; cbn [bind] in H; [|discriminate].
      apply IH in H as [-> Hlen]. cbn [fst snd] in *.
      rewrite <- app_assoc. split; [reflexivity|].
      rewrite length_app in Hlen. simpl in *. lia.
Qed.

Lemma set_add_all_keywords seen l :
  forallb is_keyword seen = true -> forallb is_keyword l = true ->
  forallb is_keyword (Inline.set_add_all seen l) = true.
Proof.
  revert seen. induction l as [|v l IH]; intros seen Hs Hl; simpl; [exact Hs|].
  simpl in Hl. apply andb_true_iff in Hl as [Hv Hl].
  destruct (existsb (value_eqb v) seen); apply IH; auto.
  rewrite forallb_app, Hs. simpl. now rewrite Hv.
Qed.

Lemma wf_module_keys m : wf_module m = true -> forallb is_keyword (dict_keys m) = true.
Proof.
  unfold wf_module. rewrite !forallb_forall. intros H k Hk.
  apply in_map_iff in Hk as (cmd & <- & Hcmd).
  specialize (H cmd Hcmd). now apply andb_true_iff in H as [H _].
Qed.

Lemma wf_module_subkeywords m :
  wf_module m = true -> forallb is_keyword (flat_map snd m) = true.
Proof.
  unfold wf_module. rewrite !forallb_forall. intros H v Hv.
  apply in_flat_map in Hv as (cmd & Hcmd & Hv).
  specialize (H cmd Hcmd). apply andb_true_iff in H as [_ H].
  rewrite forallb_forall in H. now apply H.
Qed.

Lemma inline_loop_wf t acc :
  wf_table t = true ->
  foldM Inline.module_step t acc
  = OK ((fst acc ++ map (fun m => Inline.text1_rule (fst m)) (scoped_modules t))%list,
        (snd acc ++ map inline_entry (scoped_modules t))%list).
Proof.
  revert acc. unfold wf_table.
  induction t as [|[name m] t IH]; intros acc H; simpl.
  - rewrite !app_nil_r. now destruct acc.
  - simpl in H. destruct (String.eqb name "BASIC"); simpl in *.
    + now apply IH.
    + apply andb_true_iff in H as [Hm Ht].
      rewrite (mapM_as_str (Inline.set_add_all [] (dict_keys m)))
        by (apply set_add_all_keywords; [reflexivity | now apply wf_module_keys]).
      cbn [bind].
      rewrite (mapM_as_str (Inline.set_add_all [] (flat_map snd m)))
        by (apply set_add_all_keywords; [reflexivity | now apply wf_module_subkeywords]).
      cbn [bind]. rewrite (IH _ Ht). cbn [fst snd]. now rewrite <- !app_assoc.
Qed.

Lemma existsb_sort {A} (leb : A -> A -> bool) (P : A -> bool) l :
  existsb P (sort leb l) = existsb P l.
Proof.
  apply eq_iff_eq_true. rewrite !existsb_exists.
  split; intros (x & Hx & HP); exists x; split; auto; now apply (sort_In _ leb).
Qed.

(* ------------------------------------------------------------------ *)
(** ** The rule generator and the grammar: the claims                   *)
(* ------------------------------------------------------------------ *)

(** C3, the claim as it is worded, fails for one module: the commands of
    the module named BASIC get no rule at all, with or without
    sub-keywords. *)
Lemma base_module_commands_counterexample :
  wf_table [("BASIC", [(VStr "LET", [VStr "X"]); (VStr "END", [])])] = true
  /\ generate_module_patterns
       [("BASIC", [(VStr "LET", [VStr "X"]); (VStr "END", [])])]
     = OK ([], []).
Proof. split; reflexivity. Qed.

(** C3, amended. For every keyword table of non-empty text, every module
    other than BASIC and every command of that module:
    [generate_module_patterns] writes, in the repository entry of the
    module and in the order of the commands, a begin/end region rule when
    the command has sub-keywords -- its begin is the command token at
    line start or after a semicolon, followed by a semicolon, the end
    of the line or a space; its end is the lookahead for a command of
    the same module at line start or after a semicolon, for a semicolon,
    or for a PROG statement; its inner match is the optimized pattern of
    the sub-keywords -- and a single-line match rule on the same command
    token, with no region, when the command has none. The pattern of the
    module's commands in the end lookahead accepts, up to case, the
    command names of the module and nothing else when they are free of
    characters of the pattern language. *)
Theorem command_rules_of_scoped_modules (t : keyword_table)
    (name : string) (m : module_table) :
  wf_table t = true ->
  In (name, m) t -> name <> "BASIC" ->
  let cmds := keywords_pattern (dict_keys m) in
  (exists ms rs,
      generate_module_patterns t = OK (ms, rs)
      /\ In (repository_entry_open name
             ++ String.concat "" (map (command_rule_text cmds) m)
             ++ repository_entry_close) rs)
  /\ (forall k v vs,
        command_rule_text cmds (k, v :: vs)
        = command_region_rule (py_str k) cmds (keywords_pattern (v :: vs)))
  /\ (forall k, command_rule_text cmds (k, []) = command_match_rule (py_str k))
  /\ (forallb plain_keyword (map py_str (dict_keys m)) = true ->
      forall s, is_empty s = false ->
        match_whole true cmds s
        = Some (existsb (fun k => eq_ci (py_str k) s) (dict_keys m))).
Proof.
  intros Hwf Hin Hname cmds. split; [|split; [|split]].
  - exists (map (fun m => module_begin_end_pattern (fst m)) (scoped_modules t)),
           (map repository_entry_text (scoped_modules t)).
    split; [now apply generate_module_patterns_wf|].
    change (repository_entry_open name
            ++ String.concat "" (map (command_rule_text cmds) m)
            ++ repository_entry_close)
      with (repository_entry_text (name, m)).
    apply in_map. unfold scoped_modules. apply filter_In. split; [exact Hin|].
    cbn [fst]. apply negb_true_iff. now apply String.eqb_neq.
  - reflexivity.
  - reflexivity.
  - intros Hplain s Hs. unfold cmds, keywords_pattern.
    rewrite (match_whole_optimized true); [| |reflexivity|exact Hs].
    + f_equal. rewrite existsb_sort. apply existsb_over_map.
    + rewrite forallb_forall in *. intros w Hw. apply Hplain.
      now apply (sort_In _ keyword_leb).
Qed.

Lemma command_rules_of_scoped_modules_witness :
  exists ms rs,
    generate_module_patterns
      [("BASIC", [(VStr "LET", [])]);
       ("AQUA", [(VStr "NORM", [VStr "DC"; VStr "NDC"]); (VStr "END", [])])]
    = OK (ms, rs)
    /\ In (repository_entry_open "AQUA"
           ++ command_region_rule "NORM" "END|NORM" "DC|NDC"
           ++ command_match_rule "END"
           ++ repository_entry_close) rs.
Proof.
  destruct (command_rules_of_scoped_modules
              [("BASIC", [(VStr "LET", [])]);
               ("AQUA", [(VStr "NORM", [VStr "DC"; VStr "NDC"]); (VStr "END", [])])]
              "AQUA" [(VStr "NORM", [VStr "DC"; VStr "NDC"]); (VStr "END", [])])
    as [(ms & rs & Hgen & Hin) _].
  - reflexivity.
  - right. left. reflexivity.
  - discriminate.
  - exists ms, rs. split; [exact Hgen | exact Hin].
Defined.

Example generate_module_patterns_example :
  generate_module_patterns
    [("BASIC", [(VStr "LET", [])]);
     ("Aqua", [(VStr "NORM", [VStr "DC"; VStr "NDC"; VStr "X"]); (VStr "END", [])])]
  = OK (["
  {
  begin: '(?i)^ *([\\$\\+-]?PROG)( +Aqua)( .*)?$'
  beginCaptures:
    1: name: 'support.class.aqua.sofistik'
    2: name: 'support.class.aqua.sofistik'
    3:
      name: 'comment.line.aqua.sofistik'
      patterns: [{ include: 'text.todo' }]
  end: '(?i)(?=^ *[\\$\\+-]?PROG\\b)'
  name: 'module.aqua.sofistik'
  patterns: [
    {'include': '#Aqua'}
    ]
  }"],
        ["
  Aqua: {
    patterns: [
      { include: '#preprocessorDefine' }
      {
        begin: '(?i)(?:^ *|; *)(NORM)(?=;|$| )'
        beginCaptures:
          1: name: 'keyword.control.sofistik'
        end: '(?i)(?=(?:^ *|; *)(?:END|NORM)|;|^ *[\\$\\+-]?PROG\\b)'
        patterns: [
          {
            match: '(?i)(?<!\\w)(DC|NDC|X)(?!\\w)'
            name: 'entity.name.function.sofistik'
          }
          { include: '#normalText' }
        ]
      }
      {
        match: '(?i)(?:^ *|; *)(END)(?=;|$| )'
        captures:
          1: name: 'keyword.control.sofistik'
      }
      { include: '#normalText' }
    ]
  }"]).
Proof. reflexivity. Qed.

(** C7. For every keyword table the module named BASIC, and no other,
    is passed over. A run of [generate_module_patterns] that returns has
    made one region rule and one repository entry for each module whose
    name is not BASIC, in table order, and none for BASIC; on a table of
    non-empty text the run returns, and so does the module loop of the
    inline [build.py], with the same modules. The name is a literal of
    the code; nothing of the input selects it. *)
Theorem base_module_excluded (t : keyword_table) :
  (forall m, In m (scoped_modules t) <-> In m t /\ fst m <> "BASIC")
  /\ (forall ms rs, generate_module_patterns t = OK (ms, rs) ->
        ms = map (fun m => module_begin_end_pattern (fst m)) (scoped_modules t)
        /\ List.length rs = List.length (scoped_modules t))
  /\ (wf_table t = true ->
      generate_module_patterns t
        = OK (map (fun m => module_begin_end_pattern (fst m)) (scoped_modules t),
              map repository_entry_text (scoped_modules t))
      /\ Inline.module_rules t
         = OK (map (fun m => Inline.text1_rule (fst m)) (scoped_modules t),
               map inline_entry (scoped_modules t))).
Proof.
  split; [|split].
  - intros m. unfold scoped_modules. rewrite filter_In, negb_true_iff.
    now rewrite String.eqb_neq.
  - intros ms rs H. now apply module_loop_returns in H.
  - intros Hwf. split; [now apply generate_module_patterns_wf|].
    unfold Inline.module_rules. now rewrite inline_loop_wf.
Qed.

Example base_module_excluded_example :
  exists rs,
    generate_module_patterns
      [("BASIC", [(VStr "LET", [VStr "X"])]);
       ("basic", [(VStr "END", [])]);
       ("AQUA", [(VStr "NORM", [VStr "DC"])])]
    = OK ([module_begin_end_pattern "basic"; module_begin_end_pattern "AQUA"], rs)
    /\ List.length rs = 2.
Proof. eexists. split; reflexivity. Qed.

(** C8. Grammar generation is a function of the keyword table: two
    evaluations of [generate_grammar] on the same table give the same
    result, and so do two runs that write the grammar file. A run that
    returns has written the fixed header, the region rules of the
    modules other than BASIC in the order of the table, the fixed
    repository and one entry per such module; on a table of non-empty
    text the run returns, the entries in the order of the table too. *)
Theorem generate_grammar_deterministic (t : keyword_table) :
  (forall out1 out2,
      generate_grammar t = out1 -> generate_grammar t = out2 -> out1 = out2)
  /\ (forall file1 file2,
        grammar_file_text t = file1 -> grammar_file_text t = file2 -> file1 = file2)
  /\ (forall g, generate_grammar t = OK g ->
        exists rs,
          List.length rs = List.length (scoped_modules t)
          /\ g = (grammar_header
                  ++ String.concat ""
                       (map (fun m => module_begin_end_pattern (fst m))
                            (scoped_modules t)))
                 ++ repository_base_patterns ++ String.concat "" rs)
  /\ (wf_table t = true ->
      generate_grammar t
      = OK ((grammar_header
             ++ String.concat ""
                  (map (fun m => module_begin_end_pattern (fst m)) (scoped_modules t)))
            ++ repository_base_patterns
            ++ String.concat "" (map repository_entry_text (scoped_modules t)))).
Proof.
  split; [|split; [|split]].
  - intros out1 out2 <- <-. reflexivity.
  - intros file1 file2 <- <-. reflexivity.
  - unfold generate_grammar, generate_module_patterns. intros g Hg.
    destruct (foldM module_step t ([], [])) as [[ms rs]|e] eqn:E; cbn [bind] in Hg;
      [|discriminate].
    apply module_loop_returns in E as [-> Hlen]. injection Hg as <-.
    exists rs. split; [exact Hlen | reflexivity].
  - intros Hwf. unfold generate_grammar.
    now rewrite (generate_module_patterns_wf t Hwf).
Qed.


(* ================================================================== *)
(** * Further properties of the table loop                              *)
(* ================================================================== *)

Lemma fold_sheet_app s ws1 ws2 :
  fold_sheet s (ws1 ++ ws2)%list = fold_sheet (fold_sheet s ws1) ws2.
Proof. unfold fold_sheet. apply fold_left_app. Qed.

Lemma fold_sheet_cons s r ws :
  fold_sheet s (r :: ws) = fold_sheet (fold_row s 0 r) ws.
Proof. reflexivity. Qed.

Lemma fold_row_app r1 r2 s i :
  fold_row s i (r1 ++ r2)%list
  = fold_row (fold_row s i r1) (i + List.length r1) r2.
Proof.
  revert s i. induction r1 as [|c r1 IH]; intros s i; simpl.
  - now rewrite Nat.add_0_r.
  - rewrite IH. simpl. now rewrite Nat.add_succ_r.
Qed.

(** Past the first column the index of a cell is of no account. *)
Lemma fold_row_later r s i j :
  fold_row s (S i) r = fold_row s (S j) r.
Proof.
  revert s i j. induction r as [|c r IH]; intros s i j; simpl; [reflexivity|].
  apply (IH _ (S i) (S j)).
Qed.

Lemma fold_row_blank r s i :
  forallb skipped r = true -> fold_row s i r = s.
Proof.
  revert s i. induction r as [|c r IH]; intros s i H; simpl in *; [reflexivity|].
  apply andb_true_iff in H as [Hc Hr].
  unfold fold_cell. rewrite Hc. now apply IH.
Qed.

Lemma populated_In v r :
  In v (populated r) <-> In (Some v) r /\ skipped (Some v) = false.
Proof.
  unfold populated. rewrite in_flat_map. split.
  - intros [c [Hc Hv]]. destruct (skipped c) eqn:Hs; [contradiction|].
    destruct c as [u|]; [|contradiction].
    destruct Hv as [->|[]]. now split.
  - intros [Hin Hs]. exists (Some v). split; [exact Hin|].
    rewrite Hs. now left.
Qed.

Lemma dict_keys_table_append t k v :
  dict_keys (table_append t k v) = dict_keys t.
Proof.
  unfold dict_keys. induction t as [|[k' l] t IH]; simpl; [reflexivity|].
  destruct (value_eqb k' k); simpl; [reflexivity|]. now rewrite IH.
Qed.

Lemma table_append_In t k v k' subs :
  In (k', subs) (table_append t k v) ->
  In (k', subs) t \/ exists old, In (k', old) t /\ subs = (old ++ [v])%list.
Proof.
  induction t as [|[k0 l] t IH]; simpl; [tauto|].
  destruct (value_eqb k0 k); simpl.
  - intros [H|H].
    + inversion H; subst. right. exists l. split; [now left|reflexivity].
    + left. now right.
  - intros [H|H]; [left; now left|].
    destruct (IH H) as [H'|[old [H1 H2]]]; [left; now right|].
    right. exists old. split; [now right|exact H2].
Qed.

Lemma dict_set_In (t : module_table) k l k' subs :
  In (k', subs) (dict_set value_eqb t k l) ->
  In (k', subs) t \/ subs = l.
Proof.
  induction t as [|[k0 l0] t IH]; simpl.
  - intros [H|[]]. inversion H. now right.
  - destruct (value_eqb k0 k); simpl.
    + intros [H|H]; [inversion H; now right|left; now right].
    + intros [H|H]; [left; now left|].
      destruct (IH H) as [H'|H']; [left; now right|now right].
Qed.

Lemma populated_one c :
  populated [c] = if skipped c then [] else match c with Some v => [v] | None => [] end.
Proof. unfold populated. simpl. now rewrite app_nil_r. Qed.

Lemma fold_cell_from A B s i c :
  table_from A B s ->
  table_from
    (A ++ match i with O => populated [c] | S _ => [] end)%list
    (B ++ match i with O => [] | S _ => populated [c] end)%list
    (fold_cell s i c).
Proof.
  intros [HA HB]. unfold fold_cell. rewrite populated_one.
  destruct (skipped c) eqn:Hs.
  - destruct i; rewrite !app_nil_r; now split.
  - destruct c as [v|]; [|discriminate].
    destruct i as [|i].
    + rewrite app_nil_r. split; cbn [fst snd].
      * intros k. rewrite (dict_set_keys_In _ (fst s) v [] k), in_app_iff, HA.
        simpl. intuition congruence.
      * intros k subs u Hin Hu.
        destruct (dict_set_In _ _ _ _ _ Hin) as [H| ->]; [|destruct Hu].
        eapply HB; eassumption.
    + rewrite app_nil_r. destruct (snd s) as [k0|] eqn:Hcur.
      * split; cbn [fst snd].
        -- intros k. rewrite dict_keys_table_append. apply HA.
        -- intros k subs u Hin Hu. rewrite in_app_iff.
           destruct (table_append_In _ _ _ _ _ Hin) as [H|[old [H1 ->]]].
           ++ left. eapply HB; eassumption.
           ++ apply in_app_iff in Hu as [Hu|[<-|[]]].
              ** left. eapply HB; eassumption.
              ** right. now left.
      * split; [exact HA|].
        intros k subs u Hin Hu. rewrite in_app_iff. left.
        eapply HB; eassumption.
Qed.

Lemma populated_cons c r :
  populated (c :: r) = (populated [c] ++ populated r)%list.
Proof. unfold populated. simpl. now rewrite app_nil_r. Qed.

Lemma fold_row_later_from r A B s i :
  table_from A B s ->
  table_from A (B ++ populated r)%list (fold_row s (S i) r).
Proof.
  revert A B s i. induction r as [|c r IH]; intros A B s i H.
  - cbn [fold_row]. change (populated []) with (@nil value).
    now rewrite app_nil_r.
  - cbn [fold_row]. rewrite populated_cons, app_assoc.
    apply (fold_cell_from A B s (S i) c) in H. rewrite app_nil_r in H.
    now apply (IH _ _ _ (S i)).
Qed.

Lemma fold_row_from r A B s :
  table_from A B s ->
  table_from (A ++ populated (firstn 1 r))%list
             (B ++ populated (skipn 1 r))%list (fold_row s 0 r).
Proof.
  intros H. destruct r as [|c r].
  - cbn [fold_row firstn skipn]. change (populated []) with (@nil value).
    now rewrite !app_nil_r.
  - cbn [fold_row firstn skipn].
    apply (fold_cell_from A B s 0 c) in H. rewrite app_nil_r in H.
    now apply fold_row_later_from.
Qed.

Lemma fold_sheet_from ws A B s :
  table_from A B s ->
  table_from (A ++ flat_map (fun r => populated (firstn 1 r)) ws)%list
             (B ++ flat_map (fun r => populated (skipn 1 r)) ws)%list
             (fold_sheet s ws).
Proof.
  revert A B s. induction ws as [|r ws IH]; intros A B s H.
  - simpl. now rewrite !app_nil_r.
  - rewrite fold_sheet_cons. apply fold_row_from with (r := r) in H.
    apply IH in H. simpl. now rewrite !app_assoc.
Qed.

Lemma load_sheet_from ws :
  table_from (flat_map (fun r => populated (firstn 1 r)) ws)
             (flat_map (fun r => populated (skipn 1 r)) ws)
             (load_sheet ws, snd (fold_sheet ([], None) ws)).
Proof.
  rewrite load_sheet_fold. rewrite <- surjective_pairing.
  apply (fold_sheet_from ws [] [] ([], None)).
  split; simpl; [tauto|]. intros k subs v [].
Qed.

Lemma first_cell_In k r :
  In k (populated (firstn 1 r))
  <-> hd_error r = Some (Some k) /\ skipped (Some k) = false.
Proof.
  rewrite populated_In. destruct r as [|c r]; simpl.
  - split; [intros [[] _]|intros [H _]; discriminate].
  - split.
    + intros [[->|[]] Hs]. now split.
    + intros [H Hs]. inversion H. split; [now left|exact Hs].
Qed.

(** The sub-keywords and commands of a loaded sheet are never empty
    text. *)
Lemma load_sheet_populated ws :
  forall k subs, In (k, subs) (load_sheet ws) ->
    skipped (Some k) = false /\ forall v, In v subs -> skipped (Some v) = false.
Proof.
  intros k subs Hin. destruct (load_sheet_from ws) as [HA HB].
  cbn [fst] in HA, HB. split.
  - assert (Hk : In k (dict_keys (load_sheet ws))).
    { unfold dict_keys. apply in_map_iff. now exists (k, subs). }
    apply HA in Hk. apply in_flat_map in Hk as [r [_ Hk]].
    now apply first_cell_In in Hk.
  - intros v Hv. specialize (HB _ _ _ Hin Hv).
    apply in_flat_map in HB as [r [_ HB]]. now apply populated_In in HB.
Qed.

Lemma load_sheet_cells (ws : sheet) :
  (forall k, In k (dict_keys (load_sheet ws))
             <-> exists r, In r ws /\ hd_error r = Some (Some k)
                           /\ skipped (Some k) = false)
  /\ (forall k subs v, In (k, subs) (load_sheet ws) -> In v subs ->
        skipped (Some v) = false
        /\ exists r, In r ws /\ In (Some v) (List.tl r)).
Proof.
  destruct (load_sheet_from ws) as [HA HB]. cbn [fst] in HA, HB. split.
  - intros k. rewrite HA, in_flat_map. split.
    + intros [r [Hr Hk]]. exists r. apply first_cell_In in Hk. tauto.
    + intros [r [Hr Hk]]. exists r. split; [exact Hr|].
      now apply first_cell_In.
  - intros k subs v Hin Hv. specialize (HB _ _ _ Hin Hv).
    apply in_flat_map in HB as [r [Hr HB]]. apply populated_In in HB as [H1 H2].
    split; [exact H2|]. exists r. split; [exact Hr|].
    destruct r; [destruct H1|exact H1].
Qed.

(** X5. The commands of a loaded sheet are exactly the populated cells of
    its first column, and every sub-keyword in the table is a populated
    cell of a later column of some row: the loader invents nothing and
    stores no empty text. *)
Theorem loaded_table_comes_from_cells (ws : sheet) :
  (forall k, In k (dict_keys (load_sheet ws))
             <-> exists r, In r ws /\ hd_error r = Some (Some k)
                           /\ skipped (Some k) = false)
  /\ (forall k subs v, In (k, subs) (load_sheet ws) -> In v subs ->
        skipped (Some v) = false
        /\ exists r, In r ws /\ In (Some v) (List.tl r)).
Proof. exact (load_sheet_cells ws). Qed.

(** X6. A row whose cells are all absent or empty text changes nothing,
    wherever it stands in the sheet. *)
Theorem blank_rows_ignored (ws1 : sheet) (r : row) (ws2 : sheet) :
  forallb skipped r = true ->
  load_sheet (ws1 ++ r :: ws2)%list = load_sheet (ws1 ++ ws2)%list.
Proof.
  intros H. rewrite !load_sheet_fold, !fold_sheet_app, fold_sheet_cons.
  now rewrite fold_row_blank.
Qed.

Lemma blank_rows_ignored_witness :
  forallb skipped [None; Some (VStr "")] = true
  /\ load_sheet ([[Some (VStr "CMD"); Some (VStr "X")]]
                   ++ [None; Some (VStr "")] :: [[None; Some (VStr "Y")]])%list
     = load_sheet ([[Some (VStr "CMD"); Some (VStr "X")]]
                     ++ [[None; Some (VStr "Y")]])%list.
Proof.
  split; [reflexivity|].
  apply (blank_rows_ignored [[Some (VStr "CMD"); Some (VStr "X")]]
           [None; Some (VStr "")] [[None; Some (VStr "Y")]]).
  reflexivity.
Defined.

(** X7. A row whose first cell is absent or empty continues the row
    before it: the table is the one of the sheet in which the two rows
    are one row. *)
Theorem continuation_row_joins (ws1 : sheet) (c : cell) (r1 : row)
    (c' : cell) (r2 : row) (ws2 : sheet) :
  skipped c' = true ->
  load_sheet (ws1 ++ (c :: r1) :: (c' :: r2) :: ws2)%list
  = load_sheet (ws1 ++ (c :: r1 ++ r2) :: ws2)%list.
Proof.
  intros H. rewrite !load_sheet_fold, !fold_sheet_app, !fold_sheet_cons.
  f_equal.
  change (c :: r1 ++ r2)%list with ((c :: r1) ++ r2)%list.
  rewrite fold_row_app. cbn [List.length Nat.add].
  set (s := fold_row _ 0 (c :: r1)).
  cbn [fold_row]. unfold fold_cell at 1. rewrite H.
  now rewrite (fold_row_later r2 s 0 (List.length r1)).
Qed.

Lemma continuation_row_joins_witness :
  skipped None = true
  /\ load_sheet ([] ++ [Some (VStr "CMD"); Some (VStr "X")]
                   :: [None; Some (VStr "Y")] :: [[Some (VStr "END")]])%list
     = load_sheet ([] ++ (Some (VStr "CMD") :: [Some (VStr "X")] ++ [Some (VStr "Y")])
                   :: [[Some (VStr "END")]])%list.
Proof.
  split; [reflexivity|].
  apply (continuation_row_joins [] (Some (VStr "CMD")) [Some (VStr "X")]
           None [Some (VStr "Y")] [[Some (VStr "END")]]).
  reflexivity.
Defined.

Lemma sheets_lookup (wb : workbook) name ws :
  NoDup (map fst wb) -> In (name, ws) wb ->
  dict_get String.eqb (map (fun m => (fst m, load_sheet (snd m))) wb) name
  = Some (load_sheet ws).
Proof.
  induction wb as [|[n w] wb IH]; intros Hnd Hin; [destruct Hin|].
  simpl in *. inversion Hnd as [|? ? Hn Hnd']; subst.
  destruct Hin as [Heq|Hin].
  - inversion Heq; subst. now rewrite String.eqb_refl.
  - destruct (String.eqb_spec n name) as [->|Hne].
    + exfalso. apply Hn. apply in_map_iff. now exists (name, ws).
    + now apply IH.
Qed.

(** X8. With sheet names that differ from one another the table has one
    module per sheet, in sheet order, and the module of a sheet is the
    table of that sheet alone. *)
Theorem one_module_per_sheet (wb : workbook) :
  NoDup (map fst wb) ->
  dict_keys (load_keywords wb) = map fst wb
  /\ forall name ws, In (name, ws) wb ->
       dict_get String.eqb (load_keywords wb) name = Some (load_sheet ws).
Proof.
  intros Hnd. rewrite (load_keywords_sheets wb Hnd). split.
  - unfold dict_keys. rewrite map_map. reflexivity.
  - intros name ws Hin. now apply sheets_lookup.
Qed.

Lemma one_module_per_sheet_witness :
  NoDup (map fst [("BASIC", [[Some (VStr "LET")]]);
                  ("AQUA", [[Some (VStr "NORM"); Some (VStr "DC")]])])
  /\ dict_keys (load_keywords [("BASIC", [[Some (VStr "LET")]]);
                               ("AQUA", [[Some (VStr "NORM"); Some (VStr "DC")]])])
     = ["BASIC"; "AQUA"]
  /\ dict_get String.eqb
       (load_keywords [("BASIC", [[Some (VStr "LET")]]);
                       ("AQUA", [[Some (VStr "NORM"); Some (VStr "DC")]])]) "AQUA"
     = Some [(VStr "NORM", [VStr "DC"])].
Proof.
  assert (Hnd : NoDup (map fst [("BASIC", [[Some (VStr "LET")]]);
                  ("AQUA", [[Some (VStr "NORM"); Some (VStr "DC")]])])).
  { simpl. repeat constructor; simpl; intuition discriminate. }
  split; [exact Hnd|].
  destruct (one_module_per_sheet _ Hnd) as [H1 H2]. split.
  - exact H1.
  - apply (H2 "AQUA" [[Some (VStr "NORM"); Some (VStr "DC")]]).
    simpl. right. now left.
Defined.


(* ================================================================== *)
(** * Further properties of the optimizer and of the generator         *)
(* ================================================================== *)

Lemma keywords_as_strings l :
  forallb is_keyword l = true ->
  l = map VStr (map py_str l)
  /\ forallb (fun w => negb (is_empty w)) (map py_str l) = true.
Proof.
  induction l as [|v l IH]; intros H; simpl in *; [now split|].
  apply andb_true_iff in H as [Hv Hl]. destruct (IH Hl) as [E1 E2].
  destruct v as [s|n]; [|discriminate]. simpl in Hv |- *. rewrite Hv, E2.
  split; [now rewrite <- E1|reflexivity].
Qed.

Lemma optimize_pattern_keywords l :
  forallb is_keyword l = true ->
  optimize_pattern l = OK (optimize_spec (map py_str l)).
Proof.
  intros H. destruct (keywords_as_strings l H) as [E1 E2].
  rewrite E1 at 1. now apply optimize_pattern_strings.
Qed.

Lemma group_loop_raises good bad rest g :
  forallb is_keyword good = true -> is_keyword bad = false ->
  foldM group_step (good ++ bad :: rest)%list g = Raise (exception_of bad).
Proof.
  revert g. induction good as [|x good IH]; intros g Hg Hb.
  - destruct bad as [[|c s]|n]; simpl in *; try discriminate; reflexivity.
  - simpl in Hg. apply andb_true_iff in Hg as [Hx Hg].
    destruct x as [[|c s]|n]; simpl in Hx; try discriminate.
    cbn [app foldM]. unfold group_step at 1. cbn [first_character bind].
    now apply IH.
Qed.

Lemma group_loop_ok l g g' :
  foldM group_step l g = OK g' -> forallb is_keyword l = true.
Proof.
  revert g. induction l as [|x l IH]; intros g H; [reflexivity|].
  destruct x as [[|c s]|n]; simpl in H; try discriminate.
  simpl. eapply IH. exact H.
Qed.

Lemma optimize_pattern_ok l p :
  optimize_pattern l = OK p -> forallb is_keyword l = true.
Proof.
  destruct l as [|v l]; [reflexivity|]. unfold optimize_pattern.
  destruct (foldM group_step (v :: l) []) as [g|e] eqn:E; [|discriminate].
  intros _. eapply group_loop_ok. exact E.
Qed.

Lemma mapM_as_str_ok l ss :
  mapM as_str l = OK ss -> l = map VStr ss.
Proof.
  revert ss. induction l as [|v l IH]; intros ss H; simpl in H.
  - now inversion H.
  - destruct v as [s|n]; simpl in H; [|discriminate].
    destruct (mapM as_str l) as [ss'|e]; simpl in H; [|discriminate].
    inversion H; subst. simpl. f_equal. now apply IH.
Qed.

Lemma mapM_as_str_raise l e :
  mapM as_str l = Raise e -> e = TypeError.
Proof.
  induction l as [|v l IH]; simpl; [discriminate|].
  destruct v as [s|n]; simpl; [|congruence].
  destruct (mapM as_str l) as [ss'|e']; simpl; [discriminate|].
  intros H. inversion H; subst. now apply IH.
Qed.

Lemma mapM_ok_inv {A B} (f : A -> result B) l ys :
  mapM f l = OK ys -> forall x, In x l -> exists y, f x = OK y.
Proof.
  revert ys. induction l as [|a l IH]; intros ys H x Hin; [destruct Hin|].
  simpl in H. destruct (f a) as [y|e] eqn:Ea; simpl in H; [|discriminate].
  destruct (mapM f l) as [ys'|e]; simpl in H; [|discriminate].
  destruct Hin as [<-|Hin]; [now exists y|]. eapply IH; [reflexivity|exact Hin].
Qed.

Lemma mapM_raise_inv {A B} (f : A -> result B) l e :
  mapM f l = Raise e -> exists x, In x l /\ f x = Raise e.
Proof.
  induction l as [|a l IH]; simpl; [discriminate|].
  destruct (f a) as [y|e'] eqn:Ea; simpl.
  - destruct (mapM f l) as [ys'|e'']; simpl; [discriminate|].
    intros H. inversion H; subst. destruct (IH eq_refl) as [x [Hx Hf]].
    exists x. split; [now right|exact Hf].
  - intros H. inversion H; subst. exists a. split; [now left|exact Ea].
Qed.

Lemma sorted_keywords ss :
  forallb is_keyword (map VStr (sort keyword_leb ss)) = true ->
  forallb is_keyword (map VStr ss) = true.
Proof.
  rewrite !forallb_forall. intros H v Hv.
  apply in_map_iff in Hv as [w [<- Hw]]. apply H.
  apply in_map. exact (proj2 (sort_In _ keyword_leb w ss) Hw).
Qed.

Lemma sorted_optimized_ok l s p :
  sorted_longest_first l = OK s -> optimize_pattern s = OK p ->
  forallb is_keyword l = true.
Proof.
  unfold sorted_longest_first.
  destruct (mapM as_str l) as [ss|e] eqn:E; simpl; [|discriminate].
  intros H Hp. inversion H; subst. apply mapM_as_str_ok in E. subst l.
  apply sorted_keywords. eapply optimize_pattern_ok. exact Hp.
Qed.

Lemma command_rule_ok cmds command text :
  command_rule cmds command = OK text -> forallb is_keyword (snd command) = true.
Proof.
  destruct command as [k [|v subs]]; [reflexivity|].
  unfold command_rule. cbn [snd].
  destruct (sorted_longest_first (v :: subs)) as [s|e] eqn:E1; [|discriminate].
  cbn [bind].
  destruct (optimize_pattern s) as [p|e] eqn:E2; [|discriminate].
  intros _. eapply sorted_optimized_ok; eassumption.
Qed.

Lemma repository_entry_ok name m entry :
  repository_entry name m = OK entry -> wf_module m = true.
Proof.
  unfold repository_entry.
  destruct (sorted_longest_first (dict_keys m)) as [s|e] eqn:E1; [|discriminate].
  cbn [bind].
  destruct (optimize_pattern s) as [p|e] eqn:E2; [|discriminate].
  cbn [bind].
  destruct (mapM (command_rule p) m) as [rules|e] eqn:E3; [|discriminate].
  intros _. unfold wf_module. apply forallb_forall. intros cmd Hin.
  apply andb_true_iff. split.
  - assert (Hk : forallb is_keyword (dict_keys m) = true)
      by (eapply sorted_optimized_ok; eassumption).
    rewrite forallb_forall in Hk. apply Hk. unfold dict_keys. now apply in_map.
  - destruct (mapM_ok_inv _ _ _ E3 cmd Hin) as [text Ht].
    eapply command_rule_ok. exact Ht.
Qed.

Lemma module_step_scoped acc name m :
  String.eqb name "BASIC" = false ->
  module_step acc (name, m)
  = (entry <- repository_entry name m ;;
     OK ((fst acc ++ [module_begin_end_pattern name])%list,
         (snd acc ++ [entry])%list)).
Proof. intros H. unfold module_step. now rewrite H. Qed.

Lemma module_step_base acc name m :
  String.eqb name "BASIC" = true -> module_step acc (name, m) = OK acc.
Proof. intros H. unfold module_step. now rewrite H. Qed.

Lemma module_loop_ok t acc out :
  foldM module_step t acc = OK out -> wf_table t = true.
Proof.
  revert acc. induction t as [|[name m] t IH]; intros acc H; [reflexivity|].
  unfold wf_table, scoped_modules in *. cbn [filter fst foldM] in *.
  destruct (String.eqb name "BASIC") eqn:Eb.
  - rewrite (module_step_base _ _ _ Eb) in H. cbn [bind negb] in *.
    eapply IH. exact H.
  - rewrite (module_step_scoped _ _ _ Eb) in H. cbn [negb forallb snd].
    destruct (repository_entry name m) as [entry|e] eqn:Er; [|discriminate].
    cbn [bind] in H. rewrite (repository_entry_ok _ _ _ Er).
    eapply IH. exact H.
Qed.

Lemma generate_grammar_ok t g :
  generate_grammar t = OK g -> wf_table t = true.
Proof.
  unfold generate_grammar, generate_module_patterns.
  destruct (foldM module_step t ([], [])) as [out|e] eqn:E; [|discriminate].
  intros _. eapply module_loop_ok. exact E.
Qed.

Lemma generate_grammar_wf t :
  wf_table t = true -> exists g, generate_grammar t = OK g.
Proof.
  intros H. unfold generate_grammar.
  rewrite (generate_module_patterns_wf t H). cbn [bind]. eexists. reflexivity.
Qed.

(* ------------------------------------------------------------------ *)
(** ** Which exception                                                  *)
(* ------------------------------------------------------------------ *)

Lemma group_loop_raise l g e :
  (forall v, In v l -> skipped (Some v) = false) ->
  foldM group_step l g = Raise e -> e = TypeError.
Proof.
  revert g. induction l as [|x l IH]; intros g Hl; simpl; [discriminate|].
  destruct x as [[|c s]|n]; simpl.
  - specialize (Hl (VStr "") (or_introl eq_refl)). discriminate.
  - apply IH. intros v Hv. apply Hl. now right.
  - congruence.
Qed.

Lemma optimize_pattern_raise l e :
  (forall v, In v l -> skipped (Some v) = false) ->
  optimize_pattern l = Raise e -> e = TypeError.
Proof.
  intros Hl. destruct l as [|v l]; [discriminate|]. unfold optimize_pattern.
  destruct (foldM group_step (v :: l) []) as [g|e'] eqn:E.
  - cbn [bind]. destruct (sort_groups g) as [|[c ws] [|cw sg]]; simpl; discriminate.
  - cbn [bind]. intros H. inversion H; subst.
    eapply group_loop_raise; eassumption.
Qed.

Lemma sorted_optimized_raise l e :
  (forall v, In v l -> skipped (Some v) = false) ->
  (sorted <- sorted_longest_first l ;; optimize_pattern sorted) = Raise e ->
  e = TypeError.
Proof.
  intros Hl. unfold sorted_longest_first.
  destruct (mapM as_str l) as [ss|e'] eqn:E; cbn [bind].
  - apply optimize_pattern_raise. apply mapM_as_str_ok in E. subst l.
    intros v Hv. apply in_map_iff in Hv as [w [<- Hw]].
    apply Hl. apply in_map. exact (proj1 (sort_In _ keyword_leb w ss) Hw).
  - intros H. inversion H; subst. eapply mapM_as_str_raise. exact E.
Qed.

Lemma command_rule_raise cmds command e :
  (forall v, In v (snd command) -> skipped (Some v) = false) ->
  command_rule cmds command = Raise e -> e = TypeError.
Proof.
  destruct command as [k [|v subs]]; [discriminate|]. cbn [snd].
  intros Hs. unfold command_rule.
  destruct (sorted_longest_first (v :: subs)) as [s|e'] eqn:E1; cbn [bind].
  - destruct (optimize_pattern s) as [p|e'] eqn:E2; cbn [bind]; [discriminate|].
    intros H. inversion H; subst.
    apply (sorted_optimized_raise (v :: subs) e Hs). now rewrite E1.
  - intros H. inversion H; subst.
    apply (sorted_optimized_raise (v :: subs) e Hs). now rewrite E1.
Qed.

Lemma repository_entry_raise name m e :
  populated_module m ->
  repository_entry name m = Raise e -> e = TypeError.
Proof.
  intros Hm. unfold repository_entry.
  assert (Hk : forall v, In v (dict_keys m) -> skipped (Some v) = false).
  { intros v Hv. unfold dict_keys in Hv. apply in_map_iff in Hv as [[k subs] [<- Hin]].
    exact (proj1 (Hm k subs Hin)). }
  destruct (sorted_longest_first (dict_keys m)) as [s|e'] eqn:E1; cbn [bind].
  - destruct (optimize_pattern s) as [p|e'] eqn:E2; cbn [bind].
    + destruct (mapM (command_rule p) m) as [rules|e'] eqn:E3; cbn [bind];
        [discriminate|].
      intros H. inversion H; subst.
      apply mapM_raise_inv in E3 as [[k subs] [Hin Hr]].
      eapply command_rule_raise; [|exact Hr]. cbn [snd].
      exact (proj2 (Hm k subs Hin)).
    + intros H. inversion H; subst.
      apply (sorted_optimized_raise (dict_keys m) e Hk). now rewrite E1.
  - intros H. inversion H; subst.
    apply (sorted_optimized_raise (dict_keys m) e Hk). now rewrite E1.
Qed.

Lemma module_loop_raise t acc e :
  (forall name m, In (name, m) t -> populated_module m) ->
  foldM module_step t acc = Raise e -> e = TypeError.
Proof.
  revert acc. induction t as [|[name m] t IH]; intros acc Ht; [discriminate|].
  cbn [foldM]. destruct (String.eqb name "BASIC") eqn:Eb.
  - rewrite (module_step_base _ _ _ Eb). cbn [bind].
    apply IH. intros n m' Hin. apply (Ht n). now right.
  - rewrite (module_step_scoped _ _ _ Eb).
    destruct (repository_entry name m) as [entry|e'] eqn:Er; cbn [bind].
    + apply IH. intros n m' Hin. apply (Ht n). now right.
    + intros H. inversion H; subst.
      eapply repository_entry_raise; [|exact Er]. apply (Ht name). now left.
Qed.

Lemma generate_grammar_raise t e :
  (forall name m, In (name, m) t -> populated_module m) ->
  generate_grammar t = Raise e -> e = TypeError.
Proof.
  intros Ht. unfold generate_grammar, generate_module_patterns.
  destruct (foldM module_step t ([], [])) as [[ms rs]|e'] eqn:E; cbn [bind];
    [discriminate|].
  intros H. inversion H; subst. eapply module_loop_raise; eassumption.
Qed.

(* ------------------------------------------------------------------ *)
(** ** The modules of a loaded table                                    *)
(* ------------------------------------------------------------------ *)

Lemma modules_set_In (d : keyword_table) name m n m' :
  In (n, m') (dict_set String.eqb d name m) ->
  In (n, m') d \/ (n = name /\ m' = m).
Proof.
  induction d as [|[k v] d IH]; simpl.
  - intros [H|[]]. inversion H. now right.
  - destruct (String.eqb_spec k name) as [->|Hne]; simpl.
    + intros [H|H]; [inversion H; now right|left; now right].
    + intros [H|H]; [left; now left|].
      destruct (IH H) as [H'|H']; [left; now right|now right].
Qed.

Lemma load_keywords_modules wb :
  forall name m, In (name, m) (load_keywords wb) ->
    exists ws, In (name, ws) wb /\ m = load_sheet ws.
Proof.
  unfold load_keywords.
  assert (G : forall (wb : workbook) (d : keyword_table) name m,
             In (name, m) (fold_left (fun keywords_by_module '(module_name, ws) =>
                 dict_set String.eqb keywords_by_module module_name (load_sheet ws))
               wb d) ->
             In (name, m) d \/ exists ws, In (name, ws) wb /\ m = load_sheet ws).
  { clear wb. induction wb as [|[n ws] wb IH]; intros d name m H; [now left|].
    cbn [fold_left] in H. apply IH in H as [H|[ws' [H1 H2]]].
    - apply modules_set_In in H as [H|[-> ->]]; [now left|].
      right. exists ws. split; [now left|reflexivity].
    - right. exists ws'. split; [now right|exact H2]. }
  intros name m H. apply G in H as [[]|H]. exact H.
Qed.

Lemma load_keywords_populated wb :
  forall name m, In (name, m) (load_keywords wb) -> populated_module m.
Proof.
  intros name m H. apply load_keywords_modules in H as [ws [_ ->]].
  intros k subs. apply load_sheet_populated.
Qed.

Lemma text_sheet_wf ws :
  (forall r c n, In r ws -> In c r -> c <> Some (VInt n)) ->
  wf_module (load_sheet ws) = true.
Proof.
  intros Ht. unfold wf_module. apply forallb_forall. intros [k subs] Hin.
  destruct (load_sheet_cells ws) as [HA HB].
  assert (K : forall v r, In r ws -> In (Some v) r -> skipped (Some v) = false ->
                          is_keyword v = true).
  { intros v r Hr Hv Hs. destruct v as [s|n].
    - destruct s; [discriminate|reflexivity].
    - exfalso. exact (Ht r (Some (VInt n)) n Hr Hv eq_refl). }
  cbn [fst snd]. apply andb_true_iff. split.
  - assert (Hk : In k (dict_keys (load_sheet ws))).
    { unfold dict_keys. apply in_map_iff. now exists (k, subs). }
    apply HA in Hk as [r [Hr [Hh Hs]]]. apply (K k r Hr); [|exact Hs].
    destruct r as [|c r]; [discriminate|]. inversion Hh. now left.
  - apply forallb_forall. intros v Hv.
    destruct (HB k subs v Hin Hv) as [Hs [r [Hr Hc]]].
    apply (K v r Hr); [|exact Hs].
    destruct r as [|c r]; [destruct Hc|now right].
Qed.

Lemma text_workbook_wf (wb : workbook) :
  (forall name ws r c n, In (name, ws) wb -> name <> "BASIC" ->
     In r ws -> In c r -> c <> Some (VInt n)) ->
  wf_table (load_keywords wb) = true.
Proof.
  intros Ht. unfold wf_table. apply forallb_forall. intros [name m] Hin.
  unfold scoped_modules in Hin. apply filter_In in Hin as [Hin Hb].
  cbn [fst snd] in *. apply load_keywords_modules in Hin as [ws [Hws ->]].
  apply text_sheet_wf. intros r c n. apply (Ht name ws r c n Hws).
  intros ->. discriminate.
Qed.

(* ------------------------------------------------------------------ *)
(** ** The base module                                                  *)
(* ------------------------------------------------------------------ *)

Lemma module_loop_scoped t acc :
  foldM module_step t acc = foldM module_step (scoped_modules t) acc.
Proof.
  revert acc. induction t as [|[name m] t IH]; intros acc; [reflexivity|].
  unfold scoped_modules. cbn [filter fst foldM].
  destruct (String.eqb name "BASIC") eqn:Eb; cbn [negb].
  - rewrite (module_step_base _ _ _ Eb). cbn [bind]. apply IH.
  - cbn [foldM]. destruct (module_step acc (name, m)) as [acc'|e]; cbn [bind];
      [apply IH|reflexivity].
Qed.

Lemma inline_loop_scoped t acc :
  foldM Inline.module_step t acc = foldM Inline.module_step (scoped_modules t) acc.
Proof.
  revert acc. induction t as [|[name m] t IH]; intros acc; [reflexivity|].
  unfold scoped_modules. cbn [filter fst foldM].
  destruct (String.eqb name "BASIC") eqn:Eb; cbn [negb].
  - unfold Inline.module_step at 1. rewrite Eb. cbn [bind]. apply IH.
  - cbn [foldM]. destruct (Inline.module_step acc (name, m)) as [acc'|e]; cbn [bind];
      [apply IH|reflexivity].
Qed.

Lemma generate_grammar_scoped t :
  generate_grammar t = generate_grammar (scoped_modules t).
Proof.
  unfold generate_grammar, generate_module_patterns.
  now rewrite module_loop_scoped.
Qed.

(** X1. [optimize_pattern] returns for a list of keywords, text that is
    not empty, and raises at the first entry that is not one:
    [IndexError] on empty text and [TypeError] on a number, whatever
    follows it. *)
Theorem optimize_pattern_raises_at_first_offence (keyword_list : list value) :
  (forallb is_keyword keyword_list = true <->
     exists p, optimize_pattern keyword_list = OK p)
  /\ (forall good bad rest,
        keyword_list = (good ++ bad :: rest)%list ->
        forallb is_keyword good = true -> is_keyword bad = false ->
        optimize_pattern keyword_list
        = Raise (match bad with VInt _ => TypeError | VStr _ => IndexError end)).
Proof.
  split.
  - split.
    + intros H. eexists. now apply optimize_pattern_keywords.
    + intros [p Hp]. eapply optimize_pattern_ok. exact Hp.
  - intros good bad rest -> Hg Hb.
    destruct (good ++ bad :: rest)%list as [|v l] eqn:E.
    + destruct good; discriminate.
    + unfold optimize_pattern. rewrite <- E.
      now rewrite (group_loop_raises good bad rest [] Hg Hb).
Qed.

(** X2. The pattern of a list of keywords does not depend on the order
    of the list, so sorting the list before the call, as the generator
    does, changes nothing. *)
Theorem optimize_pattern_any_order (l l' : list value) :
  forallb is_keyword l = true -> Permutation l l' ->
  optimize_pattern l = optimize_pattern l'
  /\ (sorted <- sorted_longest_first l ;; optimize_pattern sorted)
     = optimize_pattern l.
Proof.
  intros Hl Hp.
  assert (Hl' : forallb is_keyword l' = true).
  { rewrite forallb_forall in *. intros v Hv. apply Hl.
    eapply Permutation_in; [apply Permutation_sym; exact Hp|exact Hv]. }
  rewrite (optimize_pattern_keywords l Hl), (optimize_pattern_keywords l' Hl').
  split.
  - f_equal. apply optimize_spec_any_order. now apply Permutation_map.
  - rewrite (sorted_then_optimized l Hl). f_equal. apply keywords_pattern_unsorted.
Qed.

Lemma optimize_pattern_any_order_witness :
  optimize_pattern [VStr "b"; VStr "ab"; VStr "abc"]
  = optimize_pattern [VStr "ab"; VStr "b"; VStr "abc"]
  /\ (sorted <- sorted_longest_first [VStr "b"; VStr "ab"; VStr "abc"] ;;
      optimize_pattern sorted)
     = optimize_pattern [VStr "b"; VStr "ab"; VStr "abc"].
Proof.
  apply (optimize_pattern_any_order [VStr "b"; VStr "ab"; VStr "abc"]
           [VStr "ab"; VStr "b"; VStr "abc"]).
  - reflexivity.
  - apply perm_swap.
Defined.

(** X3. The generator returns exactly for the tables whose modules, the
    base module apart, hold only text that is not empty as commands and
    sub-keywords; on any other table it raises. *)
Theorem generator_returns_iff_keywords (t : keyword_table) :
  ((exists out, generate_module_patterns t = OK out) <-> wf_table t = true)
  /\ ((exists g, generate_grammar t = OK g) <-> wf_table t = true)
  /\ ((exists e, generate_grammar t = Raise e) <-> wf_table t = false).
Proof.
  split; [|split].
  - split.
    + intros [out H]. eapply module_loop_ok. exact H.
    + intros H. eexists. now apply generate_module_patterns_wf.
  - split.
    + intros [g H]. eapply generate_grammar_ok. exact H.
    + apply generate_grammar_wf.
  - split.
    + intros [e H]. destruct (wf_table t) eqn:W; [|reflexivity].
      destruct (generate_grammar_wf t W) as [g Hg]. congruence.
    + intros W. destruct (generate_grammar t) as [g|e] eqn:E.
      * apply generate_grammar_ok in E. congruence.
      * now exists e.
Qed.

(** X4. What the base module holds is never looked at: the rules and the
    grammar of a table are those of the table without its base module,
    in both builds, so two tables that agree on the other modules give
    the same grammar, and a table with no other module gives the fixed
    text alone. *)
Theorem base_module_content_ignored (t : keyword_table) :
  generate_module_patterns t = generate_module_patterns (scoped_modules t)
  /\ generate_grammar t = generate_grammar (scoped_modules t)
  /\ Inline.module_rules t = Inline.module_rules (scoped_modules t)
  /\ (forall t', scoped_modules t = scoped_modules t' ->
        generate_grammar t = generate_grammar t')
  /\ (scoped_modules t = [] ->
        generate_grammar t = OK (grammar_header ++ repository_base_patterns)).
Proof.
  split; [apply module_loop_scoped|].
  split; [apply generate_grammar_scoped|].
  split; [apply inline_loop_scoped|].
  split.
  - intros t' H. rewrite (generate_grammar_scoped t), (generate_grammar_scoped t').
    now rewrite H.
  - intros H. rewrite generate_grammar_scoped, H.
    unfold generate_grammar, generate_module_patterns.
    cbn [foldM bind String.concat].
    now rewrite !string_app_nil_r.
Qed.

(** X9. Run on a loaded table, the generator can only fail with
    [TypeError], since the loader stores no empty text; and it does not
    fail when the sheets other than the base one hold no number. *)
Theorem loaded_table_raises_only_on_numbers (wb : workbook) :
  (forall e, generate_grammar (load_keywords wb) = Raise e -> e = TypeError)
  /\ ((forall name ws r c n, In (name, ws) wb -> name <> "BASIC" ->
         In r ws -> In c r -> c <> Some (VInt n)) ->
      exists g, generate_grammar (load_keywords wb) = OK g)
  /\ (wf_table (load_keywords wb) = false ->
      generate_grammar (load_keywords wb) = Raise TypeError).
Proof.
  assert (R : forall e, generate_grammar (load_keywords wb) = Raise e -> e = TypeError).
  { intros e. apply generate_grammar_raise. apply load_keywords_populated. }
  split; [exact R|]. split.
  - intros Ht. apply generate_grammar_wf. now apply text_workbook_wf.
  - intros W. destruct (generate_grammar (load_keywords wb)) as [g|e] eqn:E.
    + apply generate_grammar_ok in E. congruence.
    + now rewrite (R e eq_refl).
Qed.


(* ================================================================== *)
(** * Further properties of the inline build                           *)
(* ================================================================== *)

Lemma mapM_as_str_cases l :
  mapM as_str l = if forallb is_text l then OK (map py_str l) else Raise TypeError.
Proof.
  induction l as [|v l IH]; [reflexivity|].
  cbn [mapM forallb map]. destruct v as [s|n]; cbn [as_str bind is_text andb];
    [|reflexivity].
  rewrite IH. now destruct (forallb is_text l).
Qed.

Lemma forallb_permutation {A} (P : A -> bool) l l' :
  Permutation l l' -> forallb P l = forallb P l'.
Proof.
  intros H. apply eq_iff_eq_true. rewrite !forallb_forall.
  split; intros G x Hx; apply G.
  - eapply Permutation_in; [apply Permutation_sym; exact H|exact Hx].
  - eapply Permutation_in; [exact H|exact Hx].
Qed.

Lemma rule_in_any_order mname cs cs' ss ss' :
  Permutation cs cs' -> Permutation ss ss' ->
  rule_in_order mname cs ss = rule_in_order mname cs' ss'.
Proof.
  intros Hc Hs. unfold rule_in_order. rewrite !mapM_as_str_cases.
  rewrite (forallb_permutation is_text cs cs' Hc),
          (forallb_permutation is_text ss ss' Hs).
  destruct (forallb is_text cs'); [|reflexivity]. cbn [bind].
  destruct (forallb is_text ss'); [|reflexivity]. cbn [bind].
  now rewrite (inline_pattern_any_set_order cs cs' Hc),
              (inline_pattern_any_set_order ss ss' Hs).
Qed.

Lemma set_member v seen :
  existsb (value_eqb v) seen = true <-> In v seen.
Proof.
  rewrite existsb_exists. split.
  - intros [x [Hx E]]. destruct (value_eqb_spec v x); [now subst|discriminate].
  - intros H. exists v. split; [exact H|apply value_eqb_refl].
Qed.

Lemma set_add_all_In l seen v :
  In v (Inline.set_add_all seen l) <-> In v seen \/ In v l.
Proof.
  revert seen. induction l as [|x l IH]; intros seen; cbn [Inline.set_add_all].
  - simpl. tauto.
  - destruct (existsb (value_eqb x) seen) eqn:E.
    + rewrite IH. apply set_member in E. simpl. intuition (subst; auto).
    + rewrite IH, in_app_iff. simpl. tauto.
Qed.

Lemma set_add_all_NoDup l seen :
  NoDup seen -> NoDup (Inline.set_add_all seen l).
Proof.
  revert seen. induction l as [|x l IH]; intros seen H; cbn [Inline.set_add_all];
    [exact H|].
  destruct (existsb (value_eqb x) seen) eqn:E; [now apply IH|].
  apply IH. apply NoDup_app; [exact H|repeat constructor; intros []|].
  intros y Hy [<-|[]]. apply set_member in Hy. congruence.
Qed.

Lemma set_any_order l elements :
  NoDup elements -> (forall v, In v elements <-> In v l) ->
  Permutation (Inline.set_add_all [] l) elements.
Proof.
  intros Hn He. apply NoDup_Permutation.
  - apply set_add_all_NoDup. constructor.
  - exact Hn.
  - intros v. rewrite set_add_all_In, He. simpl. tauto.
Qed.

Lemma inline_step_rule acc mname module :
  Inline.module_step acc (mname, module)
  = if String.eqb mname "BASIC" then OK acc
    else
      rule <- rule_in_order mname (Inline.set_add_all [] (dict_keys module))
                (Inline.set_add_all [] (flat_map snd module)) ;;
      OK ((fst acc ++ [Inline.text1_rule mname])%list, (snd acc ++ [[rule]])%list).
Proof.
  unfold Inline.module_step, rule_in_order.
  destruct (String.eqb mname "BASIC"); [reflexivity|].
  destruct (mapM as_str (Inline.set_add_all [] (dict_keys module))); [|reflexivity].
  cbn [bind].
  destruct (mapM as_str (Inline.set_add_all [] (flat_map snd module))); reflexivity.
Qed.

(* ------------------------------------------------------------------ *)
(** ** The alternation of the sorted keywords                           *)
(* ------------------------------------------------------------------ *)

Lemma flat_parts L :
  String.concat "|" L = String.concat "|" (map render_part (map PWord L)).
Proof. rewrite map_map. cbn [render_part]. now rewrite map_id. Qed.

Lemma flat_plain L :
  forallb no_meta L = true -> forallb part_plain (map PWord L) = true.
Proof.
  intros H. rewrite forallb_forall in *. intros p Hp.
  apply in_map_iff in Hp as [w [<- Hw]]. now apply H.
Qed.

Lemma parse_flat L :
  forallb no_meta L = true ->
  parse (String.concat "|" L) = Some (alts_regex (map part_regex (map PWord L))).
Proof.
  intros H. rewrite flat_parts. apply parse_parts. now apply flat_plain.
Qed.

Lemma run_flat ci L s :
  L <> [] ->
  run ci (alts_regex (map part_regex (map PWord L))) s
  = flat_map (fun w => option_list (strip ci w s)) L.
Proof.
  intros HL. destruct L as [|w L]; [contradiction|].
  change (map PWord (w :: L)) with (PWord w :: map PWord L).
  rewrite run_parts.
  - change (PWord w :: map PWord L) with (map PWord (w :: L)).
    rewrite !flat_map_concat_map, map_map. reflexivity.
  - intros q c Hq ->. change (PWord w :: map PWord L) with (map PWord (w :: L)) in Hq.
    apply in_map_iff in Hq as [x [Hx _]]. discriminate.
Qed.

Lemma sorted_no_meta L :
  forallb no_meta L = true -> forallb no_meta (sort keyword_leb L) = true.
Proof.
  rewrite !forallb_forall. intros H w Hw. apply H.
  exact (proj1 (sort_In _ keyword_leb w L) Hw).
Qed.

Lemma match_whole_flat ci L s :
  forallb no_meta L = true -> is_empty s = false ->
  match_whole ci (String.concat "|" (sort keyword_leb L)) s
  = Some (existsb (fun k => eq_text ci k s) L).
Proof.
  intros HL Hs. unfold match_whole.
  rewrite (parse_flat _ (sorted_no_meta L HL)). cbn [option_map]. f_equal.
  destruct L as [|w L].
  - simpl. now rewrite Hs.
  - assert (Hne : sort keyword_leb (w :: L) <> []).
    { intros E. pose proof (sort_length _ keyword_leb (w :: L)) as Hlen.
      rewrite E in Hlen. discriminate. }
    rewrite (run_flat ci _ s Hne), existsb_flat_map, existsb_sort.
    apply existsb_ext_on. intros k _. apply strip_whole.
Qed.

Lemma first_match_flat ci L k :
  forallb no_meta L = true -> In k L ->
  first_match ci (String.concat "|" (sort keyword_leb L)) k = Some (Some k).
Proof.
  intros HL Hk. unfold first_match.
  rewrite (parse_flat _ (sorted_no_meta L HL)). cbn [option_map].
  assert (Hin : In k (sort keyword_leb L))
    by exact (proj2 (sort_In _ keyword_leb k L) Hk).
  rewrite run_flat by (intros E; rewrite E in Hin; destruct Hin).
  rewrite (first_of_longest_first ci _ k Hin (sort_keywords_by_length L)).
  cbn [option_map]. simpl String.length. now rewrite Nat.sub_0_r, substring_whole.
Qed.

Lemma eq_text_true ci k s :
  eq_text ci k s = true <-> if ci then upper k = upper s else k = s.
Proof.
  unfold eq_text, eq_ci. destruct ci; apply String.eqb_eq.
Qed.

(** X11. The rules of the inline build do not depend on the order in
    which its two sets are read: whatever enumeration of the commands
    and of the sub-keywords of a module the sets give, the step of the
    module loop returns the same rules or raises the same exception. *)
Theorem inline_rules_any_set_order (acc : list string * list (list string))
    (mname : string) (module : module_table) (cs ss : list value) :
  NoDup cs -> (forall v, In v cs <-> In v (dict_keys module)) ->
  NoDup ss -> (forall v, In v ss <-> In v (flat_map snd module)) ->
  Inline.module_step acc (mname, module)
  = if String.eqb mname "BASIC" then OK acc
    else
      rule <- rule_in_order mname cs ss ;;
      OK ((fst acc ++ [Inline.text1_rule mname])%list, (snd acc ++ [[rule]])%list).
Proof.
  intros Hc1 Hc2 Hs1 Hs2. rewrite inline_step_rule.
  destruct (String.eqb mname "BASIC"); [reflexivity|].
  now rewrite (rule_in_any_order mname _ cs _ ss
                 (set_any_order _ cs Hc1 Hc2) (set_any_order _ ss Hs1 Hs2)).
Qed.

Lemma inline_rules_any_set_order_witness :
  Inline.module_step ([], []) ("AQUA", [(VStr "NORM", [VStr "DC"; VStr "NDC"]);
                                        (VStr "END", [VStr "DC"])])
  = (rule <- rule_in_order "AQUA" [VStr "END"; VStr "NORM"] [VStr "NDC"; VStr "DC"] ;;
     OK ([Inline.text1_rule "AQUA"], [[rule]])).
Proof.
  apply (inline_rules_any_set_order ([], []) "AQUA"
           [(VStr "NORM", [VStr "DC"; VStr "NDC"]); (VStr "END", [VStr "DC"])]
           [VStr "END"; VStr "NORM"] [VStr "NDC"; VStr "DC"]).
  - repeat constructor; simpl; intuition discriminate.
  - intros v. simpl. tauto.
  - repeat constructor; simpl; intuition discriminate.
  - intros v. simpl. tauto.
Defined.

(** X12. The alternation of the keywords sorted longest first, the
    pattern of the inline build and of a one-group list, matches a token
    as a whole exactly when the token is one of the keywords in the
    matching mode, and on the text of a keyword its first match is that
    keyword in full, also when a shorter keyword is a prefix of it. *)
Theorem sorted_alternation_matches_keywords (ci : bool) (L : list string)
    (s : string) :
  forallb no_meta L = true -> is_empty s = false ->
  match_whole ci (String.concat "|" (sort keyword_leb L)) s
  = Some (existsb (fun k => eq_text ci k s) L)
  /\ (match_whole ci (String.concat "|" (sort keyword_leb L)) s = Some true
      <-> exists k, In k L /\ if ci then upper k = upper s else k = s)
  /\ (In s L ->
      first_match ci (String.concat "|" (sort keyword_leb L)) s = Some (Some s)).
Proof.
  intros HL Hs. rewrite (match_whole_flat ci L s HL Hs). split; [reflexivity|].
  split.
  - split.
    + intros H. inversion H as [E]. apply existsb_exists in E as [k [Hk E]].
      exists k. split; [exact Hk|]. now apply eq_text_true.
    + intros [k [Hk E]]. f_equal. apply existsb_exists. exists k.
      split; [exact Hk|]. now apply eq_text_true.
  - now apply first_match_flat.
Qed.

Lemma sorted_alternation_matches_keywords_witness :
  match_whole false (String.concat "|" (sort keyword_leb ["ab"; "abc"; "c"])) "abc"
  = Some (existsb (fun k => eq_text false k "abc") ["ab"; "abc"; "c"])
  /\ first_match false (String.concat "|" (sort keyword_leb ["ab"; "abc"; "c"])) "abc"
     = Some (Some "abc").
Proof.
  destruct (sorted_alternation_matches_keywords false ["ab"; "abc"; "c"] "abc"
              eq_refl eq_refl) as [H1 [_ H3]].
  split; [exact H1|]. apply H3. simpl. tauto.
Defined.

(** X13. Factoring the shared leading characters changes neither what is
    matched nor what is returned: in a mode that fits the keywords, the
    optimized pattern and the plain alternation of the sorted keywords
    match the same tokens as a whole and have the same first match on
    every keyword. *)
Theorem optimizer_keeps_the_matches (ci : bool) (L : list string) (s : string) :
  forallb plain_keyword L = true -> mode_fits ci L = true ->
  is_empty s = false ->
  exists p,
    optimize_pattern (map VStr L) = OK p
    /\ match_whole ci p s
       = match_whole ci (String.concat "|" (sort keyword_leb L)) s
    /\ (In s L ->
        first_match ci p s
        = first_match ci (String.concat "|" (sort keyword_leb L)) s).
Proof.
  intros HL Hm Hs. exists (optimize_spec L).
  assert (Hn : forallb no_meta L = true).
  { rewrite forallb_forall in *. intros w Hw. specialize (HL w Hw).
    unfold plain_keyword in HL. now apply andb_true_iff in HL. }
  split; [apply optimize_pattern_strings; now apply plain_keyword_nonempty|].
  split.
  - now rewrite (match_whole_optimized ci L s HL Hm Hs), (match_whole_flat ci L s Hn Hs).
  - intros Hin.
    now rewrite (first_match_optimized ci L s HL Hm Hin), (first_match_flat ci L s Hn Hin).
Qed.

Lemma optimizer_keeps_the_matches_witness :
  exists p,
    optimize_pattern (map VStr ["GRP"; "GRPX"; "ga"; "END"]) = OK p
    /\ match_whole true p "grpx"
       = match_whole true (String.concat "|" (sort keyword_leb ["GRP"; "GRPX"; "ga"; "END"]))
           "grpx".
Proof.
  destruct (optimizer_keeps_the_matches true ["GRP"; "GRPX"; "ga"; "END"] "grpx"
              eq_refl eq_refl eq_refl) as [p [H1 [H2 _]]].
  exists p. split; [exact H1|exact H2].
Defined.


(* ================================================================== *)
(** * Properties of [main]                                              *)
(* ================================================================== *)

Lemma grammar_header_newline :
  grammar_header = newline ++ tail grammar_header.
Proof. reflexivity. Qed.

Lemma generate_grammar_newline t g :
  generate_grammar t = OK g -> g = newline ++ tail g.
Proof.
  unfold generate_grammar.
  destruct (generate_module_patterns t) as [[ms rs]|e]; cbn [bind]; [|discriminate].
  intros H. inversion H. reflexivity.
Qed.

(** X10. [main] rewrites [keywords.json] before it generates the
    grammar. On a table of keywords it then writes the grammar, without
    the line break it starts with and with one at the end, and reports
    the counts; on any other loaded table it stops with [TypeError]
    after the third message, with [keywords.json] rewritten and the
    grammar file as it was. *)
Theorem main_outcome (json_dump : keyword_table -> string) (wb : workbook)
    (w : world) :
  let t := load_keywords wb in
  keywords_json (fst (main json_dump wb w)) = Some (json_dump t)
  /\ (wf_table t = true ->
      exists g,
        generate_grammar t = OK (newline ++ g)
        /\ main json_dump wb w
           = (mkWorld (Some (json_dump t)) (Some (g ++ newline))
                (printed w ++
                 ["Loading keywords from Excel...";
                  "Saving keywords.json...";
                  "Generating optimized grammar with properly scoped subkeywords...";
                  "Writing grammar file...";
                  "Build complete!";
                  ("- Generated grammar for " ++ str_of_nat (List.length t)
                   ++ " modules")%string;
                  ("- Total commands: "
                   ++ str_of_nat (list_sum (map (fun m => List.length (snd m)) t)))%string])%list,
              OK tt))
  /\ (wf_table t = false ->
      main json_dump wb w
      = (mkWorld (Some (json_dump t)) (grammar_cson w)
           (printed w ++
            ["Loading keywords from Excel...";
             "Saving keywords.json...";
             "Generating optimized grammar with properly scoped subkeywords..."])%list,
         Raise TypeError)).
Proof.
  intros t. unfold main. fold t.
  destruct (generate_grammar t) as [g|e] eqn:E.
  - split; [reflexivity|]. split.
    + intros _. exists (tail g). split.
      * f_equal. now apply (generate_grammar_newline t).
      * unfold print_line, write_grammar, save_keywords_json. cbn [keywords_json grammar_cson printed].
        f_equal. f_equal. now rewrite <- !app_assoc.
    + intros W. apply generate_grammar_ok in E. congruence.
  - split; [reflexivity|]. split.
    + intros W. destruct (generate_grammar_wf t W) as [g Hg]. congruence.
    + intros _.
      assert (He : e = TypeError).
      { apply (generate_grammar_raise t e); [|exact E].
        apply load_keywords_populated. }
      subst e. unfold print_line, save_keywords_json.
      cbn [keywords_json grammar_cson printed].
      f_equal. f_equal. now rewrite <- !app_assoc.
Qed.

Example main_on_numbers (json_dump : keyword_table -> string) :
  main json_dump [("AQUA", [[Some (VStr "NORM"); Some (VInt 5)]])]
    (mkWorld None (Some "old") [])
  = (mkWorld (Some (json_dump [("AQUA", [(VStr "NORM", [VInt 5])])])) (Some "old")
       ["Loading keywords from Excel...";
        "Saving keywords.json...";
        "Generating optimized grammar with properly scoped subkeywords..."],
     Raise TypeError).
Proof. reflexivity. Qed.


(* ================================================================== *)
(** * The two builds side by side                                       *)
(* ================================================================== *)

Lemma cell_step_inline_same st i c :
  cell_step_inline st i c = cell_step st i c.
Proof. unfold cell_step_inline, cell_step. destruct c as [[s|n]|]; reflexivity. Qed.

Lemma row_loop_inline_same r st i :
  row_loop_inline st i r = row_loop st i r.
Proof.
  revert st i. induction r as [|c r IH]; intros st i; [reflexivity|].
  cbn [row_loop_inline row_loop]. now rewrite cell_step_inline_same, IH.
Qed.

Lemma load_sheet_inline_same ws :
  load_sheet_inline ws = load_sheet ws.
Proof.
  unfold load_sheet_inline, load_sheet, sheet_loop. f_equal.
  generalize sheet_init. induction ws as [|r ws IH]; intros st; [reflexivity|].
  cbn [fold_left]. now rewrite row_loop_inline_same, IH.
Qed.

Lemma load_inline_same wb :
  load_inline wb = load_keywords wb.
Proof.
  unfold load_inline, load_keywords. generalize (@nil (string * module_table)).
  induction wb as [|[n ws] wb IH]; intros d; [reflexivity|].
  cbn [fold_left]. now rewrite load_sheet_inline_same, IH.
Qed.

Lemma forallb_same_elements {A} (P : A -> bool) l l' :
  (forall x, In x l <-> In x l') -> forallb P l = forallb P l'.
Proof.
  intros H. apply eq_iff_eq_true. rewrite !forallb_forall.
  split; intros G x Hx; apply G; now apply H.
Qed.

Lemma set_text l :
  forallb is_text (Inline.set_add_all [] l) = forallb is_text l.
Proof.
  apply forallb_same_elements. intros v. rewrite set_add_all_In. simpl. tauto.
Qed.

Lemma text_module_sets m :
  text_module m
  = forallb is_text (dict_keys m) && forallb is_text (flat_map snd m).
Proof.
  unfold text_module, dict_keys. induction m as [|[k subs] m IH]; [reflexivity|].
  cbn [forallb map flat_map fst snd]. rewrite forallb_app, IH.
  destruct (is_text k), (forallb is_text subs), (forallb is_text (map fst m));
    reflexivity.
Qed.

Lemma inline_step_outcome acc mname module :
  String.eqb mname "BASIC" = false ->
  (text_module module = true /\ exists out, Inline.module_step acc (mname, module) = OK out)
  \/ (text_module module = false
      /\ Inline.module_step acc (mname, module) = Raise TypeError).
Proof.
  intros Hb. rewrite inline_step_rule, Hb. unfold rule_in_order.
  rewrite !mapM_as_str_cases, !set_text, text_module_sets.
  destruct (forallb is_text (dict_keys module)); cbn [andb bind].
  - destruct (forallb is_text (flat_map snd module)); cbn [bind].
    + left. split; [reflexivity|]. eexists. reflexivity.
    + right. now split.
  - right. now split.
Qed.

Lemma inline_loop_outcome t acc :
  (text_table t = true /\ exists out, foldM Inline.module_step t acc = OK out)
  \/ (text_table t = false /\ foldM Inline.module_step t acc = Raise TypeError).
Proof.
  revert acc. unfold text_table, scoped_modules.
  induction t as [|[name m] t IH]; intros acc.
  - left. split; [reflexivity|]. now exists acc.
  - cbn [filter fst foldM]. destruct (String.eqb name "BASIC") eqn:Eb; cbn [negb].
    + rewrite inline_step_rule, Eb. cbn [bind]. apply IH.
    + cbn [forallb snd].
      destruct (inline_step_outcome acc name m Eb) as [[Ht [out Ho]]|[Ht Hr]];
        rewrite Ht.
      * rewrite Ho. cbn [bind andb]. apply IH.
      * rewrite Hr. cbn [bind andb]. right. now split.
Qed.

Lemma keyword_is_text v : is_keyword v = true -> is_text v = true.
Proof. now destruct v. Qed.

Lemma populated_text_keyword v :
  skipped (Some v) = false -> is_text v = true -> is_keyword v = true.
Proof. destruct v as [[|c s]|n]; simpl; congruence. Qed.

Lemma populated_text_module m :
  populated_module m -> text_module m = true -> wf_module m = true.
Proof.
  intros Hp. unfold text_module, wf_module. rewrite !forallb_forall.
  intros H [k subs] Hin. specialize (H _ Hin). cbn [fst snd] in *.
  apply andb_true_iff in H as [Hk Hs]. destruct (Hp k subs Hin) as [Pk Ps].
  apply andb_true_iff. split; [now apply populated_text_keyword|].
  apply forallb_forall. intros v Hv. rewrite forallb_forall in Hs.
  apply populated_text_keyword; [now apply Ps|now apply Hs].
Qed.

Lemma wf_text_module m : wf_module m = true -> text_module m = true.
Proof.
  unfold text_module, wf_module. rewrite !forallb_forall.
  intros H [k subs] Hin. specialize (H _ Hin). cbn [fst snd] in *.
  apply andb_true_iff in H as [Hk Hs]. apply andb_true_iff.
  split; [now apply keyword_is_text|].
  apply forallb_forall. intros v Hv. rewrite forallb_forall in Hs.
  apply keyword_is_text. now apply Hs.
Qed.

Lemma wf_text_table t : wf_table t = true -> text_table t = true.
Proof.
  unfold wf_table, text_table. rewrite !forallb_forall.
  intros H m Hm. apply wf_text_module. now apply H.
Qed.

Lemma loaded_text_table wb :
  text_table (load_keywords wb) = wf_table (load_keywords wb).
Proof.
  apply eq_iff_eq_true. split; [|apply wf_text_table].
  unfold wf_table, text_table. rewrite !forallb_forall.
  intros H [name m] Hm. cbn [snd]. apply populated_text_module.
  - unfold scoped_modules in Hm. apply filter_In in Hm as [Hm _].
    now apply (load_keywords_populated wb name).
  - now apply (H (name, m)).
Qed.

Lemma inline_rules_outcome t :
  (text_table t = true /\ exists out, Inline.module_rules t = OK out)
  \/ (text_table t = false /\ Inline.module_rules t = Raise TypeError).
Proof. unfold Inline.module_rules. apply inline_loop_outcome. Qed.

(** X14. The inline build reads the same table from a workbook as
    [load_keywords], and on that table it returns exactly when the
    generator of the refactored build does. *)
Theorem inline_table_same (wb : workbook) :
  load_inline wb = load_keywords wb
  /\ ((exists out, Inline.module_rules (load_inline wb) = OK out)
      <-> exists g, generate_grammar (load_keywords wb) = OK g).
Proof.
  split; [apply load_inline_same|]. rewrite load_inline_same.
  destruct (inline_rules_outcome (load_keywords wb)) as [[Ht [out Ho]]|[Ht Hr]];
    rewrite loaded_text_table in Ht.
  - split; intros _; [now apply generate_grammar_wf|now exists out].
  - split.
    + intros [out Ho]. congruence.
    + intros [g Hg]. apply generate_grammar_ok in Hg. congruence.
Qed.

(** X15. The inline build returns exactly for the tables whose modules,
    the base module apart, hold text only, and raises [TypeError] on the
    others; it accepts every table the refactored build accepts, and
    empty text besides, which it never indexes. *)
Theorem inline_build_outcome (t : keyword_table) :
  ((exists out, Inline.module_rules t = OK out) <-> text_table t = true)
  /\ (text_table t = false -> Inline.module_rules t = Raise TypeError)
  /\ ((exists g, generate_grammar t = OK g) ->
      exists out, Inline.module_rules t = OK out).
Proof.
  destruct (inline_rules_outcome t) as [[Ht [out Ho]]|[Ht Hr]].
  - split; [split; [now intros _|intros _; now exists out]|].
    split; [congruence|]. intros _. now exists out.
  - split; [split; [intros [out Ho]; congruence|congruence]|].
    split; [now intros _|].
    intros [g Hg]. apply generate_grammar_ok, wf_text_table in Hg. congruence.
Qed.

Example inline_accepts_empty_text :
  (exists out, Inline.module_rules [("AQUA", [(VStr "", [VStr "DC"])])] = OK out)
  /\ generate_grammar [("AQUA", [(VStr "", [VStr "DC"])])] = Raise IndexError.
Proof. split; [eexists|]; reflexivity. Qed.


(* ================================================================== *)
(** * The scope of the sub-keyword patterns                            *)
(* ================================================================== *)

Lemma existsb_same_elements {A} (P : A -> bool) l l' :
  (forall x, In x l <-> In x l') -> existsb P l = existsb P l'.
Proof.
  intros H. apply eq_iff_eq_true. rewrite !existsb_exists.
  split; intros [x [Hx HP]]; exists x; (split; [now apply H|exact HP]).
Qed.

Lemma plain_no_meta L :
  forallb plain_keyword L = true -> forallb no_meta L = true.
Proof.
  rewrite !forallb_forall. intros H w Hw. specialize (H w Hw).
  unfold plain_keyword in H. now apply andb_true_iff in H.
Qed.

Lemma plain_sublist (f : value -> string) l l' :
  (forall v, In v l -> In v l') ->
  forallb plain_keyword (map f l') = true ->
  forallb plain_keyword (map f l) = true.
Proof.
  rewrite !forallb_forall. intros Hsub H w Hw.
  apply in_map_iff in Hw as [v [<- Hv]]. apply H. apply in_map. now apply Hsub.
Qed.

Lemma keywords_pattern_matches vs s :
  forallb plain_keyword (map py_str vs) = true -> is_empty s = false ->
  match_whole true (keywords_pattern vs) s
  = Some (existsb (fun u => eq_ci (py_str u) s) vs).
Proof.
  intros Hp Hs. unfold keywords_pattern.
  rewrite (match_whole_optimized true); [| |reflexivity|exact Hs].
  - f_equal. rewrite existsb_sort. apply existsb_over_map.
  - rewrite forallb_forall in *. intros w Hw. apply Hp.
    exact (proj1 (sort_In _ keyword_leb w _) Hw).
Qed.

Lemma sorted_alternation_matches vs s :
  forallb plain_keyword (map py_str vs) = true -> is_empty s = false ->
  match_whole true (String.concat "|" (sort keyword_leb (map py_str vs))) s
  = Some (existsb (fun u => eq_ci (py_str u) s) vs).
Proof.
  intros Hp Hs. rewrite (match_whole_flat true _ s (plain_no_meta _ Hp) Hs).
  f_equal. apply existsb_over_map.
Qed.

Lemma inline_step_wf acc name m :
  String.eqb name "BASIC" = false -> wf_module m = true ->
  Inline.module_step acc (name, m)
  = OK ((fst acc ++ [Inline.text1_rule name])%list,
        (snd acc ++ [inline_entry (name, m)])%list).
Proof.
  intros Hb Hm. unfold Inline.module_step. rewrite Hb.
  rewrite (mapM_as_str (Inline.set_add_all [] (dict_keys m)))
    by (apply set_add_all_keywords; [reflexivity | now apply wf_module_keys]).
  cbn [bind].
  rewrite (mapM_as_str (Inline.set_add_all [] (flat_map snd m)))
    by (apply set_add_all_keywords; [reflexivity | now apply wf_module_subkeywords]).
  reflexivity.
Qed.

(** X16. The sub-keyword pattern inside the region of a command accepts,
    up to case, the sub-keywords of that command and no other token,
    whereas the one sub-keyword pattern that the inline build emits for
    a module accepts the sub-keywords of all its commands. *)
Theorem subkeyword_patterns_scope (acc : list string * list (list string))
    (name : string) (m : module_table) (s : string) :
  wf_module m = true ->
  forallb plain_keyword (map py_str (flat_map snd m)) = true ->
  String.eqb name "BASIC" = false ->
  is_empty s = false ->
  (forall k v vs, In (k, v :: vs) m ->
     exists p,
       command_rule (keywords_pattern (dict_keys m)) (k, v :: vs)
       = OK (command_region_rule (py_str k) (keywords_pattern (dict_keys m)) p)
       /\ match_whole true p s
          = Some (existsb (fun u => eq_ci (py_str u) s) (v :: vs)))
  /\ (exists cmds_pattern subcmds_pattern,
        Inline.module_step acc (name, m)
        = OK ((fst acc ++ [Inline.text1_rule name])%list,
              (snd acc ++ [[Inline.text2_rule name cmds_pattern subcmds_pattern]])%list)
        /\ match_whole true subcmds_pattern s
           = Some (existsb (fun u => eq_ci (py_str u) s) (flat_map snd m))).
Proof.
  intros Hm Hp Hb Hs. split.
  - intros k v vs Hin. exists (keywords_pattern (v :: vs)). split.
    + assert (Hk : is_keyword k && forallb is_keyword (v :: vs) = true).
      { unfold wf_module in Hm. rewrite forallb_forall in Hm.
        exact (Hm (k, v :: vs) Hin). }
      exact (command_rule_wf (keywords_pattern (dict_keys m)) (k, v :: vs) Hk).
    + apply keywords_pattern_matches; [|exact Hs].
      apply (plain_sublist py_str (v :: vs) (flat_map snd m)); [|exact Hp].
      intros u Hu. apply in_flat_map. exists (k, v :: vs). now split.
  - eexists. eexists. split.
    + rewrite (inline_step_wf acc name m Hb Hm). unfold inline_entry. cbn [fst snd].
      reflexivity.
    + rewrite sorted_alternation_matches; [|  |exact Hs].
      * f_equal. apply existsb_same_elements. intros u.
        rewrite set_add_all_In. simpl. tauto.
      * apply (plain_sublist py_str _ (flat_map snd m)); [|exact Hp].
        intros u Hu. apply set_add_all_In in Hu as [[]|Hu]. exact Hu.
Qed.

Lemma subkeyword_patterns_scope_witness :
  (exists p,
     command_rule (keywords_pattern [VStr "NORM"; VStr "END"])
       (VStr "NORM", [VStr "DC"; VStr "NDC"])
     = OK (command_region_rule "NORM" (keywords_pattern [VStr "NORM"; VStr "END"]) p)
     /\ match_whole true p "x" = Some false)
  /\ (exists cmds_pattern subcmds_pattern,
        Inline.module_step ([], [])
          ("AQUA", [(VStr "NORM", [VStr "DC"; VStr "NDC"]); (VStr "END", [VStr "X"])])
        = OK ([Inline.text1_rule "AQUA"],
              [[Inline.text2_rule "AQUA" cmds_pattern subcmds_pattern]])
        /\ match_whole true subcmds_pattern "x" = Some true).
Proof.
  destruct (subkeyword_patterns_scope ([], []) "AQUA"
              [(VStr "NORM", [VStr "DC"; VStr "NDC"]); (VStr "END", [VStr "X"])] "x"
              eq_refl eq_refl eq_refl eq_refl) as [H1 H2].
  split.
  - destruct (H1 (VStr "NORM") (VStr "DC") [VStr "NDC"] (or_introl eq_refl))
      as [p [Hr Hp]].
    exists p. split; [exact Hr|exact Hp].
  - destruct H2 as [cp [sp [Hr Hp]]]. exists cp, sp. split; [exact Hr|exact Hp].
Defined.
